(** * STAKU board drawing: a shallow embedding of [staku_svg.py]

    The Python program computes the geometry of a hexagonal board and
    emits drawing primitives.  This development embeds

    - the Python runtime fragments the program relies on (exceptions,
      binary64 floats, int-to-float conversion, indexing),
    - [TinyVector], the 2D vector algebra,
    - [BoardConfig] and [make_board_config],
    - the [Hexagon] class with its class-level registries, and
    - [draw_board] with its decoration helpers,

    and states the properties of the specification against them.

    Floats are Rocq's primitive binary64 floats, which is what CPython's
    [float] is.  The C library functions [cos], [sin] and [pow] and the
    [random] module are taken as parameters: the theorems hold for every
    implementation of them. *)

From Stdlib Require Import ZArith Reals Lra Lia PrimFloat SpecFloat FloatOps.
From stdpp Require Import gmap strings list fin_maps sorting.

Set Default Proof Using "Type".
#[local] Set Warnings "-inexact-float".

(** ** Python runtime fragments *)

Module Py.

(** The exceptions the modelled code can raise. *)
Inductive exn : Set :=
| NotImplementedError
| ZeroDivisionError
| OverflowError
| ValueError
| IndexError
| KeyError
| TypeError
| AssertionError
| UnboundLocalError.

(** The outcome of running a piece of Python code: a value, a raised
    exception, or (for the [while True] loops of the texture
    generators) fuel exhaustion. *)
Inductive result (A : Type) : Type :=
| Ok (a : A)
| Raise (e : exn)
| OutOfFuel.
Arguments Ok {A} a.
Arguments Raise {A} e.
Arguments OutOfFuel {A}.

Definition is_ok {A} (r : result A) : bool :=
  match r with Ok _ => true | _ => false end.

Definition rbind {A B} (r : result A) (k : A -> result B) : result B :=
  match r with
  | Ok a => k a
  | Raise e => Raise e
  | OutOfFuel => OutOfFuel
  end.

(** State-and-exception monad: the code threads a mutable store. *)
Definition SE (S A : Type) : Type := S -> result (A * S).

Definition ret {S A} (a : A) : SE S A := fun s => Ok (a, s).
Definition bind {S A B} (m : SE S A) (k : A -> SE S B) : SE S B :=
  fun s => match m s with
           | Ok (a, s') => k a s'
           | Raise e => Raise e
           | OutOfFuel => OutOfFuel
           end.
Definition raise {S A} (e : exn) : SE S A := fun _ => Raise e.
Definition lift {S A} (r : result A) : SE S A :=
  fun s => match r with
           | Ok a => Ok (a, s)
           | Raise e => Raise e
           | OutOfFuel => OutOfFuel
           end.
Definition get_state {S} : SE S S := fun s => Ok (s, s).
Definition put_state {S} (s : S) : SE S unit := fun _ => Ok (tt, s).
Definition modify {S} (f : S -> S) : SE S unit := fun s => Ok (tt, f s).
(** The [assert] statement. *)
Definition assert {S} (b : bool) : SE S unit :=
  if b then ret tt else raise AssertionError.

(** [for x in xs: body], threading the loop-carried value. *)
Fixpoint for_each {S A B} (xs : list A) (body : A -> B -> SE S B) (acc : B)
  : SE S B :=
  match xs with
  | [] => ret acc
  | x :: xs' => bind (body x acc) (for_each xs' body)
  end.

(** [int -> float] as CPython converts an [int] operand of a float
    operation: round to nearest even, [OverflowError] when the result
    does not fit a binary64. *)
Definition float_of_int (z : Z) : result float :=
  let f := SF2Prim (binary_normalize prec emax z 0 false) in
  if is_infinity f then Raise OverflowError else Ok f.

(** Small ints used as literals next to floats ([2*x], [1 - p], ...):
    exact. *)
Definition fz (z : Z) : float :=
  SF2Prim (binary_normalize prec emax z 0 false).

(** [a / b] on floats: CPython raises on a zero divisor (either sign). *)
Definition float_div (a b : float) : result float :=
  if (b =? 0)%float then Raise ZeroDivisionError else Ok (a / b)%float.

(** [max(0, x)] and [min(1, x)] with Python's comparison order: the
    first argument wins unless the second is strictly better; a NaN
    never is.  The int results [0] and [1] are only used in float
    arithmetic afterwards, where they convert to [0.0] and [1.0]. *)
Definition max0 (x : float) : float := if (0 <? x)%float then x else 0%float.
Definition min1 (x : float) : float := if (x <? 1)%float then x else 1%float.

(** [l[i]] for a list: negative indices count from the end. *)
Definition getitem {A} (l : list A) (i : Z) : result A :=
  let n := Z.of_nat (length l) in
  let j := if (i <? 0)%Z then (i + n)%Z else i in
  if ((0 <=? j) && (j <? n))%Z
  then match l !! Z.to_nat j with
       | Some a => Ok a
       | None => Raise IndexError
       end
  else Raise IndexError.

End Py.
Export Py.

Declare Scope py_scope.
Delimit Scope py_scope with py.
Notation "x <- m ;; k" := (bind m (fun x => k))
  (at level 20, m at level 99, k at level 200, only parsing)
  : py_scope.
Notation "' pat <- m ;; k" := (bind m (fun x => match x with pat => k end))
  (at level 20, pat pattern, m at level 99, k at level 200, only parsing)
  : py_scope.

(** ** [class Side(enum.Enum)] *)

Inductive Side : Set := NORTH | SOUTH | WEST | EAST.

#[global] Instance Side_eq_dec : EqDecision Side.
Proof. solve_decision. Defined.

(** ** [class TinyVector] *)

Module TinyVector.

(** [__slots__ = ("__x", "__y")]; the constructor stores
    [float(xy_pair[0])] and [float(xy_pair[1])], so both are floats. *)
Record t : Set := mk { x : float; y : float }.

(** The values an operand of a [TinyVector] operator can take. *)
Inductive operand : Type :=
| PyNone
| PyBool (b : bool)
| PyInt (z : Z)
| PyFloat (f : float)
| PyStr (s : string)
| PySide (s : Side)
| PyVector (v : t).

(** [isinstance(other, (int, float))]; [bool] is a subclass of [int]. *)
Definition is_int_or_float (o : operand) : bool :=
  match o with
  | PyBool _ | PyInt _ | PyFloat _ => true
  | _ => false
  end.

(** The float a numeric operand stands for in [self.__x * other]. *)
Definition to_float (o : operand) : result float :=
  match o with
  | PyFloat f => Ok f
  | PyInt z => float_of_int z
  | PyBool b => float_of_int (Z.b2z b)
  | _ => Raise TypeError
  end.

(** [TinyVector(xy_pair=None)] *)
Definition zero : t := mk 0 0.

Definition __getitem__ (self : t) (key : Z) : result float :=
  if (key =? 0)%Z then Ok (x self)
  else if (key =? 1)%Z then Ok (y self)
  else Raise IndexError.

Definition __neg__ (self : t) : t := mk (- x self) (- y self).
Definition __pos__ (self : t) : t := mk (x self) (y self).

(** Vector-vector and vector-float forms of the operators: what
    [__add__], [__sub__], [__mul__] and [__truediv__] compute once the
    operand's type is known. *)
Definition add (a b : t) : t := mk (x a + x b) (y a + y b).
Definition sub (a b : t) : t := mk (x a - x b) (y a - y b).
Definition add_scalar (a : t) (f : float) : t := mk (x a + f) (y a + f).
Definition sub_scalar (a : t) (f : float) : t := mk (x a - f) (y a - f).
Definition scale (a : t) (f : float) : t := mk (x a * f) (y a * f).
Definition divide (a : t) (f : float) : t := mk (x a / f) (y a / f).

Definition __add__ (self : t) (other : operand) : result t :=
  match other with
  | PyVector o => Ok (add self o)
  | _ =>
      if is_int_or_float other
      then rbind (to_float other) (fun f => Ok (add_scalar self f))
      else Raise NotImplementedError
  end.

Definition __sub__ (self : t) (other : operand) : result t :=
  match other with
  | PyVector o => Ok (sub self o)
  | _ =>
      if is_int_or_float other
      then rbind (to_float other) (fun f => Ok (sub_scalar self f))
      else Raise NotImplementedError
  end.

Definition __mul__ (self : t) (other : operand) : result t :=
  if is_int_or_float other
  then rbind (to_float other) (fun f => Ok (scale self f))
  else Raise NotImplementedError.

Definition __truediv__ (self : t) (other : operand) : result t :=
  if is_int_or_float other
  then rbind (to_float other) (fun f =>
         rbind (float_div (x self) f) (fun new_x =>
         rbind (float_div (y self) f) (fun new_y =>
         Ok (mk new_x new_y))))
  else Raise NotImplementedError.

Definition __radd__ (self : t) (other : operand) : result t :=
  __add__ self other.
Definition __rmul__ (self : t) (other : operand) : result t :=
  __mul__ self other.

Definition inner (that other : t) : float :=
  (x that * x other + y that * y other)%float.

(** [math.sqrt] raises only on a negative argument; a sum of two squares
    is never negative (it may be NaN or infinite, which pass through). *)
Definition norm (that : t) : float :=
  PrimFloat.sqrt (x that * x that + y that * y that).

End TinyVector.

Abbreviation TinyVector := TinyVector.t.

(** *** Rotation, generic in the scalar arithmetic

    [make_rotation] as written, over any scalar type with the operations
    it uses.  It is instantiated with binary64 floats (the program) and
    with the real numbers (the arithmetic the rotation law is stated
    in). *)

Section Rotation.
Context {K : Type}.
Variables (kmul ksub kadd : K -> K -> K) (kcos ksin : K -> K).

Definition make_rotation_over (self : K * K) (angle : K) : K * K :=
  let new_x := ksub (kmul (kcos angle) (fst self)) (kmul (ksin angle) (snd self)) in
  let new_y := kadd (kmul (ksin angle) (fst self)) (kmul (kcos angle) (snd self)) in
  (new_x, new_y).

End Rotation.


(** ** The [math] module

    [math.cos], [math.sin] and float exponentiation call the C library,
    whose results are not fixed by IEEE 754.  They are parameters. *)

Class Libm : Type := {
  libm_cos : float -> float;
  libm_sin : float -> float;
  libm_pow : float -> float -> float
}.

(** [math.pi] *)
Definition math_pi : float := 0x1.921fb54442d18p+1%float.

(** [math.cos(x)] and [math.sin(x)] raise [ValueError] on an infinite
    argument and return the C result otherwise. *)
Definition math_cos `{Libm} (a : float) : result float :=
  if is_infinity a then Raise ValueError else Ok (libm_cos a).
Definition math_sin `{Libm} (a : float) : result float :=
  if is_infinity a then Raise ValueError else Ok (libm_sin a).

(** [TinyVector.make_rotation] on floats. *)
Definition make_rotation `{Libm} (self : TinyVector) (angle : float)
  : result TinyVector :=
  if is_infinity angle then Raise ValueError
  else
    let '(new_x, new_y) :=
      make_rotation_over PrimFloat.mul PrimFloat.sub PrimFloat.add
        libm_cos libm_sin (TinyVector.x self, TinyVector.y self) angle in
    Ok (TinyVector.mk new_x new_y).

(** [int(f)] for a float: truncation toward zero. *)
Definition int_of_float (f : float) : result Z :=
  match Prim2SF f with
  | S754_zero _ => Ok 0%Z
  | S754_infinity _ => Raise OverflowError
  | S754_nan => Raise ValueError
  | S754_finite s m e =>
      let mag := if (0 <=? e)%Z then (Z.pos m * 2 ^ e)%Z
                 else (Z.pos m / 2 ^ (- e))%Z in
      Ok (if s then (- mag)%Z else mag)
  end.

(** ** [BoardConfig] *)

(** TROTEC LASER color codes *)
Definition COLOR_TO_ENGRAVE : string := "rgb(0,0,0)".
Definition COLOR_TO_SCORE : string := "rgb(255,0,0)".
Definition COLOR_TO_CUT_1 : string := "rgb(0,0,255)".
Definition COLOR_TO_CUT_2 : string := "rgb(51,102,153)".

Definition LINE_WIDTH_MAX_TO_CUT_CM : float := (0.1 / 10)%float.
Definition LINE_WIDTH_MIN_TO_ENGRAVE_CM : float := (0.11 / 10)%float.

(** The dataclass.  [board_width] is the int [4096] in
    [make_board_config]; it only ever enters float arithmetic, where it
    converts exactly, so it is kept as the float here. *)
Record BoardConfig : Type := {
  board_width_cm : float;
  board_height_cm : float;
  board_width : float;
  board_height : float;
  board_cut_margin : float;
  line_width_max_to_cut : float;
  line_width_min_to_engrave : float;
  board_color : string;
  hexagon_width : float;
  hexagon_side : float;
  hexagon_height : float;
  hexagon_padding : float;
  hexagon_line_width : float;
  hexagon_line_color : string;
  hexagon_opacity : float;
  hexagon_vertex_count : nat;
  hexagon_side_angle : float;
  origin : TinyVector;
  unit_x : TinyVector;
  unit_y : TinyVector;
  unit_u : TinyVector;
  unit_v : TinyVector;
  label_color : string;
  label_font_family : string;
  label_font_size : Z;
  label_vertical_shift : TinyVector;
  label_horizontal_shift : TinyVector
}.

(** [make_board_config()].  Every divisor is a non-zero constant and
    every argument of [cos], [sin] and [int] is finite, so no exception
    can be raised; the [print] calls are omitted. *)
Definition make_board_config `{Libm} : result BoardConfig :=
  let cube_side_cm := 1.8%float in
  let hexagon_width_cm := (2 * cube_side_cm)%float in
  rbind (float_div hexagon_width_cm (PrimFloat.sqrt 3)) (fun hexagon_side_cm =>
  let hexagon_height_cm := (2 * hexagon_side_cm)%float in
  let hexagon_padding_cm := 0.3%float in
  let hexagon_line_width_cm := (0.1 / 4)%float in
  let max_horizontal_hexagon_count := 8%Z in
  let max_vertical_hexagon_count := 7%Z in
  let board_left_margin_cm := (hexagon_width_cm / 2)%float in
  let board_right_margin_cm := (hexagon_width_cm / 2)%float in
  let board_top_margin_cm := hexagon_side_cm in
  let board_bottom_margin_cm := hexagon_side_cm in
  let board_cut_margin_cm := (0.1 / 10)%float in
  let board_width_cm :=
    (board_cut_margin_cm
     + board_left_margin_cm
     + fz max_horizontal_hexagon_count * hexagon_width_cm
     + board_right_margin_cm
     + board_cut_margin_cm)%float in
  let board_height_cm :=
    (board_cut_margin_cm
     + board_top_margin_cm
     + fz (max_vertical_hexagon_count / 2) * hexagon_side_cm
     + fz (max_vertical_hexagon_count - max_vertical_hexagon_count / 2)
       * hexagon_height_cm
     + board_bottom_margin_cm
     + board_cut_margin_cm)%float in
  let board_width := 4096%float in
  rbind (float_div board_height_cm board_width_cm) (fun r_height =>
  let board_height := (board_width * r_height)%float in
  rbind (float_div board_cut_margin_cm board_width_cm) (fun r_cut =>
  let board_cut_margin := (board_width * r_cut)%float in
  rbind (float_div hexagon_width_cm board_width_cm) (fun r_width =>
  let hexagon_width := (board_width * r_width)%float in
  rbind (float_div hexagon_side_cm board_width_cm) (fun r_side =>
  let hexagon_side := (board_width * r_side)%float in
  rbind (float_div hexagon_height_cm board_width_cm) (fun r_hheight =>
  let hexagon_height := (board_width * r_hheight)%float in
  rbind (float_div hexagon_padding_cm board_width_cm) (fun r_padding =>
  let hexagon_padding := (board_width * r_padding)%float in
  rbind (float_div LINE_WIDTH_MAX_TO_CUT_CM board_width_cm) (fun r_cutw =>
  let line_width_max_to_cut := (board_width * r_cutw)%float in
  rbind (float_div LINE_WIDTH_MIN_TO_ENGRAVE_CM board_width_cm) (fun r_engr =>
  let line_width_min_to_engrave := (board_width * r_engr)%float in
  let hexagon_vertex_count := 6%nat in
  let hexagon_side_angle := (2 * math_pi / fz (Z.of_nat hexagon_vertex_count))%float in
  let origin := TinyVector.mk 0 0 in
  let unit_x := TinyVector.mk 1 0 in
  let unit_y := TinyVector.mk 0 (-1) in
  let unit_u := unit_x in
  rbind (math_cos hexagon_side_angle) (fun c =>
  rbind (math_sin hexagon_side_angle) (fun s =>
  let unit_v := TinyVector.add (TinyVector.scale unit_x c)
                               (TinyVector.scale unit_y s) in
  let label_color := COLOR_TO_ENGRAVE in
  let label_font_family := "Helvetica" in
  rbind (int_of_float (hexagon_width * 0.20)) (fun label_font_size =>
  let label_vertical_shift :=
    TinyVector.scale unit_y (- 0.60 * hexagon_side)%float in
  let label_horizontal_shift :=
    TinyVector.scale unit_x (1.20 * hexagon_side)%float in
  let board_color := "#BF9B7A" in
  let hexagon_opacity := 0.45%float in
  let hexagon_line_color := COLOR_TO_ENGRAVE in
  rbind (float_div hexagon_line_width_cm board_width_cm) (fun r_line =>
  let hexagon_line_width := (board_width * r_line)%float in
  let hexagon_line_width :=
    if (1 <? hexagon_line_width)%float then hexagon_line_width else 1%float in
  Ok {| board_width_cm := board_width_cm;
        board_height_cm := board_height_cm;
        board_width := board_width;
        board_height := board_height;
        board_cut_margin := board_cut_margin;
        line_width_max_to_cut := line_width_max_to_cut;
        line_width_min_to_engrave := line_width_min_to_engrave;
        board_color := board_color;
        hexagon_width := hexagon_width;
        hexagon_side := hexagon_side;
        hexagon_height := hexagon_height;
        hexagon_padding := hexagon_padding;
        hexagon_line_width := hexagon_line_width;
        hexagon_line_color := hexagon_line_color;
        hexagon_opacity := hexagon_opacity;
        hexagon_vertex_count := hexagon_vertex_count;
        hexagon_side_angle := hexagon_side_angle;
        origin := origin;
        unit_x := unit_x;
        unit_y := unit_y;
        unit_u := unit_u;
        unit_v := unit_v;
        label_color := label_color;
        label_font_family := label_font_family;
        label_font_size := label_font_size;
        label_vertical_shift := label_vertical_shift;
        label_horizontal_shift := label_horizontal_shift |}))))))))))))).

(** ** [class Hexagon] *)

(** The value of the [label_side] attribute: the constructor's default
    is the int [0], the annotation allows [None], and the catalog passes
    [Side] members. *)
Inductive label_value : Set :=
| LabelNone
| LabelInt (z : Z)
| LabelSide (s : Side).

#[global] Instance label_value_eq_dec : EqDecision label_value.
Proof. solve_decision. Defined.

(** An instance ([__slots__]); [index] is [None] until the sorted list
    is built. *)
Record Hexagon : Type := {
  name : string;
  position_uv : Z * Z;
  ring : Z;
  label_side : label_value;
  index : option nat;
  center : TinyVector
}.

Definition set_index (i : nat) (h : Hexagon) : Hexagon :=
  {| name := name h; position_uv := position_uv h; ring := ring h;
     label_side := label_side h; index := Some i; center := center h |}.

(** Addresses of [Hexagon] instances and of Python [list] objects.
    Instances and lists are shared between the class attributes, so the
    store is explicit: an address is a position in the store. *)
Abbreviation addr := nat (only parsing).

(** The class attributes together with the object store. *)
Record HexagonClass : Type := {
  instances : list Hexagon;
  list_objects : list (list addr);
  __all_sorted_hexagons : addr;
  __init_done : bool;
  __layout : list (Z * list string);
  __name_to_hexagon : gmap string addr;
  __position_uv_to_hexagon : gmap (Z * Z) addr;
  all : option addr;
  __delta_u : option (list Z);
  __delta_v : option (list Z)
}.

(** The class right after its body has run: [__all_sorted_hexagons = []]
    allocated the first list object, [all = None]. *)
Definition class_body : HexagonClass :=
  {| instances := [];
     list_objects := [[]];
     __all_sorted_hexagons := 0;
     __init_done := false;
     __layout := [];
     __name_to_hexagon := ∅;
     __position_uv_to_hexagon := ∅;
     all := None;
     __delta_u := None;
     __delta_v := None |}.

Section HexagonMethods.
Context (BOARD_CONFIG : BoardConfig).

Local Open Scope py_scope.

(** [BOARD_CONFIG.origin + BOARD_CONFIG.hexagon_width *
     (u*BOARD_CONFIG.unit_u + v*BOARD_CONFIG.unit_v)]: the ints [u] and
    [v] reach [TinyVector.__mul__] through [__rmul__]. *)
Definition compute_center (u v : Z) : result TinyVector :=
  rbind (TinyVector.__rmul__ (unit_u BOARD_CONFIG) (TinyVector.PyInt u)) (fun uu =>
  rbind (TinyVector.__rmul__ (unit_v BOARD_CONFIG) (TinyVector.PyInt v)) (fun vv =>
  rbind (TinyVector.__add__ uu (TinyVector.PyVector vv)) (fun w =>
  rbind (TinyVector.__rmul__ w (TinyVector.PyFloat (hexagon_width BOARD_CONFIG))) (fun hw =>
  TinyVector.__add__ (origin BOARD_CONFIG) (TinyVector.PyVector hw))))).

(** [Hexagon.__init__]; the result is the address of the new instance.
    [position_uv] is a pair by its type, which is the second assertion.
    The instance is registered in both tables before its center is
    computed, as in the source. *)
Definition Hexagon__init__ (name : string) (position_uv : Z * Z) (ring : Z)
    (label_side : label_value) : SE HexagonClass addr :=
  cls <- get_state ;;
  _ <- assert (bool_decide (__name_to_hexagon cls !! name = None)) ;;
  _ <- assert (bool_decide (__position_uv_to_hexagon cls !! position_uv = None)) ;;
  _ <- assert (String.length name =? 2)%nat ;;
  let self := length (instances cls) in
  let '(u, v) := position_uv in
  center <- lift (compute_center u v) ;;
  _ <- put_state
    {| instances := instances cls ++
         [ {| name := name; position_uv := position_uv; ring := ring;
              label_side := label_side; index := None; center := center |} ];
       list_objects := list_objects cls;
       __all_sorted_hexagons := __all_sorted_hexagons cls;
       __init_done := __init_done cls;
       __layout := __layout cls;
       __name_to_hexagon := <[name := self]> (__name_to_hexagon cls);
       __position_uv_to_hexagon :=
         <[position_uv := self]> (__position_uv_to_hexagon cls);
       all := all cls;
       __delta_u := __delta_u cls;
       __delta_v := __delta_v cls |} ;;
  ret self.

(** [Hexagon.get(name)] *)
Definition get (name : string) : SE HexagonClass addr :=
  cls <- get_state ;;
  match __name_to_hexagon cls !! name with
  | Some h => ret h
  | None => raise KeyError
  end.

(** [Hexagon.get_all()]: the list object itself. *)
Definition get_all : SE HexagonClass addr :=
  cls <- get_state ;; ret (__all_sorted_hexagons cls).

(** [Hexagon.get_layout()] *)
Definition get_layout : SE HexagonClass (list (Z * list string)) :=
  cls <- get_state ;; ret (__layout cls).

(** The arguments of the 49 constructor calls of [__create_hexagons],
    in source order.  A call without [label_side] gets the default [0]. *)
Definition W := LabelSide WEST.
Definition E := LabelSide EAST.
Definition no := LabelInt 0.

Definition catalog_calls : list (string * (Z * Z) * Z * label_value) :=
  [ (* Row "a" *)
    ("a1", (-1, -3), 4, W); ("a2", (-0, -3), 3, no); ("a3", (1, -3), 3, no);
    ("a4", (2, -3), 3, no); ("a5", (3, -3), 3, no); ("a6", (4, -3), 4, E);
    (* Row "b" *)
    ("b1", (-2, -2), 4, W); ("b2", (-1, -2), 3, no); ("b3", (0, -2), 2, no);
    ("b4", (1, -2), 2, no); ("b5", (2, -2), 2, no); ("b6", (3, -2), 3, no);
    ("b7", (4, -2), 4, E);
    (* Row "c" *)
    ("c1", (-3, -1), 4, W); ("c2", (-2, -1), 3, no); ("c3", (-1, -1), 2, no);
    ("c4", (0, -1), 1, no); ("c5", (1, -1), 1, no); ("c6", (2, -1), 2, no);
    ("c7", (3, -1), 3, no); ("c8", (4, -1), 4, E);
    (* Row "d" *)
    ("d1", (-3, 0), 3, W); ("d2", (-2, 0), 2, no); ("d3", (-1, 0), 1, no);
    ("d4", (0, 0), 0, no); ("d5", (1, 0), 1, no); ("d6", (2, 0), 2, no);
    ("d7", (3, 0), 3, E);
    (* Row "e" *)
    ("e1", (-4, 1), 4, W); ("e2", (-3, 1), 3, no); ("e3", (-2, 1), 2, no);
    ("e4", (-1, 1), 1, no); ("e5", (0, 1), 1, no); ("e6", (1, 1), 2, no);
    ("e7", (2, 1), 3, no); ("e8", (3, 1), 4, E);
    (* Row "f" *)
    ("f1", (-4, 2), 4, W); ("f2", (-3, 2), 3, no); ("f3", (-2, 2), 2, no);
    ("f4", (-1, 2), 2, no); ("f5", (0, 2), 2, no); ("f6", (1, 2), 3, no);
    ("f7", (2, 2), 4, E);
    (* Row "g" *)
    ("g1", (-4, 3), 4, W); ("g2", (-3, 3), 3, no); ("g3", (-2, 3), 3, no);
    ("g4", (-1, 3), 3, no); ("g5", (0, 3), 3, no); ("g6", (1, 3), 4, E)
  ]%Z.

(** [Hexagon.__create_hexagons()] *)
Definition __create_hexagons : SE HexagonClass unit :=
  for_each catalog_calls
    (fun '(name, position_uv, ring, label_side) _ =>
       _ <- Hexagon__init__ name position_uv ring label_side ;; ret tt)
    tt.

(** [list.append] on the list object at [l]. *)
Definition list_append (l : addr) (a : addr) : SE HexagonClass unit :=
  modify (fun cls =>
    {| instances := instances cls;
       list_objects := alter (fun items => items ++ [a]) l (list_objects cls);
       __all_sorted_hexagons := __all_sorted_hexagons cls;
       __init_done := __init_done cls;
       __layout := __layout cls;
       __name_to_hexagon := __name_to_hexagon cls;
       __position_uv_to_hexagon := __position_uv_to_hexagon cls;
       all := all cls;
       __delta_u := __delta_u cls;
       __delta_v := __delta_v cls |}).

(** [hexagon.index = index] on the instance at [h]. *)
Definition store_index (h : addr) (i : nat) : SE HexagonClass unit :=
  modify (fun cls =>
    {| instances := alter (set_index i) h (instances cls);
       list_objects := list_objects cls;
       __all_sorted_hexagons := __all_sorted_hexagons cls;
       __init_done := __init_done cls;
       __layout := __layout cls;
       __name_to_hexagon := __name_to_hexagon cls;
       __position_uv_to_hexagon := __position_uv_to_hexagon cls;
       all := all cls;
       __delta_u := __delta_u cls;
       __delta_v := __delta_v cls |}).

(** [sorted(d.keys())] for a dict keyed by strings. *)
Definition sorted_keys (d : gmap string addr) : list string :=
  merge_sort String.le (map fst (map_to_list d)).

(** The items of the list object at [l]. *)
Definition list_items (cls : HexagonClass) (l : addr) : list addr :=
  default [] (list_objects cls !! l).

(** [Hexagon.__create_all_sorted_hexagons()] *)
Definition __create_all_sorted_hexagons : SE HexagonClass unit :=
  cls <- get_state ;;
  _ <- for_each (sorted_keys (__name_to_hexagon cls))
    (fun name _ =>
       cls' <- get_state ;;
       h <- get name ;;
       list_append (__all_sorted_hexagons cls') h)
    tt ;;
  cls <- get_state ;;
  _ <- for_each (imap (fun index hexagon => (index, hexagon))
              (list_items cls (__all_sorted_hexagons cls)))
    (fun '(index, hexagon) _ => store_index hexagon index)
    tt ;;
  modify (fun cls =>
    {| instances := instances cls;
       list_objects := list_objects cls;
       __all_sorted_hexagons := __all_sorted_hexagons cls;
       __init_done := __init_done cls;
       __layout := __layout cls;
       __name_to_hexagon := __name_to_hexagon cls;
       __position_uv_to_hexagon := __position_uv_to_hexagon cls;
       all := Some (__all_sorted_hexagons cls);
       __delta_u := __delta_u cls;
       __delta_v := __delta_v cls |}).

Definition set_layout (rows : list (Z * list string)) (cls : HexagonClass)
  : HexagonClass :=
  {| instances := instances cls;
     list_objects := list_objects cls;
     __all_sorted_hexagons := __all_sorted_hexagons cls;
     __init_done := __init_done cls;
     __layout := rows;
     __name_to_hexagon := __name_to_hexagon cls;
     __position_uv_to_hexagon := __position_uv_to_hexagon cls;
     all := all cls;
     __delta_u := __delta_u cls;
     __delta_v := __delta_v cls |}.

(** [Hexagon.__create_layout()] *)
Definition __create_layout : SE HexagonClass unit :=
  _ <- modify (set_layout []) ;;
  for_each
    [ (1, ["g1"; "g2"; "g3"; "g4"; "g5"; "g6"]);
      (0, ["f1"; "f2"; "f3"; "f4"; "f5"; "f6"; "f7"]);
      (1, ["e1"; "e2"; "e3"; "e4"; "e5"; "e6"; "e7"; "e8"]);
      (0, ["d1"; "d2"; "d3"; "d4"; "d5"; "d6"; "d7"]);
      (1, ["c1"; "c2"; "c3"; "c4"; "c5"; "c6"; "c7"; "c8"]);
      (0, ["b1"; "b2"; "b3"; "b4"; "b5"; "b6"; "b7"]);
      (1, ["a1"; "a2"; "a3"; "a4"; "a5"; "a6"]) ]%Z
    (fun row _ => modify (fun cls => set_layout (__layout cls ++ [row]) cls))
    tt.

(** [Hexagon.__create_delta_u_and_v()] *)
Definition __create_delta_u_and_v : SE HexagonClass unit :=
  modify (fun cls =>
    {| instances := instances cls;
       list_objects := list_objects cls;
       __all_sorted_hexagons := __all_sorted_hexagons cls;
       __init_done := __init_done cls;
       __layout := __layout cls;
       __name_to_hexagon := __name_to_hexagon cls;
       __position_uv_to_hexagon := __position_uv_to_hexagon cls;
       all := all cls;
       __delta_u := Some [1; 1; 0; -1; -1; 0]%Z;
       __delta_v := Some [0; -1; -1; 0; 1; 1]%Z |}).

Definition set_init_done (b : bool) (cls : HexagonClass) : HexagonClass :=
  {| instances := instances cls;
     list_objects := list_objects cls;
     __all_sorted_hexagons := __all_sorted_hexagons cls;
     __init_done := b;
     __layout := __layout cls;
     __name_to_hexagon := __name_to_hexagon cls;
     __position_uv_to_hexagon := __position_uv_to_hexagon cls;
     all := all cls;
     __delta_u := __delta_u cls;
     __delta_v := __delta_v cls |}.

(** [Hexagon.init()] *)
Definition init : SE HexagonClass unit :=
  cls <- get_state ;;
  if negb (__init_done cls) then
    _ <- __create_hexagons ;;
    _ <- __create_all_sorted_hexagons ;;
    _ <- __create_layout ;;
    _ <- __create_delta_u_and_v ;;
    modify (set_init_done true)
  else ret tt.

(** [Hexagon.reset()]: the [[]] on the first line is a new list object;
    [all], [__delta_u] and [__delta_v] are not assigned. *)
Definition reset : SE HexagonClass unit :=
  modify (fun cls =>
    {| instances := instances cls;
       list_objects := list_objects cls ++ [[]];
       __all_sorted_hexagons := length (list_objects cls);
       __init_done := false;
       __layout := [];
       __name_to_hexagon := ∅;
       __position_uv_to_hexagon := ∅;
       all := all cls;
       __delta_u := __delta_u cls;
       __delta_v := __delta_v cls |}).

End HexagonMethods.

(** *** Observations on the class *)

(** The instances a list object holds, in order. *)
Definition cells_of (cls : HexagonClass) (l : addr) : list Hexagon :=
  omap (fun a => instances cls !! a) (list_items cls l).

(** What [Hexagon.get_all()] shows. *)
Definition get_all_cells (cls : HexagonClass) : list Hexagon :=
  cells_of cls (__all_sorted_hexagons cls).

(** What the shortcut [Hexagon.all] shows ([None] while it is [None]). *)
Definition all_cells (cls : HexagonClass) : option (list Hexagon) :=
  cells_of cls <$> all cls.

(** The cell a name or a position is bound to. *)
Definition cell_by_name (cls : HexagonClass) (n : string) : option Hexagon :=
  a ← __name_to_hexagon cls !! n; instances cls !! a.
Definition cell_by_position (cls : HexagonClass) (p : Z * Z) : option Hexagon :=
  a ← __position_uv_to_hexagon cls !! p; instances cls !! a.

(** The state a run leaves, when it returns. *)
Definition state_after {A} (m : SE HexagonClass A) (cls : HexagonClass)
  : option HexagonClass :=
  match m cls with Ok (_, cls') => Some cls' | _ => None end.

(** ** The drawing library ([drawsvg])

    Only what the program hands to the library is modelled: a drawing is
    the sequence of drawing_elements appended to it, each with the arguments of
    its constructor call. *)

Record gradient_stop : Set := {
  stop_offset : float;
  stop_color : string;
  stop_opacity : float
}.

Record RadialGradient : Set := {
  gradient_cx : float;
  gradient_cy : float;
  gradient_r : float;
  gradient_stops : list gradient_stop
}.

Inductive fill_value : Set :=
| FillNone
| FillColor (color : string)
| FillGradient (g : RadialGradient).

Inductive element : Set :=
| Rectangle (x y width height : float) (fill : string)
    (stroke : option string) (stroke_width : option float)
| Lines (points : list float) (fill : fill_value) (fill_opacity : option float)
    (stroke : string) (stroke_width : float) (close : bool)
| Line (points : list float) (fill : fill_value) (fill_opacity : float)
    (stroke : string) (stroke_width : float)
| Text (text : string) (font_size : Z) (font_family : string) (x y : float)
    (center : bool) (fill : string).

Record Drawing : Set := {
  drawing_width : float;
  drawing_height : float;
  drawing_origin : float * float;
  (** [set_render_size], both in centimetres *)
  render_size : option (float * float);
  drawing_elements : list element
}.

Definition is_text (e : element) : bool :=
  match e with Text _ _ _ _ _ _ _ => true | _ => false end.

(** The text drawing_elements of a drawing, in the order they were appended. *)
Definition texts (d : Drawing) : list element := filter is_text (drawing_elements d).

(** ** The [random] module

    The generator is a parameter: a state and the draws the program
    makes.  [random_sample n k] stands for [random.sample(population, k)]
    on a population of [n] items and yields the positions chosen. *)

Class Random : Type := {
  rng : Type;
  random_randint : Z -> Z -> rng -> Z * rng;
  random_randrange : Z -> rng -> Z * rng;
  random_uniform : float -> float -> rng -> float * rng;
  random_betavariate : float -> float -> rng -> float * rng;
  random_sample : nat -> nat -> rng -> list Z * rng
}.

Section Drawing.
Context `{Libm} `{Random}.
Context (BOARD_CONFIG : BoardConfig).

Local Open Scope py_scope.

(** What the drawing code mutates: the generator and the board. *)
Record World : Type := {
  random_state : rng;
  board : Drawing
}.

Definition draw_random {A} (f : rng -> A * rng) : SE World A :=
  fun w => let '(a, g) := f (random_state w) in
           Ok (a, {| random_state := g; board := board w |}).

(** [board.append(e)] *)
Definition board_append (e : element) : SE World unit :=
  modify (fun w =>
    {| random_state := random_state w;
       board := {| drawing_width := drawing_width (board w);
                   drawing_height := drawing_height (board w);
                   drawing_origin := drawing_origin (board w);
                   render_size := render_size (board w);
                   drawing_elements := drawing_elements (board w) ++ [e] |} |}).

(** [for i in range(n)], threading the loop-carried value. *)
Definition for_range {B} (n : nat) (body : nat -> B -> SE World B) (acc : B)
  : SE World B :=
  for_each (seq 0 n) body acc.

(** [while True: ...] whose body either breaks with a value or goes
    round again; [fuel] bounds the number of rounds. *)
Fixpoint while_true {A} (fuel : nat) (body : SE World (option A)) : SE World A :=
  match fuel with
  | O => fun _ => OutOfFuel
  | S fuel' =>
      r <- body ;;
      match r with
      | Some a => ret a
      | None => while_true fuel' body
      end
  end.

(** [[p[0], p[1]]] for each point: the flat coordinate list the library
    takes. *)
Definition flatten_points (ps : list TinyVector) : list float :=
  flat_map (fun p => [TinyVector.x p; TinyVector.y p]) ps.

(** [center + radius*cos(angle)*unit_x], then [+ radius*sin(angle)*unit_y]:
    the step every polygon loop of the program repeats. *)
Definition polar_vertex (center : TinyVector) (radius angle : float)
  : result TinyVector :=
  rbind (math_cos angle) (fun c =>
  let vertex := TinyVector.add center
                  (TinyVector.scale (unit_x BOARD_CONFIG) (radius * c)) in
  rbind (math_sin angle) (fun s =>
  Ok (TinyVector.add vertex
        (TinyVector.scale (unit_y BOARD_CONFIG) (radius * s))))).

(** [1 - BOARD_CONFIG.hexagon_padding/BOARD_CONFIG.hexagon_width] *)
Definition hexagon_scale : result float :=
  rbind (float_div (hexagon_padding BOARD_CONFIG) (hexagon_width BOARD_CONFIG))
    (fun q => Ok (1 - q)%float).

(** The common style of the decoration lines. *)
Definition outline (points : list float) : element :=
  Lines points FillNone (Some 0%float) (hexagon_line_color BOARD_CONFIG)
    (hexagon_line_width BOARD_CONFIG) true.
Definition segment (points : list float) : element :=
  Line points FillNone 0 (hexagon_line_color BOARD_CONFIG)
    (hexagon_line_width BOARD_CONFIG).

(** [draw_concentric_hexas] *)
Definition draw_concentric_hexas (hexagon_center : TinyVector)
    (hexagon_vertices : list TinyVector) (hexa_count : Z)
    (hexa_scale_min hexa_scale_max : float) : SE World unit :=
  hexagon_scale <- lift hexagon_scale ;;
  let hexagon_effective_side := (hexagon_scale * hexagon_side BOARD_CONFIG)%float in
  for_range (Z.to_nat (hexa_count + 1))
    (fun hexa_index _ =>
       s <- lift (float_div (fz (Z.of_nat hexa_index)) (fz hexa_count)) ;;
       let fs := libm_pow s 2 in
       let hexa_scale := (fs * hexa_scale_min + (1 - fs) * hexa_scale_max)%float in
       let hexa_side_count := 6%nat in
       let angle_shift := 0.5%float in
       hexa_vertices <-
         for_range hexa_side_count
           (fun vertex_index hexa_vertices =>
              let vertex_angle :=
                ((fz (Z.of_nat vertex_index) + angle_shift) * 2 * math_pi
                 / fz (Z.of_nat hexa_side_count))%float in
              hexa_vertex <- lift (polar_vertex hexagon_center
                                     (hexa_scale * hexagon_effective_side)
                                     vertex_angle) ;;
              ret (hexa_vertices ++ [hexa_vertex]))
           [] ;;
       board_append (outline (flatten_points hexa_vertices)))
    tt.

(** The end of each texture loop body: the clamped interval [[a, b]]
    around [t], the two segment ends on the chord, and the masking
    test. *)
Definition chord_segment (border_0 border_1 : TinyVector) (t u : float)
  : list TinyVector :=
  let a := min1 (max0 (t - u / 2)) in
  let b := min1 (max0 (t + u / 2)) in
  [ TinyVector.add (TinyVector.scale border_0 (1 - a)) (TinyVector.scale border_1 a);
    TinyVector.add (TinyVector.scale border_0 (1 - b)) (TinyVector.scale border_1 b) ].

Definition validated (hexagon_center : TinyVector) (masking_radius : float)
    (segment_edges : list TinyVector) : bool :=
  forallb (fun segment_edge =>
             negb (TinyVector.norm (TinyVector.sub segment_edge hexagon_center)
                   <? masking_radius)%float)
          segment_edges.

Definition break_or_retry (hexagon_center : TinyVector)
    (masking_radius : option float) (segment_edges : list TinyVector)
  : option (list TinyVector) :=
  match masking_radius with
  | None => Some segment_edges
  | Some radius =>
      if validated hexagon_center radius segment_edges
      then Some segment_edges else None
  end.

(** [(1 - p)*vertices[0] + p*vertices[1]] *)
Definition between (v0 v1 : TinyVector) (p : float) : TinyVector :=
  TinyVector.add (TinyVector.scale v0 (1 - p)) (TinyVector.scale v1 p).

(** [draw_concentrated_texture] *)
Definition draw_concentrated_texture (fuel : nat) (hexagon_center : TinyVector)
    (hexagon_vertices : list TinyVector) (segment_count : nat)
    (masking_radius : option float) : SE World unit :=
  v0 <- lift (getitem hexagon_vertices 0) ;;
  let hexagon_side := TinyVector.norm (TinyVector.sub v0 hexagon_center) in
  for_range segment_count
    (fun _ _ =>
       segment_edges <-
         while_true fuel
           (vertex_index <- draw_random (random_randint 0 5) ;;
            va <- lift (getitem hexagon_vertices vertex_index) ;;
            vb <- lift (getitem hexagon_vertices ((vertex_index + 1) mod 6)) ;;
            p <- draw_random (random_uniform 0 1) ;;
            let border_0 := between va vb p in
            let vertex_index := ((vertex_index + 3) mod 6)%Z in
            va <- lift (getitem hexagon_vertices vertex_index) ;;
            vb <- lift (getitem hexagon_vertices ((vertex_index + 1) mod 6)) ;;
            p <- draw_random (random_uniform 0 1) ;;
            let border_1 := between va vb p in
            let border_side := TinyVector.norm (TinyVector.sub border_1 border_0) in
            let alpha := 0.15%float in
            let beta := alpha in
            t <- draw_random (random_betavariate alpha beta) ;;
            r <- draw_random (random_uniform 0.01 0.06) ;;
            u <- lift (float_div (r * hexagon_side) border_side) ;;
            ret (break_or_retry hexagon_center masking_radius
                   (chord_segment border_0 border_1 t u))) ;;
       board_append (segment (flatten_points segment_edges)))
    tt.

(** [random.sample(population, 2)] followed by the two subscripts. *)
Definition sample_two (population : list TinyVector)
  : SE World (TinyVector * TinyVector) :=
  if (length population <? 2)%nat then raise ValueError
  else
    picks <- draw_random (random_sample (length population) 2) ;;
    i0 <- lift (getitem picks 0) ;;
    i1 <- lift (getitem picks 1) ;;
    v0 <- lift (getitem population i0) ;;
    v1 <- lift (getitem population i1) ;;
    ret (v0, v1).

(** [draw_uniform_texture] *)
Definition draw_uniform_texture (fuel : nat) (hexagon_center : TinyVector)
    (hexagon_vertices : list TinyVector) (segment_count : nat)
    (masking_radius : option float) : SE World unit :=
  v0 <- lift (getitem hexagon_vertices 0) ;;
  let hexagon_side := TinyVector.norm (TinyVector.sub v0 hexagon_center) in
  for_range segment_count
    (fun _ _ =>
       segment_edges <-
         while_true fuel
           (border_points <-
              for_range 2
                (fun _ border_points =>
                   '(va, vb) <- sample_two hexagon_vertices ;;
                   p <- draw_random (random_uniform 0 1) ;;
                   ret (border_points ++ [between va vb p]))
                [] ;;
            border_0 <- lift (getitem border_points 0) ;;
            border_1 <- lift (getitem border_points 1) ;;
            let border_side := TinyVector.norm (TinyVector.sub border_1 border_0) in
            t <- draw_random (random_uniform 0 1) ;;
            r <- draw_random (random_uniform 0.01 0.08) ;;
            u <- lift (float_div (r * hexagon_side) border_side) ;;
            ret (break_or_retry hexagon_center masking_radius
                   (chord_segment border_0 border_1 t u))) ;;
       board_append (segment (flatten_points segment_edges)))
    tt.

(** [draw_gradient_texture] (the branch taken of its [if False / elif
    False / elif True] is the beta distribution). *)
Definition draw_gradient_texture (hexagon_center : TinyVector)
    (hexagon_vertices : list TinyVector) (segment_count : nat) : SE World unit :=
  for_range segment_count
    (fun _ _ =>
       vertex_index_1 <- draw_random (random_randrange 6) ;;
       let vertex_index_2 := ((vertex_index_1 + 1) mod 6)%Z in
       vertex_1 <- lift (getitem hexagon_vertices vertex_index_1) ;;
       vertex_2 <- lift (getitem hexagon_vertices vertex_index_2) ;;
       p <- draw_random (random_uniform 0 1) ;;
       let border_0 :=
         TinyVector.add (TinyVector.scale vertex_1 p)
                        (TinyVector.scale vertex_2 (1 - p)) in
       let border_1 := hexagon_center in
       let alpha := 0.50%float in
       let beta := 5%float in
       t <- draw_random (random_betavariate alpha beta) ;;
       width <- draw_random (random_uniform 0.02 0.02) ;;
       let a := min1 (max0 (t - width / 2)) in
       let b := min1 (max0 (t + width / 2)) in
       let segment_edges :=
         [ TinyVector.add border_0
             (TinyVector.scale (TinyVector.sub border_1 border_0) a);
           TinyVector.add border_0
             (TinyVector.scale (TinyVector.sub border_1 border_0) b) ] in
       board_append (segment (flatten_points segment_edges)))
    tt.

(** The keyword arguments of [draw_board]. *)
Record DrawOptions : Set := {
  scale_factor : float;
  with_all_labels : bool;
  without_labels : bool;
  with_decoration : bool;
  do_rendering : bool;
  with_gradient : bool;
  with_opacity : bool;
  with_texture : bool;
  with_concentrated_texture : bool;
  with_concentric_hexas : bool
}.

(** The variables of [draw_board] that outlive one round of its loop
    over the cells: [None] while the name is still unbound. *)
Record LoopLocals : Set := {
  hexagon_center : option TinyVector;
  label_location : option (option TinyVector)
}.

Definition read_local {A} (v : option A) : SE World A :=
  match v with
  | Some a => ret a
  | None => raise UnboundLocalError
  end.

(** The cells whose even-ring polygon has 14 sides. *)
Definition special_names : list string :=
  ["g1"; "g6"; "a1"; "a6"; "e1"; "e3"; "e6"; "e8"; "c1"; "c3"; "c6"; "c8"; "d4"].

(** The small hexagon built on one edge of the decorative polygon. *)
Definition rotating_polygon (vertex_1 vertex_2 : TinyVector)
  : SE World (list TinyVector) :=
  let rotating_polygon_side_count := 6%nat in
  '(vertices, _) <-
    for_range rotating_polygon_side_count
      (fun rotating_polygon_side_index '(vertices, vector) =>
         '(vertices, vector) <-
           (if (rotating_polygon_side_index =? 0)%nat
            then ret (vertices ++ [vertex_1], TinyVector.sub vertex_2 vertex_1)
            else
              vector <- lift (make_rotation vector
                                (- 2 * math_pi
                                 / fz (Z.of_nat rotating_polygon_side_count))) ;;
              ret (vertices, vector)) ;;
         previous <- lift (getitem vertices (Z.of_nat rotating_polygon_side_index)) ;;
         ret (vertices ++ [TinyVector.add previous vector], vector))
      ([], TinyVector.zero) ;;
  first <- lift (getitem vertices 0) ;;
  ret (vertices ++ [first]).

(** The decoration of a cell on an odd ring. *)
Definition decorate_odd (fuel : nat) (opts : DrawOptions)
    (hexagon_center : option TinyVector) (hexagon_vertices : list TinyVector)
  : SE World unit :=
  hexagon_center <- read_local hexagon_center ;;
  if with_concentric_hexas opts then
    draw_concentric_hexas hexagon_center hexagon_vertices 12 (1 / 4) 1
  else if with_concentrated_texture opts then
    draw_concentrated_texture fuel hexagon_center hexagon_vertices 600 None
  else if with_texture opts then
    draw_gradient_texture hexagon_center hexagon_vertices 800
  else
    draw_uniform_texture fuel hexagon_center hexagon_vertices 500 None.

(** The decoration of a cell on an even ring. *)
Definition decorate_even (fuel : nat) (opts : DrawOptions)
    (abstract_hexagon : Hexagon)
    (hexagon_center : option TinyVector) (hexagon_vertices : list TinyVector)
  : SE World unit :=
  let decorater_polygon_1_side_count :=
    if bool_decide (name abstract_hexagon ∈ special_names) then 14%nat else 12%nat in
  let decorater_polygon_1_scale := 0.70%float in
  decorater_polygon_1_vertices <-
    for_range decorater_polygon_1_side_count
      (fun vertex_index vertices =>
         let vertex_angle :=
           (fz (Z.of_nat vertex_index * 2) * math_pi
            / fz (Z.of_nat decorater_polygon_1_side_count))%float in
         vertex <- lift (polar_vertex (center abstract_hexagon)
                           (decorater_polygon_1_scale * hexagon_side BOARD_CONFIG)
                           vertex_angle) ;;
         ret (vertices ++ [vertex]))
      [] ;;
  _ <- board_append (outline (flatten_points decorater_polygon_1_vertices)) ;;
  first <- lift (getitem decorater_polygon_1_vertices 0) ;;
  _ <- for_each
         (zip decorater_polygon_1_vertices
              (drop 1 decorater_polygon_1_vertices ++ [first]))
         (fun '(vertex_1, vertex_2) _ =>
            rotating_polygon_vertices <- rotating_polygon vertex_1 vertex_2 ;;
            board_append (outline (flatten_points rotating_polygon_vertices)))
         tt ;;
  let decorater_circle_scale := 0.75%float in
  let decorater_circle_radius :=
    (decorater_circle_scale * hexagon_side BOARD_CONFIG)%float in
  _ <- (if with_concentric_hexas opts then
          hexagon_center <- read_local hexagon_center ;;
          draw_concentric_hexas hexagon_center hexagon_vertices 1 0.93 1.00
        else ret tt) ;;
  _ <- (if with_concentrated_texture opts then
          hexagon_center <- read_local hexagon_center ;;
          draw_concentrated_texture fuel hexagon_center hexagon_vertices 500
            (Some decorater_circle_radius)
        else ret tt) ;;
  if with_texture opts then
    hexagon_center <- read_local hexagon_center ;;
    _ <- draw_uniform_texture fuel hexagon_center hexagon_vertices 1500
           (Some decorater_circle_radius) ;;
    draw_gradient_texture hexagon_center hexagon_vertices 500
  else ret tt.

(** The polygon of a cell: the gradient-filled or the flat variant. *)
Definition hexagon_polygon (opts : DrawOptions) (abstract_hexagon : Hexagon)
    (hexagon_scale : float) (hexagon_vertex_data : list float) : element :=
  let hexagon_opacity :=
    (hexagon_opacity BOARD_CONFIG
     * (if (ring abstract_hexagon mod 2 =? 0)%Z then 1 else 0.5))%float in
  if with_gradient opts then
    let hexagon_gradient :=
      {| gradient_cx := TinyVector.x (center abstract_hexagon);
         gradient_cy := TinyVector.y (center abstract_hexagon);
         gradient_r := (hexagon_scale * hexagon_side BOARD_CONFIG)%float;
         gradient_stops :=
           [ {| stop_offset := 0; stop_color := COLOR_TO_ENGRAVE;
                stop_opacity := (hexagon_opacity * 0.00)%float |};
             {| stop_offset := 1; stop_color := COLOR_TO_ENGRAVE;
                stop_opacity := (hexagon_opacity * 1.00)%float |} ] |} in
    Lines hexagon_vertex_data (FillGradient hexagon_gradient) None
      (hexagon_line_color BOARD_CONFIG) (hexagon_line_width BOARD_CONFIG) true
  else
    Lines hexagon_vertex_data
      (if (ring abstract_hexagon mod 2 =? 1)%Z then FillNone else FillColor "black")
      (Some (if with_opacity opts then (hexagon_opacity * 0.5)%float else 0%float))
      (hexagon_line_color BOARD_CONFIG)
      (hexagon_line_width BOARD_CONFIG * 2)%float true.

(** The label branch at the end of the loop body: the new value of the
    variable [label_location], which keeps its previous binding when no
    assignment is reached. *)
Definition next_label_location (opts : DrawOptions) (abstract_hexagon : Hexagon)
    (previous : option (option TinyVector)) : option (option TinyVector) :=
  if without_labels opts then Some None
  else if with_all_labels opts then
    Some (Some (TinyVector.add (center abstract_hexagon)
                               (label_vertical_shift BOARD_CONFIG)))
  else
    match label_side abstract_hexagon with
    | LabelNone => previous
    | LabelSide WEST =>
        Some (Some (TinyVector.sub (center abstract_hexagon)
                                   (label_horizontal_shift BOARD_CONFIG)))
    | LabelSide EAST =>
        Some (Some (TinyVector.add (center abstract_hexagon)
                                   (label_horizontal_shift BOARD_CONFIG)))
    | _ => Some None
    end.

(** The text element of a cell's label. *)
Definition label_text (abstract_hexagon : Hexagon) (location : TinyVector)
  : element :=
  Text (name abstract_hexagon) (label_font_size BOARD_CONFIG)
    (label_font_family BOARD_CONFIG)
    (TinyVector.x location) (TinyVector.y location) true
    (label_color BOARD_CONFIG).

(** One round of the loop [for abstract_hexagon in Hexagon.all]. *)
Definition draw_hexagon (fuel : nat) (opts : DrawOptions)
    (abstract_hexagon : Hexagon) (locals : LoopLocals) : SE World LoopLocals :=
  hexagon_scale <- lift hexagon_scale ;;
  '(hexagon_vertices, hexagon_center) <-
    for_range (hexagon_vertex_count BOARD_CONFIG)
      (fun vertex_index '(hexagon_vertices, _) =>
         let vertex_angle :=
           ((1 / 2 + fz (Z.of_nat vertex_index))
            * hexagon_side_angle BOARD_CONFIG)%float in
         let hexagon_center := center abstract_hexagon in
         hexagon_vertex <- lift (polar_vertex hexagon_center
                                   (hexagon_scale * hexagon_side BOARD_CONFIG)
                                   vertex_angle) ;;
         ret (hexagon_vertices ++ [hexagon_vertex], Some hexagon_center))
      ([], hexagon_center locals) ;;
  _ <- board_append (hexagon_polygon opts abstract_hexagon hexagon_scale
                       (flatten_points hexagon_vertices)) ;;
  _ <- (if with_decoration opts && (ring abstract_hexagon mod 2 =? 1)%Z
        then decorate_odd fuel opts hexagon_center hexagon_vertices
        else ret tt) ;;
  _ <- (if with_decoration opts && (ring abstract_hexagon mod 2 =? 0)%Z
        then decorate_even fuel opts abstract_hexagon hexagon_center hexagon_vertices
        else ret tt) ;;
  let label_location :=
    next_label_location opts abstract_hexagon (label_location locals) in
  location <- read_local label_location ;;
  _ <- match location with
       | Some location => board_append (label_text abstract_hexagon location)
       | None => ret tt
       end ;;
  ret {| hexagon_center := hexagon_center; label_location := label_location |}.

(** The outer rectangle. *)
Definition outer_rectangle (opts : DrawOptions) : element :=
  let w := board_width BOARD_CONFIG in
  let h := board_height BOARD_CONFIG in
  if do_rendering opts then
    Rectangle (- w / 2) (- h / 2) w h (board_color BOARD_CONFIG) None None
  else
    let m := board_cut_margin BOARD_CONFIG in
    Rectangle (- w / 2 + m) (- h / 2 + m) (w - 2 * m) (h - 2 * m) "white"
      (Some COLOR_TO_CUT_1) (Some (line_width_max_to_cut BOARD_CONFIG)).

(** [draw_board]: the drawing that is handed to [save_svg] and
    [save_png].  The file name and the two writes are not modelled.
    [cls] is the [Hexagon] class at the time of the call; an [all] that
    is still [None] cannot be iterated. *)
Definition draw_board (fuel : nat) (opts : DrawOptions) (cls : HexagonClass)
  : SE World unit :=
  _ <- modify (fun w =>
         {| random_state := random_state w;
            board :=
              {| drawing_width := board_width BOARD_CONFIG;
                 drawing_height := board_height BOARD_CONFIG;
                 drawing_origin := ((- board_width BOARD_CONFIG / 2)%float,
                                    (- board_height BOARD_CONFIG / 2)%float);
                 render_size :=
                   Some ((scale_factor opts * board_width_cm BOARD_CONFIG)%float,
                         (scale_factor opts * board_height_cm BOARD_CONFIG)%float);
                 drawing_elements := [] |} |}) ;;
  _ <- board_append (outer_rectangle opts) ;;
  match all_cells cls with
  | None => raise TypeError
  | Some cells =>
      _ <- for_each cells (draw_hexagon fuel opts)
             {| hexagon_center := None; label_location := None |} ;;
      ret tt
  end.

End Drawing.

(** ** Vocabulary of the properties *)

(** The class after the module-level [Hexagon.init()] ([init_returns]
    below shows that the call returns this state). *)
Definition initialized (cfg : BoardConfig) : HexagonClass :=
  default class_body (state_after (init cfg) class_body).

(** [(|u| + |v| + |u+v|) / 2] *)
Definition hex_norm (p : Z * Z) : Z :=
  ((Z.abs (fst p) + Z.abs (snd p) + Z.abs (fst p + snd p)) / 2)%Z.

(** The neighbour steps [(delta_u[i], delta_v[i])] of the class. *)
Definition neighbor_steps (cls : HexagonClass) : list (Z * Z) :=
  zip (default [] (__delta_u cls)) (default [] (__delta_v cls)).

(** The six neighbour steps of the axial lattice. *)
Definition six_steps : list (Z * Z) :=
  [(1, 0); (1, -1); (0, -1); (-1, 0); (-1, 1); (0, 1)]%Z.

(** A walk of [n] steps on the axial lattice. *)
Inductive walk (steps : list (Z * Z)) : nat -> Z * Z -> Z * Z -> Prop :=
| walk_here p : walk steps 0 p p
| walk_more n p q d :
    walk steps n p q -> d ∈ steps ->
    walk steps (S n) p (fst q + fst d, snd q + snd d)%Z.

(** [n] is the graph distance between [p] and [q]: some walk has [n]
    steps and none has fewer. *)
Definition graph_distance (steps : list (Z * Z)) (p q : Z * Z) (n : nat) : Prop :=
  walk steps n p q /\ forall k, walk steps k p q -> n <= k.

(** The distinct ring values of a list of cells, and the number of cells
    on a ring. *)
Definition ring_values (cells : list Hexagon) : gset Z :=
  list_to_set (map ring cells).
Definition ring_count (cells : list Hexagon) (r : Z) : nat :=
  length (filter (fun h => ring h = r) cells).

(** The catalog as a reader sees it: the cells of [get_all()] in order,
    and the cell behind every name and every position. *)
Definition named_cells (cls : HexagonClass) : gmap string Hexagon :=
  omap (fun a => instances cls !! a) (__name_to_hexagon cls).
Definition positioned_cells (cls : HexagonClass) : gmap (Z * Z) Hexagon :=
  omap (fun a => instances cls !! a) (__position_uv_to_hexagon cls).

Record Catalog : Type := {
  catalog_cells : list Hexagon;
  catalog_by_name : gmap string Hexagon;
  catalog_by_position : gmap (Z * Z) Hexagon
}.

Definition catalog (cls : HexagonClass) : Catalog :=
  {| catalog_cells := get_all_cells cls;
     catalog_by_name := named_cells cls;
     catalog_by_position := positioned_cells cls |}.

(** The states the public interface of the class can produce: the
    constructor, [init] and [reset], from the class body on. *)
Inductive reachable (cfg : BoardConfig) : HexagonClass -> Prop :=
| reach_class_body : reachable cfg class_body
| reach_new cls name position_uv ring label_side a cls' :
    reachable cfg cls ->
    Hexagon__init__ cfg name position_uv ring label_side cls = Ok (a, cls') ->
    reachable cfg cls'
| reach_init cls cls' :
    reachable cfg cls -> init cfg cls = Ok (tt, cls') -> reachable cfg cls'
| reach_reset cls cls' :
    reachable cfg cls -> reset cls = Ok (tt, cls') -> reachable cfg cls'.

(** The two tables bind the same instance: a name and the position of
    the instance it leads to, a position and the name of its instance. *)
Definition tables_agree (cls : HexagonClass) : Prop :=
  (forall n a, __name_to_hexagon cls !! n = Some a ->
     exists h, instances cls !! a = Some h /\ name h = n /\
               __position_uv_to_hexagon cls !! position_uv h = Some a) /\
  (forall p a, __position_uv_to_hexagon cls !! p = Some a ->
     exists h, instances cls !! a = Some h /\ position_uv h = p /\
               __name_to_hexagon cls !! name h = Some a).

(** Partial-correctness triples for the state-and-exception monad, and
    the guarantee that a run returns. *)
Definition triple {S A} (P : S -> Prop) (m : SE S A) (Q : A -> S -> Prop)
  : Prop :=
  forall s a s', P s -> m s = Ok (a, s') -> Q a s'.

Definition returns {S A} (P : S -> Prop) (m : SE S A) (Q : A -> S -> Prop)
  : Prop :=
  forall s, P s -> exists a s', m s = Ok (a, s') /\ Q a s'.




(** A piece of drawing code that leaves the text elements of the board
    as they are. *)
Definition keeps_texts `{Random} {A} (m : SE World A) : Prop :=
  forall t, triple (fun w => texts (board w) = t) m
                   (fun _ w => texts (board w) = t).

(** No condition on the world. *)
Definition anything `{Random} (w : World) : Prop := True.

(** The text a round of the loop appends, given the value the variable
    [label_location] has at its end. *)
Definition emitted_label (cfg : BoardConfig) (h : Hexagon)
    (location : option (option TinyVector)) : list element :=
  match location with
  | Some (Some l) => [label_text cfg h l]
  | _ => []
  end.

(** The texts of the whole loop, following [label_location] from round
    to round. *)
Fixpoint loop_labels (cfg : BoardConfig) (opts : DrawOptions)
    (previous : option (option TinyVector)) (cells : list Hexagon)
  : list element :=
  match cells with
  | [] => []
  | h :: rest =>
      let location := next_label_location cfg opts h previous in
      emitted_label cfg h location ++ loop_labels cfg opts location rest
  end.

(** A configuration on which the cell polygons can be computed: the
    division by [hexagon_width] and the calls of [cos] and [sin] on the
    vertex angles do not raise. *)
Definition polygon_ready (cfg : BoardConfig) : bool :=
  negb (hexagon_width cfg =? 0)%float
  && forallb (fun i => negb (is_infinity
                ((1 / 2 + fz (Z.of_nat i)) * hexagon_side_angle cfg)%float))
       (seq 0 (hexagon_vertex_count cfg)).

(** *** A C library and a generator to evaluate with

    Stand-ins for the parameters: truncated power series for [cos] and
    [sin], and a linear congruential generator.  They serve to run the
    model on concrete inputs; no theorem depends on them. *)

Definition series_cos (a : float) : float :=
  let a2 := (a * a)%float in
  (1 - a2 / 2 * (1 - a2 / 12 * (1 - a2 / 30 * (1 - a2 / 56 * (1 - a2 / 90)))))%float.
Definition series_sin (a : float) : float :=
  let a2 := (a * a)%float in
  (a * (1 - a2 / 6 * (1 - a2 / 20 * (1 - a2 / 42 * (1 - a2 / 72 * (1 - a2 / 110))))))%float.

Definition series_libm : Libm :=
  {| libm_cos := series_cos;
     libm_sin := series_sin;
     libm_pow := fun a b => if (b =? 2)%float then (a * a)%float else nan |}.

Definition lcg_next (s : Z) : Z :=
  ((s * 6364136223846793005 + 1442695040888963407) mod 2 ^ 64)%Z.
Definition lcg_unit (s : Z) : float :=
  (fz (s / 2 ^ 11) / fz (2 ^ 53))%float.

Definition lcg_random : Random :=
  {| rng := Z;
     random_randint := fun a b s =>
       let s' := lcg_next s in ((a + (s' / 2 ^ 32) mod (b - a + 1))%Z, s');
     random_randrange := fun n s =>
       let s' := lcg_next s in (((s' / 2 ^ 32) mod n)%Z, s');
     random_uniform := fun a b s =>
       let s' := lcg_next s in ((a + (b - a) * lcg_unit s')%float, s');
     random_betavariate := fun _ _ s =>
       let s' := lcg_next s in (lcg_unit s', s');
     random_sample := fun n k s =>
       let s' := lcg_next s in
       let i := ((s' / 2 ^ 32) mod Z.of_nat n)%Z in
       let j := ((i + 1 + (s' / 2 ^ 40) mod (Z.of_nat n - 1)) mod Z.of_nat n)%Z in
       (take k [i; j], s') |}.

(** The board configuration computed with the stand-in C library. *)
Definition series_config : BoardConfig :=
  match @make_board_config series_libm with
  | Ok cfg => cfg
  | _ =>
      {| board_width_cm := 0; board_height_cm := 0; board_width := 0;
         board_height := 0; board_cut_margin := 0; line_width_max_to_cut := 0;
         line_width_min_to_engrave := 0; board_color := ""; hexagon_width := 0;
         hexagon_side := 0; hexagon_height := 0; hexagon_padding := 0;
         hexagon_line_width := 0; hexagon_line_color := ""; hexagon_opacity := 0;
         hexagon_vertex_count := 0; hexagon_side_angle := 0;
         origin := TinyVector.zero; unit_x := TinyVector.zero;
         unit_y := TinyVector.zero; unit_u := TinyVector.zero;
         unit_v := TinyVector.zero; label_color := ""; label_font_family := "";
         label_font_size := 0; label_vertical_shift := TinyVector.zero;
         label_horizontal_shift := TinyVector.zero |}
  end.

(** [draw_board(scale_factor=5., with_all_labels=False,
    with_decoration=True)], the call of [main], and the defaults. *)
Definition default_options : DrawOptions :=
  {| scale_factor := 1; with_all_labels := false; without_labels := false;
     with_decoration := false; do_rendering := true; with_gradient := true;
     with_opacity := true; with_texture := false;
     with_concentrated_texture := false; with_concentric_hexas := false |}.

Definition main_options : DrawOptions :=
  {| scale_factor := 5; with_all_labels := false; without_labels := false;
     with_decoration := true; do_rendering := true; with_gradient := true;
     with_opacity := true; with_texture := false;
     with_concentrated_texture := false; with_concentric_hexas := false |}.

(** An empty world to start a drawing from. *)
Definition blank_world `{Random} (seed : rng) : World :=
  {| random_state := seed;
     board := {| drawing_width := 0; drawing_height := 0;
                 drawing_origin := (0%float, 0%float);
                 render_size := None; drawing_elements := [] |} |}.



(** The world a run leaves when it returns (the start otherwise). *)
Definition world_after `{Random} (m : SE World unit) (w : World) : World :=
  match m w with Ok (_, w') => w' | _ => w end.

Definition series_start : @World lcg_random := @blank_world lcg_random 20240822%Z.

(** ** Further vocabulary *)

(** A run that raises the given exception from every state satisfying a
    condition. *)
Definition raises {S A} (P : S -> Prop) (m : SE S A) (e : exn) : Prop :=
  forall s, P s -> m s = Raise e.

(** A class whose only cell has [label_side=None]: the constructor call
    followed by the construction of the sorted list. *)
Definition unlabelled_class : HexagonClass :=
  default class_body
    (state_after
       (bind (Hexagon__init__ series_config "z9" (9, 9)%Z 9 LabelNone)
             (fun _ => __create_all_sorted_hexagons))
       class_body).

(** A class with a west-labelled cell followed by an unlabelled one. *)
Definition half_labelled_class : HexagonClass :=
  default class_body
    (state_after
       (bind (Hexagon__init__ series_config "y1" (8, 8)%Z 8 (LabelSide WEST))
          (fun _ =>
             bind (Hexagon__init__ series_config "z9" (9, 9)%Z 9 LabelNone)
               (fun _ => __create_all_sorted_hexagons)))
       class_body).

(** The default drawing of [half_labelled_class] with the stand-ins. *)
Definition half_labelled_run : SE (@World lcg_random) unit :=
  @draw_board series_libm lcg_random series_config 10 default_options
    half_labelled_class.
Definition half_labelled_world : @World lcg_random :=
  @world_after lcg_random half_labelled_run series_start.

(** What a piece of drawing code appends to the board: when it returns,
    the board holds what it held, followed by elements that satisfy [Q]
    together with the value returned. *)
Definition appends `{Random} {A} (m : SE World A)
    (Q : A -> list element -> Prop) : Prop :=
  forall base,
    triple (fun w => drawing_elements (board w) = base) m
      (fun a w' => exists extra,
         drawing_elements (board w') = base ++ extra /\ Q a extra).

(** The number of coordinates of a polygon or of a segment. *)
Definition coordinates (e : element) : nat :=
  match e with
  | Lines points _ _ _ _ _ => length points
  | Line points _ _ _ _ => length points
  | _ => 0
  end.

(** A decoration segment between two points that both keep the masking
    distance from the center. *)
Definition clear_segment (cfg : BoardConfig) (hexagon_center : TinyVector)
    (masking_radius : option float) (e : element) : Prop :=
  exists p q,
    e = segment cfg (flatten_points [p; q]) /\
    match masking_radius with
    | None => True
    | Some radius =>
        (TinyVector.norm (TinyVector.sub p hexagon_center) <? radius)%float = false /\
        (TinyVector.norm (TinyVector.sub q hexagon_center) <? radius)%float = false
    end.

(** Drawing code that appends nothing. *)
Definition quiet `{Random} {A} (m : SE World A) : Prop :=
  appends m (fun _ extra => extra = []).

(** A hexagon of vertices to run the textures on, and a run of the
    masked uniform texture with the stand-in generator. *)
Definition sample_vertices : list TinyVector :=
  [ TinyVector.mk 100 0; TinyVector.mk 50 87; TinyVector.mk (-50) 87;
    TinyVector.mk (-100) 0; TinyVector.mk (-50) (-87); TinyVector.mk 50 (-87) ].

Definition masked_texture_run : SE (@World lcg_random) unit :=
  @draw_uniform_texture lcg_random series_config 50 TinyVector.zero
    sample_vertices 3 (Some 20%float).
Definition masked_texture_world : @World lcg_random :=
  @world_after lcg_random masked_texture_run series_start.

Definition gradient_texture_run : SE (@World lcg_random) unit :=
  @draw_gradient_texture lcg_random series_config TinyVector.zero
    sample_vertices 5.

(** A random source whose [randrange(n)] stays in [range(n)], as the
    [random] module's does. *)
Definition randrange_in_range `{Random} (n : Z) : Prop :=
  forall g, (0 <= fst (random_randrange n g) < n)%Z.

(** Drawing code that returns from every world, having appended
    elements that satisfy [Q] together with the value returned, and
    nothing else. *)
Definition draws `{Random} {A} (m : SE World A)
    (Q : A -> list element -> Prop) : Prop :=
  forall w, exists a w' extra,
    m w = Ok (a, w') /\
    drawing_elements (board w') = drawing_elements (board w) ++ extra /\
    Q a extra.

(** A closed outline of the given number of vertices. *)
Definition outline_of (vertices : nat) (e : element) : Prop :=
  is_text e = false /\ coordinates e = 2 * vertices.

(** The elements of a drawing that are not texts. *)
Definition shapes (es : list element) : list element :=
  filter (fun e => negb (is_text e)) es.

(** The label of a cell of the initialized catalog, which does not
    depend on the cells before it. *)
Definition cell_label (cfg : BoardConfig) (opts : DrawOptions) (h : Hexagon)
  : list element :=
  emitted_label cfg h (next_label_location cfg opts h None).






(** The class with another store of instances and of list objects, its
    attributes unchanged. *)
Definition with_store (insts : list Hexagon) (lists : list (list addr))
    (cls : HexagonClass) : HexagonClass :=
  {| instances := insts;
     list_objects := lists;
     __all_sorted_hexagons := __all_sorted_hexagons cls;
     __init_done := __init_done cls;
     __layout := __layout cls;
     __name_to_hexagon := __name_to_hexagon cls;
     __position_uv_to_hexagon := __position_uv_to_hexagon cls;
     all := all cls;
     __delta_u := __delta_u cls;
     __delta_v := __delta_v cls |}.

(** The instance a constructor call builds, once its center is
    computed. *)
Definition new_cell (n : string) (p : Z * Z) (r : Z) (l : label_value)
    (c : TinyVector) : Hexagon :=
  {| name := n; position_uv := p; ring := r; label_side := l;
     index := None; center := c |}.

(** Two classes in which every name and every position lead to equal
    cells, whatever the addresses. *)
Definition same_cells (s t : HexagonClass) : Prop :=
  named_cells s = named_cells t /\ positioned_cells s = positioned_cells t.

(** Two classes with the same store, the same tables and the same list
    attributes. *)
Definition same_registry (s t : HexagonClass) : Prop :=
  instances t = instances s /\ list_objects t = list_objects s /\
  __all_sorted_hexagons t = __all_sorted_hexagons s /\
  __name_to_hexagon t = __name_to_hexagon s /\
  __position_uv_to_hexagon t = __position_uv_to_hexagon s /\
  all t = all s.

(** A class with two cells, constructed in decreasing order of their
    names, and not yet listed. *)
Definition two_cells_class : HexagonClass :=
  default class_body
    (state_after
       (bind (Hexagon__init__ series_config "z9" (9, 9)%Z 9 LabelNone)
          (fun _ =>
             Hexagon__init__ series_config "y1" (8, 8)%Z 8 (LabelSide WEST)))
       class_body).

(** The axial positions of the cells a row of the layout names, and the
    positions of [count] cells in a row running east from [(u, v)]. *)
Definition row_positions (cls : HexagonClass) (row : Z * list string)
  : list (option (Z * Z)) :=
  map (fun n => position_uv <$> cell_by_name cls n) (snd row).
Definition run_east (u v : Z) (count : nat) : list (option (Z * Z)) :=
  map (fun i => Some ((u + Z.of_nat i)%Z, v)) (seq 0 count).

(** [TinyVector.inner] as written, over any scalar type with the
    operations it uses, and over the reals. *)
Definition inner_over {K : Type} (kmul kadd : K -> K -> K) (that other : K * K)
  : K :=
  kadd (kmul (fst that) (fst other)) (kmul (snd that) (snd other)).

(** The number of shapes the decoration of a cell consists of, for each
    combination of the switches of [draw_board]: on an odd ring one
    texture, the first that is switched on; on an even ring the
    decorative polygon, one small hexagon per side of it, and every
    texture that is switched on. *)
Definition odd_decoration_count (opts : DrawOptions) : nat :=
  if with_concentric_hexas opts then 13
  else if with_concentrated_texture opts then 600
  else if with_texture opts then 800
  else 500.
Definition even_decoration_count (opts : DrawOptions) (h : Hexagon) : nat :=
  1 + (if bool_decide (name h ∈ special_names) then 14 else 12)
  + (if with_concentric_hexas opts then 2 else 0)
  + (if with_concentrated_texture opts then 500 else 0)
  + (if with_texture opts then 1500 + 500 else 0).
Definition decoration_count (opts : DrawOptions) (h : Hexagon) : nat :=
  if negb (with_decoration opts) then 0
  else if (ring h mod 2 =? 1)%Z then odd_decoration_count opts
  else even_decoration_count opts h.

(** What a round of the loop of [draw_board] appends for a cell: the
    polygon of the cell, the shapes of its decoration, then its label
    if it has one. *)
Definition drawn_cell (cfg : BoardConfig) (opts : DrawOptions) (h : Hexagon)
    (chunk : list element) : Prop :=
  exists polygon decoration,
    chunk = polygon :: decoration ++ cell_label cfg opts h /\
    outline_of (hexagon_vertex_count cfg) polygon /\
    Forall (fun e => is_text e = false) decoration /\
    length decoration = decoration_count opts h.

(** A class of two listed cells, one on an odd ring and one on an even
    ring, with the default [label_side] of the catalog, and the drawing
    of it as [main] asks for the board. *)
Definition pair_class : HexagonClass :=
  default class_body
    (state_after
       (bind (Hexagon__init__ series_config "c4" (0, -1)%Z 1 (LabelInt 0))
          (fun _ =>
             bind (Hexagon__init__ series_config "d4" (0, 0)%Z 0 (LabelInt 0))
               (fun _ => __create_all_sorted_hexagons)))
       class_body).
Definition pair_run : SE (@World lcg_random) unit :=
  @draw_board series_libm lcg_random series_config 10 main_options pair_class.
Definition pair_world : @World lcg_random :=
  @world_after lcg_random pair_run series_start.
(** * Properties *)

(** ** Running the model on concrete inputs *)

Example float_of_int_3 : float_of_int 3 = Ok 3%float.
Proof. reflexivity. Qed.

Example float_of_int_huge : float_of_int (10 ^ 400) = Raise OverflowError.
Proof. vm_compute. reflexivity. Qed.

Example int_of_float_truncates :
  int_of_float (-3.7)%float = Ok (-3)%Z /\ int_of_float 90.96%float = Ok 90%Z.
Proof. split; vm_compute; reflexivity. Qed.

Example make_board_config_returns :
  @make_board_config series_libm = Ok series_config.
Proof. vm_compute. reflexivity. Qed.

Example label_font_size_is_90 : label_font_size series_config = 90%Z.
Proof. vm_compute. reflexivity. Qed.

Example getitem_negative : getitem [10; 20; 30]%Z (-1) = Ok 30%Z.
Proof. reflexivity. Qed.

(** ** [TinyVector] *)

Section TinyVectorFacts.
Import TinyVector.

Lemma is_int_or_float_to_float o :
  is_int_or_float o = true ->
  (exists f, to_float o = Ok f) \/ to_float o = Raise OverflowError.
Proof.
  destruct o as [ | b | z | f | s | s | v]; simpl; try discriminate; intros _.
  - destruct b; left; eexists; reflexivity.
  - unfold float_of_int. destruct (is_infinity _); eauto.
  - eauto.
Qed.

Lemma mul_not_numeric v o :
  is_int_or_float o = false -> __mul__ v o = Raise NotImplementedError.
Proof. unfold __mul__. now intros ->. Qed.

Lemma truediv_not_numeric v o :
  is_int_or_float o = false -> __truediv__ v o = Raise NotImplementedError.
Proof. unfold __truediv__. now intros ->. Qed.

Lemma mul_numeric v o f :
  is_int_or_float o = true -> to_float o = Ok f ->
  __mul__ v o = Ok (mk (x v * f) (y v * f)).
Proof. unfold __mul__. now intros -> ->. Qed.

Lemma truediv_nonzero v o f :
  is_int_or_float o = true -> to_float o = Ok f -> (f =? 0)%float = false ->
  __truediv__ v o = Ok (mk (x v / f) (y v / f)).
Proof.
  unfold __truediv__, float_div. intros -> -> Hf. simpl. now rewrite Hf.
Qed.

Lemma truediv_zero v o f :
  is_int_or_float o = true -> to_float o = Ok f -> (f =? 0)%float = true ->
  __truediv__ v o = Raise ZeroDivisionError.
Proof.
  unfold __truediv__, float_div. intros -> -> Hf. simpl. now rewrite Hf.
Qed.

Lemma overflowing_operand v o :
  is_int_or_float o = true -> to_float o = Raise OverflowError ->
  __mul__ v o = Raise OverflowError /\ __truediv__ v o = Raise OverflowError.
Proof. unfold __mul__, __truediv__. now intros -> ->. Qed.

End TinyVectorFacts.

(** C8, as the code has it.  An operand that is neither an [int] nor a
    [float] makes [v * x] and [v / x] raise [NotImplementedError].  For
    an [int] or [float] operand whose float value is [f], [v * x] is the
    vector with both components multiplied by [f]; [v / x] is the vector
    with both components divided by [f] when [f] is not zero and raises
    [ZeroDivisionError] when it is; an [int] too large for a float raises
    [OverflowError] in both.  Vectors are values: [v] is not changed. *)
Theorem tinyvector_scaling_by_operand (v : TinyVector) (o : TinyVector.operand) :
  (TinyVector.is_int_or_float o = false ->
   TinyVector.__mul__ v o = Raise NotImplementedError /\
   TinyVector.__truediv__ v o = Raise NotImplementedError) /\
  (TinyVector.is_int_or_float o = true ->
   (exists f, TinyVector.to_float o = Ok f /\
      TinyVector.__mul__ v o
        = Ok (TinyVector.mk (TinyVector.x v * f) (TinyVector.y v * f)) /\
      TinyVector.__truediv__ v o
        = if (f =? 0)%float then Raise ZeroDivisionError
          else Ok (TinyVector.mk (TinyVector.x v / f) (TinyVector.y v / f)))
   \/ (TinyVector.to_float o = Raise OverflowError /\
       TinyVector.__mul__ v o = Raise OverflowError /\
       TinyVector.__truediv__ v o = Raise OverflowError)).
Proof.
  split.
  - intros Ho. split; [now apply mul_not_numeric | now apply truediv_not_numeric].
  - intros Ho. destruct (is_int_or_float_to_float o Ho) as [[f Hf] | Hov].
    + left. exists f. split; [exact Hf |]. split.
      * now apply mul_numeric.
      * destruct (f =? 0)%float eqn:Hz.
        -- now apply truediv_zero with f.
        -- now apply truediv_nonzero.
    + right. split; [exact Hov |]. now apply overflowing_operand.
Qed.

Lemma tinyvector_scaling_by_operand_witness :
  (TinyVector.__mul__ (TinyVector.mk 3 4) (TinyVector.PyStr "two")
     = Raise NotImplementedError /\
   TinyVector.__truediv__ (TinyVector.mk 3 4) (TinyVector.PyStr "two")
     = Raise NotImplementedError) /\
  ((exists f, TinyVector.to_float (TinyVector.PyInt 2) = Ok f /\
      TinyVector.__mul__ (TinyVector.mk 3 4) (TinyVector.PyInt 2)
        = Ok (TinyVector.mk (3 * f) (4 * f)) /\
      TinyVector.__truediv__ (TinyVector.mk 3 4) (TinyVector.PyInt 2)
        = if (f =? 0)%float then Raise ZeroDivisionError
          else Ok (TinyVector.mk (3 / f) (4 / f)))
   \/ (TinyVector.to_float (TinyVector.PyInt 2) = Raise OverflowError /\
       TinyVector.__mul__ (TinyVector.mk 3 4) (TinyVector.PyInt 2)
         = Raise OverflowError /\
       TinyVector.__truediv__ (TinyVector.mk 3 4) (TinyVector.PyInt 2)
         = Raise OverflowError)).
Proof.
  split.
  - apply (proj1 (tinyvector_scaling_by_operand
                    (TinyVector.mk 3 4) (TinyVector.PyStr "two"))).
    reflexivity.
  - apply (proj2 (tinyvector_scaling_by_operand
                    (TinyVector.mk 3 4) (TinyVector.PyInt 2))).
    reflexivity.
Defined.

(** C8 as claimed fails on the int operand [0]: the division raises
    instead of returning a vector. *)
Lemma truediv_by_int_zero_raises :
  TinyVector.is_int_or_float (TinyVector.PyInt 0) = true /\
  TinyVector.__truediv__ (TinyVector.mk 3 4) (TinyVector.PyInt 0)
    = Raise ZeroDivisionError /\
  ~ exists w, TinyVector.__truediv__ (TinyVector.mk 3 4) (TinyVector.PyInt 0)
              = Ok w.
Proof.
  split; [reflexivity |]. split; [reflexivity |].
  intros [w Hw]. vm_compute in Hw. discriminate Hw.
Qed.

(** ** Rotation over the reals *)

Section RotationFacts.
Local Open Scope R_scope.




End RotationFacts.


(** ** The state-and-exception monad *)

Section Triples.
Context {S : Type}.
Implicit Types (P : S -> Prop).

Lemma triple_ret {A} P (a : A) (Q : A -> S -> Prop) :
  (forall s, P s -> Q a s) -> triple P (ret a) Q.
Proof. intros HQ s a' s' HP [= <- <-]. auto. Qed.

Lemma triple_bind {A B} P (m : SE S A) (k : A -> SE S B) Q R :
  triple P m Q -> (forall a, triple (Q a) (k a) R) -> triple P (bind m k) R.
Proof.
  intros Hm Hk s b s' HP. unfold bind.
  destruct (m s) as [[a s1] | e | ] eqn:Em; try discriminate.
  intros Hrun. eapply Hk; [eapply Hm; eauto | exact Hrun].
Qed.

Lemma triple_consequence {A} (P P' : S -> Prop) (m : SE S A)
    (Q Q' : A -> S -> Prop) :
  triple P' m Q' -> (forall s, P s -> P' s) ->
  (forall a s, Q' a s -> Q a s) -> triple P m Q.
Proof. intros Hm HP HQ s a s' Hs Hrun. eauto. Qed.

Lemma triple_get_state P : triple P get_state (fun a s => a = s /\ P s).
Proof. intros s a s' HP [= <- <-]. auto. Qed.

Lemma triple_modify P (f : S -> S) (Q : unit -> S -> Prop) :
  (forall s, P s -> Q tt (f s)) -> triple P (modify f) Q.
Proof. intros HQ s a s' HP [= <- <-]. auto. Qed.

Lemma triple_put_state P (s0 : S) (Q : unit -> S -> Prop) :
  Q tt s0 -> triple P (put_state s0) Q.
Proof. intros HQ s a s' HP [= <- <-]. auto. Qed.

Lemma triple_raise {A} P e (Q : A -> S -> Prop) : triple P (raise e) Q.
Proof. intros s a s' _ [=]. Qed.

Lemma triple_lift {A} P (r : result A) (Q : A -> S -> Prop) :
  (forall a s, r = Ok a -> P s -> Q a s) -> triple P (lift r) Q.
Proof.
  intros HQ s a s' HP. unfold lift. destruct r; intros [=]; subst. auto.
Qed.

Lemma triple_assert P (b : bool) :
  triple P (assert b) (fun _ s => b = true /\ P s).
Proof.
  destruct b; simpl.
  - apply triple_ret. auto.
  - apply triple_raise.
Qed.

(** A loop keeps what each of its rounds keeps. *)
Lemma triple_for_each {A B} (I : S -> Prop) (xs : list A)
    (body : A -> B -> SE S B) (acc : B) :
  (forall x acc', x ∈ xs -> triple I (body x acc') (fun _ => I)) ->
  triple I (for_each xs body acc) (fun _ => I).
Proof.
  revert acc. induction xs as [ | x xs IH]; intros acc Hbody; simpl.
  - apply triple_ret. auto.
  - eapply triple_bind.
    + apply Hbody. left.
    + intros b. apply IH. intros y acc' Hy. apply Hbody. now right.
Qed.

End Triples.

(** ** The catalog after [Hexagon.init()] *)

(** The first call of [init] returns; [initialized] is the class it
    leaves. *)
Lemma init_returns cfg : init cfg class_body = Ok (tt, initialized cfg).
Proof. vm_compute. reflexivity. Qed.

(** The sorted list holds the constructor calls in name order, which is
    the source order. *)
Lemma initialized_names cfg :
  map name (get_all_cells (initialized cfg)) = map (fun c => c.1.1.1) catalog_calls.
Proof. vm_compute. reflexivity. Qed.

Lemma initialized_positions cfg :
  map position_uv (get_all_cells (initialized cfg))
  = map (fun c => c.1.1.2) catalog_calls.
Proof. vm_compute. reflexivity. Qed.

Lemma initialized_rings cfg :
  map ring (get_all_cells (initialized cfg)) = map (fun c => c.1.2) catalog_calls.
Proof. vm_compute. reflexivity. Qed.

Lemma initialized_label_sides cfg :
  map label_side (get_all_cells (initialized cfg)) = map snd catalog_calls.
Proof. vm_compute. reflexivity. Qed.

Lemma initialized_indexes cfg :
  map index (get_all_cells (initialized cfg)) = map Some (seq 0 49).
Proof. vm_compute. reflexivity. Qed.

Lemma initialized_all cfg :
  all_cells (initialized cfg) = Some (get_all_cells (initialized cfg)).
Proof. vm_compute. reflexivity. Qed.

Lemma initialized_length cfg : length (get_all_cells (initialized cfg)) = 49.
Proof. vm_compute. reflexivity. Qed.

(** C1, as the code has it.  The first [Hexagon.init()] returns and
    leaves a catalog of exactly 49 cells: [get_all()] has 49 items with
    pairwise distinct names and pairwise distinct axial positions, and
    the two tables have 49 keys each. *)
Theorem catalog_has_49_cells (cfg : BoardConfig) :
  init cfg class_body = Ok (tt, initialized cfg) /\
  length (get_all_cells (initialized cfg)) = 49 /\
  NoDup (map name (get_all_cells (initialized cfg))) /\
  NoDup (map position_uv (get_all_cells (initialized cfg))) /\
  size (__name_to_hexagon (initialized cfg)) = 49 /\
  size (__position_uv_to_hexagon (initialized cfg)) = 49.
Proof.
  split; [apply init_returns |].
  split; [apply initialized_length |].
  split; [rewrite initialized_names; apply (bool_decide_unpack _); vm_compute; exact I |].
  split; [rewrite initialized_positions; apply (bool_decide_unpack _); vm_compute; exact I |].
  split; vm_compute; reflexivity.
Qed.

(** C1 as claimed fails: the catalog does not have 48 cells. *)
Lemma catalog_has_not_48_cells :
  init series_config class_body = Ok (tt, initialized series_config) /\
  length (get_all_cells (initialized series_config)) <> 48.
Proof.
  split; [apply init_returns |].
  rewrite initialized_length. discriminate.
Qed.

(** ** Rings and distances on the axial lattice *)

Lemma initialized_neighbor_steps cfg :
  neighbor_steps (initialized cfg) = six_steps.
Proof. vm_compute. reflexivity. Qed.

Lemma six_steps_cases d :
  d ∈ six_steps ->
  d = (1, 0)%Z \/ d = (1, -1)%Z \/ d = (0, -1)%Z \/
  d = (-1, 0)%Z \/ d = (-1, 1)%Z \/ d = (0, 1)%Z.
Proof.
  unfold six_steps. rewrite !elem_of_cons, elem_of_nil. tauto.
Qed.

(** One step changes the norm by at most one. *)
Lemma hex_norm_step (u v : Z) d :
  d ∈ six_steps ->
  (hex_norm (u + fst d, v + snd d) <= hex_norm (u, v) + 1)%Z.
Proof.
  intros Hd. unfold hex_norm. cbn [fst snd].
  destruct (six_steps_cases d Hd) as [-> | [-> | [-> | [-> | [-> | ->]]]]];
    cbn [fst snd]; Z.div_mod_to_equations; lia.
Qed.

Lemma hex_norm_nonneg p : (0 <= hex_norm p)%Z.
Proof. unfold hex_norm. Z.div_mod_to_equations. lia. Qed.

(** No walk from the center is shorter than the norm of its end. *)
Lemma walk_lower_bound n q :
  walk six_steps n (0, 0)%Z q -> (hex_norm q <= Z.of_nat n)%Z.
Proof.
  remember (0, 0)%Z as o eqn:Ho. induction 1 as [p | n p q d Hw IH Hd].
  - subst p. vm_compute. discriminate.
  - specialize (IH Ho). destruct q as [u v]. cbn [fst snd].
    pose proof (hex_norm_step u v d Hd). lia.
Qed.

(** Away from the center some step leads nearer to it. *)
Lemma hex_norm_descent (u v : Z) :
  (u, v) <> (0, 0)%Z ->
  exists d, d ∈ six_steps /\
    (hex_norm (u - fst d, v - snd d) = hex_norm (u, v) - 1)%Z.
Proof.
  intros Hne.
  assert (Hcases : ((u > 0 /\ v >= 0) \/ (u > 0 /\ v < 0) \/ (u < 0 /\ v > 0)
                   \/ (u < 0 /\ v <= 0) \/ (u = 0 /\ v > 0) \/ (u = 0 /\ v < 0))%Z).
  { destruct (Z.eq_dec u 0%Z) as [-> | Hu].
    - assert (v <> 0)%Z by (intros ->; now apply Hne).
      lia.
    - lia. }
  unfold hex_norm, six_steps.
  destruct Hcases as [Hs | [Hs | [Hs | [Hs | [Hs | Hs]]]]].
  - exists (1, 0)%Z. split; [apply list_elem_of_In; simpl; auto 10 |]. cbn [fst snd]. Z.div_mod_to_equations. lia.
  - exists (1, -1)%Z. split; [apply list_elem_of_In; simpl; auto 10 |]. cbn [fst snd]. Z.div_mod_to_equations. lia.
  - exists (-1, 1)%Z. split; [apply list_elem_of_In; simpl; auto 10 |]. cbn [fst snd]. Z.div_mod_to_equations. lia.
  - exists (-1, 0)%Z. split; [apply list_elem_of_In; simpl; auto 10 |]. cbn [fst snd]. Z.div_mod_to_equations. lia.
  - exists (0, 1)%Z. split; [apply list_elem_of_In; simpl; auto 10 |]. cbn [fst snd]. Z.div_mod_to_equations. lia.
  - exists (0, -1)%Z. split; [apply list_elem_of_In; simpl; auto 10 |]. cbn [fst snd]. Z.div_mod_to_equations. lia.
Qed.

(** Every position is reached from the center in as many steps as its
    norm. *)
Lemma walk_of_norm n : forall q,
  hex_norm q = Z.of_nat n -> walk six_steps n (0, 0)%Z q.
Proof.
  induction n as [ | n IH]; intros [u v] Hq.
  - assert ((u, v) = (0, 0)%Z) as ->; [ | constructor].
    unfold hex_norm in Hq. cbn [fst snd] in Hq. f_equal; Z.div_mod_to_equations; lia.
  - assert (Hne : (u, v) <> (0, 0)%Z).
    { intros [= -> ->]. vm_compute in Hq. discriminate. }
    destruct (hex_norm_descent u v Hne) as (d & Hd & Hless).
    replace (u, v) with ((u - fst d) + fst d, (v - snd d) + snd d)%Z
      by (f_equal; lia).
    apply (walk_more six_steps n (0, 0)%Z (u - fst d, v - snd d)%Z d); [ | exact Hd].
    apply IH. lia.
Qed.

(** The norm is the graph distance from the center. *)
Lemma hex_norm_is_distance q :
  graph_distance six_steps (0, 0)%Z q (Z.to_nat (hex_norm q)).
Proof.
  pose proof (hex_norm_nonneg q). split.
  - apply walk_of_norm. lia.
  - intros k Hk. apply walk_lower_bound in Hk. lia.
Qed.

Lemma initialized_ring_is_norm cfg :
  Forall (fun h => ring h = hex_norm (position_uv h))
         (get_all_cells (initialized cfg)).
Proof. apply (bool_decide_unpack _). vm_compute. exact I. Qed.

(** C3.  After initialization the neighbour steps are the six of the
    axial lattice, and for every cell of the catalog the ring equals
    [(|u| + |v| + |u+v|) / 2], which is its graph distance from the
    center [(0,0)]; the center cell ["d4"] is at [(0,0)] on ring 0, and
    ["a1"] and ["g6"] are on ring 4. *)
Theorem ring_is_distance_from_center (cfg : BoardConfig) :
  neighbor_steps (initialized cfg)
    = [(1, 0); (1, -1); (0, -1); (-1, 0); (-1, 1); (0, 1)]%Z /\
  Forall (fun h =>
            ring h = hex_norm (position_uv h) /\
            graph_distance (neighbor_steps (initialized cfg)) (0, 0)%Z
              (position_uv h) (Z.to_nat (ring h)))
         (get_all_cells (initialized cfg)) /\
  (position_uv <$> cell_by_name (initialized cfg) "d4") = Some (0, 0)%Z /\
  (ring <$> cell_by_name (initialized cfg) "d4") = Some 0%Z /\
  (ring <$> cell_by_name (initialized cfg) "a1") = Some 4%Z /\
  (ring <$> cell_by_name (initialized cfg) "g6") = Some 4%Z.
Proof.
  split; [apply initialized_neighbor_steps |].
  split.
  - eapply Forall_impl; [apply initialized_ring_is_norm |].
    intros h Hr. split; [exact Hr |].
    rewrite initialized_neighbor_steps, Hr. apply hex_norm_is_distance.
  - split; [vm_compute; reflexivity |].
    split; [vm_compute; reflexivity |].
    split; vm_compute; reflexivity.
Qed.

(** C4, as the code has it.  After initialization the ring values of the
    catalog are exactly the five values 0 to 4, none is negative, the
    rings 0 to 4 hold 1, 6, 12, 18 and 12 cells, and the catalog is
    symmetric around the center cell: the position opposite to a cell's
    is registered, on the same ring. *)
Theorem ring_census (cfg : BoardConfig) :
  ring_values (get_all_cells (initialized cfg)) = {[0; 1; 2; 3; 4]}%Z /\
  size (ring_values (get_all_cells (initialized cfg))) = 5 /\
  Forall (fun h => (0 <= ring h)%Z) (get_all_cells (initialized cfg)) /\
  map (ring_count (get_all_cells (initialized cfg))) [0; 1; 2; 3; 4]%Z
    = [1; 6; 12; 18; 12] /\
  map (fun h => ring <$> cell_by_position (initialized cfg)
                           (- fst (position_uv h), - snd (position_uv h))%Z)
      (get_all_cells (initialized cfg))
    = map (fun h => Some (ring h)) (get_all_cells (initialized cfg)).
Proof.
  split; [vm_compute; reflexivity |].
  split; [vm_compute; reflexivity |].
  split; [apply (bool_decide_unpack _); vm_compute; exact I |].
  split; vm_compute; reflexivity.
Qed.

(** C4 as claimed fails: there are not 7 distinct ring values. *)
Lemma ring_values_are_not_7 :
  size (ring_values (get_all_cells (initialized series_config))) <> 7.
Proof. vm_compute. discriminate. Qed.

(** ** The two tables bind the same instances *)

Lemma triple_bind_get_state {S A} (P : S -> Prop) (k : S -> SE S A) Q :
  (forall s0, triple P (k s0) Q) -> triple P (bind get_state k) Q.
Proof.
  intros Hk s a s' HP. unfold bind, get_state. intros Hrun.
  eapply Hk; eauto.
Qed.

Lemma get_keeps (P : HexagonClass -> Prop) n :
  triple P (get n) (fun _ => P).
Proof.
  unfold get. apply triple_bind_get_state. intros s0.
  destruct (__name_to_hexagon s0 !! n).
  - apply triple_ret. auto.
  - apply triple_raise.
Qed.

(** What a constructor call that returns has done. *)
Lemma Hexagon__init___run cfg n p r l cls a cls' :
  Hexagon__init__ cfg n p r l cls = Ok (a, cls') ->
  __name_to_hexagon cls !! n = None /\
  __position_uv_to_hexagon cls !! p = None /\
  a = length (instances cls) /\
  exists c,
    compute_center cfg (fst p) (snd p) = Ok c /\
    cls' = {| instances := instances cls ++
                [ {| name := n; position_uv := p; ring := r;
                     label_side := l; index := None; center := c |} ];
              list_objects := list_objects cls;
              __all_sorted_hexagons := __all_sorted_hexagons cls;
              __init_done := __init_done cls;
              __layout := __layout cls;
              __name_to_hexagon := <[n := a]> (__name_to_hexagon cls);
              __position_uv_to_hexagon :=
                <[p := a]> (__position_uv_to_hexagon cls);
              all := all cls;
              __delta_u := __delta_u cls;
              __delta_v := __delta_v cls |}.
Proof.
  unfold Hexagon__init__, bind, get_state, assert, ret, raise, put_state, lift.
  destruct (bool_decide (__name_to_hexagon cls !! n = None)) eqn:Hn;
    [ | discriminate].
  destruct (bool_decide (__position_uv_to_hexagon cls !! p = None)) eqn:Hp;
    [ | discriminate].
  destruct (String.length n =? 2)%nat; [ | discriminate].
  destruct p as [u v]. cbn [fst snd].
  destruct (compute_center cfg u v) as [c | e | ] eqn:Hc; try discriminate.
  intros [= <- <-].
  apply bool_decide_eq_true in Hn, Hp. eauto 10.
Qed.

Lemma tables_agree_class_body : tables_agree class_body.
Proof. split; intros k a Hk; cbn in Hk; now rewrite lookup_empty in Hk. Qed.

Lemma Hexagon__init___agree cfg n p r l :
  triple tables_agree (Hexagon__init__ cfg n p r l) (fun _ => tables_agree).
Proof.
  intros cls a cls' [Hnames Hpositions] Hrun.
  apply Hexagon__init___run in Hrun as (Hn & Hp & -> & c & _ & ->).
  split; cbn [instances __name_to_hexagon __position_uv_to_hexagon].
  - intros n' a'. rewrite lookup_insert. case_decide as Heq.
    + intros [= <-]. subst n'. eexists. split; [apply list_lookup_middle; reflexivity |].
      cbn. split; [reflexivity | apply lookup_insert_eq].
    + intros Hn'. destruct (Hnames n' a' Hn') as (h & Hh & Hname & Hpos).
      exists h. split; [ | split; [exact Hname |]].
      * rewrite lookup_app_l; [exact Hh | eapply lookup_lt_Some; eauto].
      * rewrite lookup_insert_ne; [exact Hpos | congruence].
  - intros p' a'. rewrite lookup_insert. case_decide as Heq.
    + intros [= <-]. subst p'. eexists. split; [apply list_lookup_middle; reflexivity |].
      cbn. split; [reflexivity | apply lookup_insert_eq].
    + intros Hp'. destruct (Hpositions p' a' Hp') as (h & Hh & Hpos & Hname).
      exists h. split; [ | split; [exact Hpos |]].
      * rewrite lookup_app_l; [exact Hh | eapply lookup_lt_Some; eauto].
      * rewrite lookup_insert_ne; [exact Hname | congruence].
Qed.

Lemma list_append_agree l a :
  triple tables_agree (list_append l a) (fun _ => tables_agree).
Proof. apply triple_modify. intros cls H. exact H. Qed.

Lemma store_index_agree h i :
  triple tables_agree (store_index h i) (fun _ => tables_agree).
Proof.
  apply triple_modify. intros cls [Hnames Hpositions].
  split; cbn [instances __name_to_hexagon __position_uv_to_hexagon].
  - intros n a Hn. destruct (Hnames n a Hn) as (c & Hc & Hname & Hpos).
    destruct (decide (h = a)) as [-> | Hne].
    + exists (set_index i c). rewrite list_lookup_alter_eq, Hc. auto.
    + exists c. rewrite list_lookup_alter_ne; auto.
  - intros p a Hp. destruct (Hpositions p a Hp) as (c & Hc & Hpos & Hname).
    destruct (decide (h = a)) as [-> | Hne].
    + exists (set_index i c). rewrite list_lookup_alter_eq, Hc. auto.
    + exists c. rewrite list_lookup_alter_ne; auto.
Qed.

Lemma __create_hexagons_agree cfg :
  triple tables_agree (__create_hexagons cfg) (fun _ => tables_agree).
Proof.
  unfold __create_hexagons. apply triple_for_each.
  intros [[[n p] r] l] u _. eapply triple_bind.
  - apply Hexagon__init___agree.
  - intros a. apply triple_ret. auto.
Qed.

Lemma __create_all_sorted_hexagons_agree :
  triple tables_agree __create_all_sorted_hexagons (fun _ => tables_agree).
Proof.
  unfold __create_all_sorted_hexagons.
  apply triple_bind_get_state. intros cls0. eapply triple_bind.
  { apply triple_for_each. intros n u _.
    apply triple_bind_get_state. intros cls1. eapply triple_bind.
    - apply get_keeps.
    - intros h. apply list_append_agree. }
  intros ?. apply triple_bind_get_state. intros cls2. eapply triple_bind.
  { apply triple_for_each. intros [i h] u _. apply store_index_agree. }
  intros ?. apply triple_modify. intros cls H. exact H.
Qed.

Lemma __create_layout_agree :
  triple tables_agree __create_layout (fun _ => tables_agree).
Proof.
  unfold __create_layout. eapply triple_bind.
  - apply triple_modify with (Q := fun _ => tables_agree). intros cls H. exact H.
  - intros ?. apply triple_for_each. intros row u _.
    apply triple_modify. intros cls H. exact H.
Qed.

Lemma init_agree cfg :
  triple tables_agree (init cfg) (fun _ => tables_agree).
Proof.
  unfold init. apply triple_bind_get_state. intros cls0.
  destruct (negb (__init_done cls0)); [ | apply triple_ret; auto].
  eapply triple_bind; [apply __create_hexagons_agree | intros ?].
  eapply triple_bind; [apply __create_all_sorted_hexagons_agree | intros ?].
  eapply triple_bind; [apply __create_layout_agree | intros ?].
  eapply triple_bind.
  - apply triple_modify with (Q := fun _ => tables_agree). intros cls H. exact H.
  - intros ?. apply triple_modify. intros cls H. exact H.
Qed.

Lemma reset_agree : triple tables_agree reset (fun _ => tables_agree).
Proof.
  apply triple_modify. intros cls _.
  split; intros k a Hk; cbn in Hk; now rewrite lookup_empty in Hk.
Qed.

(** The invariant of the class. *)
Lemma reachable_agree cfg cls : reachable cfg cls -> tables_agree cls.
Proof.
  induction 1 as [ | cls n p r l a cls' _ IH Hrun
                   | cls cls' _ IH Hrun | cls cls' _ IH Hrun].
  - apply tables_agree_class_body.
  - eapply Hexagon__init___agree; eauto.
  - eapply init_agree; eauto.
  - eapply reset_agree; eauto.
Qed.

Lemma initialized_reachable cfg : reachable cfg (initialized cfg).
Proof.
  eapply reach_init; [apply reach_class_body | apply init_returns].
Qed.

(** C7.  In every state the class can reach, a registered position leads
    to an instance with that position whose name leads back to the very
    same instance, so [Hexagon.get] returns it.  In the initialized
    catalog every cell is found, itself, under its position and under
    its name. *)
Theorem lookups_agree (cfg : BoardConfig) :
  (forall cls, reachable cfg cls ->
   forall p a, __position_uv_to_hexagon cls !! p = Some a ->
   exists h, instances cls !! a = Some h /\ position_uv h = p /\
             get (name h) cls = Ok (a, cls) /\
             cell_by_position cls p = Some h /\
             cell_by_name cls (name h) = Some h) /\
  map (fun h => cell_by_position (initialized cfg) (position_uv h))
      (get_all_cells (initialized cfg))
    = map Some (get_all_cells (initialized cfg)) /\
  map (fun h => cell_by_name (initialized cfg) (name h))
      (get_all_cells (initialized cfg))
    = map Some (get_all_cells (initialized cfg)) /\
  map (fun h => __position_uv_to_hexagon (initialized cfg) !! position_uv h)
      (get_all_cells (initialized cfg))
    = map (fun h => __name_to_hexagon (initialized cfg) !! name h)
          (get_all_cells (initialized cfg)).
Proof.
  split.
  - intros cls Hreach p a Hp.
    destruct (reachable_agree cfg cls Hreach) as [_ Hpositions].
    destruct (Hpositions p a Hp) as (h & Hh & Hpos & Hname).
    exists h. split; [exact Hh |]. split; [exact Hpos |].
    unfold get, bind, get_state, cell_by_position, cell_by_name.
    rewrite Hname, Hp. cbn. auto.
  - split; [vm_compute; reflexivity |].
    split; vm_compute; reflexivity.
Qed.

Lemma lookups_agree_witness :
  exists h, instances (initialized series_config) !! 24 = Some h /\
            position_uv h = (0, 0)%Z /\
            get (name h) (initialized series_config)
              = Ok (24, initialized series_config) /\
            cell_by_position (initialized series_config) (0, 0)%Z = Some h /\
            cell_by_name (initialized series_config) (name h) = Some h.
Proof.
  apply (proj1 (lookups_agree series_config) (initialized series_config)).
  - eapply reach_init; [apply reach_class_body | vm_compute; reflexivity].
  - vm_compute. reflexivity.
Defined.

(** ** [Hexagon.reset()] and re-initialization *)

Lemma cells_of_reset cls cls' l :
  reset cls = Ok (tt, cls') -> cells_of cls' l = cells_of cls l.
Proof.
  intros [= <-]. unfold cells_of, list_items. cbn [instances list_objects].
  f_equal. destruct (list_objects cls !! l) as [items | ] eqn:Hl.
  - rewrite lookup_app_l; [now rewrite Hl | eapply lookup_lt_Some; eauto].
  - apply lookup_ge_None in Hl. destruct (decide (l = length (list_objects cls))) as [-> | Hne].
    + rewrite list_lookup_middle by reflexivity. reflexivity.
    + rewrite lookup_ge_None_2; [reflexivity |]. rewrite length_app. cbn. lia.
Qed.

Lemma reset_clears cls :
  exists cls', reset cls = Ok (tt, cls') /\
    __name_to_hexagon cls' = ∅ /\ __position_uv_to_hexagon cls' = ∅ /\
    get_all_cells cls' = [] /\ __layout cls' = [] /\ __init_done cls' = false /\
    all cls' = all cls /\ all_cells cls' = all_cells cls.
Proof.
  eexists. split; [reflexivity |].
  cbn [__name_to_hexagon __position_uv_to_hexagon __layout __init_done all].
  do 2 (split; [reflexivity |]).
  split.
  { unfold get_all_cells, cells_of, list_items.
    cbn [__all_sorted_hexagons list_objects instances].
    rewrite list_lookup_middle by reflexivity. reflexivity. }
  do 3 (split; [reflexivity |]).
  unfold all_cells. cbn [all]. apply option_fmap_ext.
  intros l. now apply cells_of_reset.
Qed.

(** C10.  [reset] returns from every state with both tables, the sorted
    list and the layout empty and the flag false, and leaves [all] and
    what it refers to as they were.  After the first initialization it
    therefore leaves [all] on the 49 cells of the previous list while
    [get_all()] is a new, empty list. *)
Theorem reset_leaves_all (cfg : BoardConfig) :
  (forall cls, exists cls', reset cls = Ok (tt, cls') /\
     __name_to_hexagon cls' = ∅ /\ __position_uv_to_hexagon cls' = ∅ /\
     get_all_cells cls' = [] /\ __layout cls' = [] /\ __init_done cls' = false /\
     all cls' = all cls /\ all_cells cls' = all_cells cls) /\
  (exists cls', reset (initialized cfg) = Ok (tt, cls') /\
     all_cells cls' = Some (get_all_cells (initialized cfg)) /\
     length (get_all_cells (initialized cfg)) = 49 /\
     get_all_cells cls' = [] /\
     all cls' <> Some (__all_sorted_hexagons cls')).
Proof.
  split; [apply reset_clears |].
  destruct (reset_clears (initialized cfg))
    as (cls' & Hrun & _ & _ & Hget & _ & _ & Hall & Hcells).
  exists cls'. split; [exact Hrun |].
  split; [exact (eq_trans Hcells (initialized_all cfg)) |].
  split; [apply initialized_length |].
  split; [exact Hget |].
  injection Hrun as <-. vm_compute. discriminate.
Qed.

Lemma init_when_done cfg cls :
  init cfg (set_init_done true cls) = Ok (tt, set_init_done true cls).
Proof. reflexivity. Qed.

Lemma reinitialized_catalog cfg :
  exists cls2,
    bind reset (fun _ => init cfg) (initialized cfg) = Ok (tt, cls2) /\
    catalog cls2 = catalog (initialized cfg) /\
    all_cells cls2 = Some (get_all_cells (initialized cfg)) /\
    __layout cls2 = __layout (initialized cfg).
Proof.
  eexists. split; [vm_compute; reflexivity |].
  split; [vm_compute; reflexivity |].
  split; vm_compute; reflexivity.
Qed.

(** C6.  [reset()] followed by [init()], from the initialized class and
    under the same configuration, returns and reproduces the catalog:
    the same cells in the same order with the same name, position, ring,
    label side, index and center, behind the same names and positions.
    A call of [init()] on a class whose flag is set changes nothing. *)
Theorem reinitialization_reproduces_catalog (cfg : BoardConfig) :
  (exists cls2,
     bind reset (fun _ => init cfg) (initialized cfg) = Ok (tt, cls2) /\
     catalog cls2 = catalog (initialized cfg) /\
     all_cells cls2 = Some (get_all_cells (initialized cfg)) /\
     __layout cls2 = __layout (initialized cfg)) /\
  init cfg (initialized cfg) = Ok (tt, initialized cfg) /\
  (forall cls, init cfg (set_init_done true cls)
               = Ok (tt, set_init_done true cls)).
Proof.
  split; [apply reinitialized_catalog |].
  split; [vm_compute; reflexivity | apply init_when_done].
Qed.


(** ** The label modes of [draw_board] *)

Section DrawFacts.
Context `{Libm} `{Random}.
Context (cfg : BoardConfig).

Lemma texts_app_shape (d : Drawing) (e : element) :
  is_text e = false ->
  filter is_text (drawing_elements d ++ [e]) = filter is_text (drawing_elements d).
Proof.
  intros He. rewrite filter_app, filter_cons_False, filter_nil, app_nil_r;
    [reflexivity | now rewrite He].
Qed.

Lemma texts_app_text (d : Drawing) (e : element) :
  is_text e = true ->
  filter is_text (drawing_elements d ++ [e])
  = filter is_text (drawing_elements d) ++ [e].
Proof.
  intros He. rewrite filter_app, filter_cons_True, filter_nil;
    [reflexivity | now rewrite He].
Qed.

Lemma keeps_ret {A} (a : A) : keeps_texts (ret a).
Proof. intros t. apply triple_ret. auto. Qed.

Lemma keeps_raise {A} e : keeps_texts (@raise World A e).
Proof. intros t. apply triple_raise. Qed.

Lemma keeps_lift {A} (r : result A) : keeps_texts (lift r).
Proof. intros t. apply triple_lift. auto. Qed.

Lemma keeps_bind {A B} (m : SE World A) (k : A -> SE World B) :
  keeps_texts m -> (forall a, keeps_texts (k a)) -> keeps_texts (bind m k).
Proof. intros Hm Hk t. eapply triple_bind; [apply Hm | intros a; apply Hk]. Qed.

Lemma keeps_draw_random {A} (f : rng -> A * rng) : keeps_texts (draw_random f).
Proof.
  intros t w a w' Ht. unfold draw_random.
  destruct (f (random_state w)) as [a0 g]. intros [= <- <-]. exact Ht.
Qed.

Lemma keeps_read_local {A} (v : option A) : keeps_texts (read_local v).
Proof. destruct v; [apply keeps_ret | apply keeps_raise]. Qed.

(** Appending anything but a text. *)
Lemma keeps_board_append e : is_text e = false -> keeps_texts (board_append e).
Proof.
  intros He t. apply triple_modify. intros w <-.
  unfold texts. cbn [board drawing_elements]. now apply texts_app_shape.
Qed.

Lemma keeps_for_each {A B} (xs : list A) (body : A -> B -> SE World B) acc :
  (forall x acc', keeps_texts (body x acc')) -> keeps_texts (for_each xs body acc).
Proof. intros Hbody t. apply triple_for_each. intros x acc' _. apply Hbody. Qed.

Lemma keeps_for_range {B} n (body : nat -> B -> SE World B) acc :
  (forall i acc', keeps_texts (body i acc')) -> keeps_texts (for_range n body acc).
Proof. apply keeps_for_each. Qed.

Lemma keeps_while_true {A} fuel (body : SE World (option A)) :
  keeps_texts body -> keeps_texts (while_true fuel body).
Proof.
  intros Hbody. induction fuel as [ | fuel IH]; simpl.
  - intros t w a w' _ [=].
  - apply keeps_bind; [exact Hbody |]. intros [a | ]; [apply keeps_ret | exact IH].
Qed.

(** The tactic walks through a piece of drawing code, by the shape of
    the term, so that no definition is unfolded on the way. *)
Ltac keeps_step :=
  lazymatch goal with
  | |- keeps_texts (ret _) => apply keeps_ret
  | |- keeps_texts (raise _) => apply keeps_raise
  | |- keeps_texts (lift _) => apply keeps_lift
  | |- keeps_texts (draw_random _) => apply keeps_draw_random
  | |- keeps_texts (read_local _) => apply keeps_read_local
  | |- keeps_texts (board_append _) => apply keeps_board_append; reflexivity
  | |- keeps_texts (for_range _ _ _) => apply keeps_for_range; intros
  | |- keeps_texts (for_each _ _ _) => apply keeps_for_each; intros
  | |- keeps_texts (while_true _ _) => apply keeps_while_true
  | |- keeps_texts (bind _ _) => apply keeps_bind; [ | intros ]
  | |- keeps_texts (let _ := _ in _) => cbv zeta
  | |- keeps_texts (if ?b then _ else _) => destruct b
  | |- keeps_texts (match ?x with _ => _ end) => destruct x
  | |- keeps_texts (match ?x with _ => _ end _) => destruct x; cbv beta
  end.
Ltac keeps := repeat keeps_step.

Lemma keeps_draw_concentric_hexas c vs n smin smax :
  keeps_texts (draw_concentric_hexas cfg c vs n smin smax).
Proof. unfold draw_concentric_hexas. keeps. Qed.

Lemma keeps_draw_concentrated_texture fuel c vs n r :
  keeps_texts (draw_concentrated_texture cfg fuel c vs n r).
Proof. unfold draw_concentrated_texture. keeps. Qed.

Lemma keeps_sample_two vs : keeps_texts (sample_two vs).
Proof. unfold sample_two. keeps. Qed.

Lemma keeps_draw_uniform_texture fuel c vs n r :
  keeps_texts (draw_uniform_texture cfg fuel c vs n r).
Proof.
  unfold draw_uniform_texture. keeps. apply keeps_sample_two.
Qed.

Lemma keeps_draw_gradient_texture c vs n :
  keeps_texts (draw_gradient_texture cfg c vs n).
Proof. unfold draw_gradient_texture. keeps. Qed.

Lemma keeps_rotating_polygon v1 v2 : keeps_texts (rotating_polygon v1 v2).
Proof. unfold rotating_polygon. keeps. Qed.

Ltac keeps_known :=
  first [ apply keeps_rotating_polygon
        | apply keeps_draw_concentric_hexas
        | apply keeps_draw_concentrated_texture
        | apply keeps_draw_gradient_texture
        | apply keeps_draw_uniform_texture ].

Lemma keeps_decorate_odd fuel opts c vs :
  keeps_texts (decorate_odd cfg fuel opts c vs).
Proof. unfold decorate_odd. keeps; keeps_known. Qed.

Lemma keeps_decorate_even fuel opts h c vs :
  keeps_texts (decorate_even cfg fuel opts h c vs).
Proof. unfold decorate_even. keeps; try keeps_known; keeps; try keeps_known. Qed.

Lemma triple_bind_ret {S A B} (P : S -> Prop) (a : A) (k : A -> SE S B) Q :
  triple P (k a) Q -> triple P (bind (ret a) k) Q.
Proof. intros Hk s b s' HP Hrun. eapply Hk; eauto. Qed.

Lemma triple_bind_keeps {A B} (m : SE World A) (k : A -> SE World B) t Q :
  keeps_texts m ->
  (forall a, triple (fun w => texts (board w) = t) (k a) Q) ->
  triple (fun w => texts (board w) = t) (bind m k) Q.
Proof. intros Hm Hk. eapply triple_bind; [apply Hm | exact Hk]. Qed.

Lemma hexagon_polygon_is_shape opts h s data :
  is_text (hexagon_polygon cfg opts h s data) = false.
Proof. unfold hexagon_polygon. now destruct (with_gradient opts). Qed.

Lemma label_text_is_text h l : is_text (label_text cfg h l) = true.
Proof. reflexivity. Qed.

(** One round of the loop appends the label the branch at its end
    decides, and nothing else that is a text. *)
Lemma draw_hexagon_texts fuel opts h locals t :
  triple (fun w => texts (board w) = t)
    (draw_hexagon cfg fuel opts h locals)
    (fun locals' w' =>
       label_location locals'
         = next_label_location cfg opts h (label_location locals) /\
       texts (board w') = t ++ emitted_label cfg h (label_location locals')).
Proof.
  unfold draw_hexagon.
  apply triple_bind_keeps; [keeps | intros scale].
  apply triple_bind_keeps; [keeps | intros [vertices c]].
  apply triple_bind_keeps;
    [apply keeps_board_append, hexagon_polygon_is_shape | intros _].
  apply triple_bind_keeps;
    [destruct (_ && _); [apply keeps_decorate_odd | apply keeps_ret] | intros _].
  apply triple_bind_keeps;
    [destruct (_ && _); [apply keeps_decorate_even | apply keeps_ret] | intros _].
  cbv zeta.
  destruct (next_label_location cfg opts h (label_location locals))
    as [[l | ] | ] eqn:Hnext; cbn [read_local].
  - apply triple_bind_ret. eapply triple_bind.
    + apply triple_modify
        with (Q := fun _ w => texts (board w) = t ++ [label_text cfg h l]).
      intros w <-. unfold texts. cbn [board drawing_elements].
      now apply texts_app_text.
    + intros ?. apply triple_ret. intros w Hw. cbn [label_location emitted_label].
      auto.
  - apply triple_bind_ret. apply triple_bind_ret.
    apply triple_ret. intros w Hw.
    cbn [label_location emitted_label]. rewrite app_nil_r. auto.
  - intros w a w' _ Hrun. discriminate Hrun.
Qed.

Lemma draw_loop_texts fuel opts cells : forall locals t,
  triple (fun w => texts (board w) = t)
    (for_each cells (draw_hexagon cfg fuel opts) locals)
    (fun _ w' =>
       texts (board w') = t ++ loop_labels cfg opts (label_location locals) cells).
Proof.
  induction cells as [ | h rest IH]; intros locals t; simpl.
  - apply triple_ret. intros w ->. now rewrite app_nil_r.
  - eapply triple_bind; [apply draw_hexagon_texts |].
    intros locals'. intros w a w' [Hloc Ht] Hrun.
    rewrite <- Hloc, app_assoc. eapply IH; [exact Ht | exact Hrun].
Qed.

Lemma outer_rectangle_is_shape opts : is_text (outer_rectangle cfg opts) = false.
Proof. unfold outer_rectangle. now destruct (do_rendering opts). Qed.

(** The texts of a finished drawing are the labels of the loop. *)
Lemma draw_board_texts fuel opts cls w w' :
  draw_board cfg fuel opts cls w = Ok (tt, w') ->
  exists cells, all_cells cls = Some cells /\
                texts (board w') = loop_labels cfg opts None cells.
Proof.
  intros Hrun.
  cut (triple (fun _ : World => True) (draw_board cfg fuel opts cls)
         (fun _ w' => exists cells, all_cells cls = Some cells /\
                        texts (board w') = loop_labels cfg opts None cells)).
  { intros Htriple. eapply Htriple; [exact I | exact Hrun]. }
  unfold draw_board. eapply triple_bind.
  { apply triple_modify with (Q := fun _ w => texts (board w) = []).
    intros w0 _. reflexivity. }
  intros ?. apply triple_bind_keeps.
  { apply keeps_board_append, outer_rectangle_is_shape. }
  intros ?. destruct (all_cells cls) as [cells | ]; [ | apply triple_raise].
  eapply triple_bind; [apply draw_loop_texts |].
  intros locals. apply triple_ret. intros w1 Hw1. exists cells. auto.
Qed.

Lemma draw_board_texts_of fuel opts cls cells w w' :
  all_cells cls = Some cells ->
  draw_board cfg fuel opts cls w = Ok (tt, w') ->
  texts (board w') = loop_labels cfg opts None cells.
Proof.
  intros Hall Hrun.
  destruct (draw_board_texts fuel opts cls w w' Hrun) as (cells' & Hall' & Ht).
  rewrite Hall in Hall'. now injection Hall' as <-.
Qed.

(** *** The three label modes *)




(** *** The drawing returns when no decoration is asked for *)

Lemma returns_ret {S A} (P : S -> Prop) (a : A) (Q : A -> S -> Prop) :
  (forall s, P s -> Q a s) -> returns P (ret a) Q.
Proof. intros HQ s HP. exists a, s. split; [reflexivity | auto]. Qed.

Lemma returns_bind {S A B} (P : S -> Prop) (m : SE S A) (k : A -> SE S B) Q R :
  returns P m Q -> (forall a, returns (Q a) (k a) R) -> returns P (bind m k) R.
Proof.
  intros Hm Hk s HP. destruct (Hm s HP) as (a & s1 & Hrun & HQ).
  destruct (Hk a s1 HQ) as (b & s2 & Hrun2 & HR).
  exists b, s2. split; [ | exact HR]. unfold bind. now rewrite Hrun.
Qed.

Lemma returns_lift {S A} (P : S -> Prop) (r : result A) (a : A) :
  r = Ok a -> returns P (lift r) (fun _ => P).
Proof. intros -> s HP. exists a, s. auto. Qed.

Lemma returns_modify {S} (P : S -> Prop) (f : S -> S) (Q : unit -> S -> Prop) :
  (forall s, P s -> Q tt (f s)) -> returns P (modify f) Q.
Proof. intros HQ s HP. exists tt, (f s). split; [reflexivity | auto]. Qed.

Lemma returns_for_each {S A B} (I : S -> Prop) (xs : list A)
    (body : A -> B -> SE S B) (acc : B) :
  (forall x acc', x ∈ xs -> returns I (body x acc') (fun _ => I)) ->
  returns I (for_each xs body acc) (fun _ => I).
Proof.
  revert acc. induction xs as [ | x xs IH]; intros acc Hbody; simpl.
  - apply returns_ret. auto.
  - eapply returns_bind.
    + apply Hbody. left.
    + intros b. apply IH. intros y acc' Hy. apply Hbody. now right.
Qed.

Lemma polar_vertex_returns c r a :
  is_infinity a = false -> exists v, polar_vertex cfg c r a = Ok v.
Proof.
  intros Ha. unfold polar_vertex, math_cos, math_sin. rewrite Ha. simpl.
  eauto.
Qed.

Lemma polygon_ready_scale :
  polygon_ready cfg = true -> exists s, hexagon_scale cfg = Ok s.
Proof.
  unfold polygon_ready, hexagon_scale, float_div.
  intros [Hw _]%andb_prop. apply negb_true_iff in Hw. rewrite Hw. simpl. eauto.
Qed.

Lemma polygon_ready_angle i :
  polygon_ready cfg = true -> i ∈ seq 0 (hexagon_vertex_count cfg) ->
  is_infinity ((1 / 2 + fz (Z.of_nat i)) * hexagon_side_angle cfg)%float = false.
Proof.
  unfold polygon_ready. intros [_ Hall]%andb_prop Hi.
  rewrite forallb_forall in Hall. apply list_elem_of_In in Hi.
  apply Hall in Hi. now apply negb_true_iff in Hi.
Qed.

Lemma next_label_location_bound opts h previous :
  label_side h <> LabelNone ->
  exists l, next_label_location cfg opts h previous = Some l.
Proof.
  intros Hh. unfold next_label_location.
  destruct (without_labels opts); [eauto |].
  destruct (with_all_labels opts); [eauto |].
  destruct (label_side h) as [ | z | [ | | | ]]; eauto. now contradict Hh.
Qed.



(** *** The labels of the initialized catalog *)








End DrawFacts.

(** A run that returns leaves the world [world_after] names. *)
Lemma world_after_returns `{Random} (m : SE World unit) (w : World) :
  is_ok (m w) = true -> m w = Ok (tt, world_after m w).
Proof.
  unfold world_after. destruct (m w) as [[[] w'] | e | ]; simpl;
    [reflexivity | discriminate | discriminate].
Qed.





(** * Further properties of the code *)

(** ** The constructor and the lookups *)

Lemma compute_center_run cfg u v p :
  compute_center cfg u v = Ok p ->
  exists fu fv, float_of_int u = Ok fu /\ float_of_int v = Ok fv /\
    p = TinyVector.add (origin cfg)
          (TinyVector.scale
             (TinyVector.add (TinyVector.scale (unit_u cfg) fu)
                             (TinyVector.scale (unit_v cfg) fv))
             (hexagon_width cfg)).
Proof.
  unfold compute_center, TinyVector.__rmul__, TinyVector.__mul__,
    TinyVector.__add__. cbn [TinyVector.is_int_or_float TinyVector.to_float rbind].
  destruct (float_of_int u) as [fu | e | ]; cbn [rbind]; try discriminate.
  destruct (float_of_int v) as [fv | e | ]; cbn [rbind]; try discriminate.
  intros [= <-]. eauto.
Qed.

(** X1.  The constructor refuses, with [AssertionError], a name that is
    already registered, a position that is already registered, and a
    name that is not two characters long. *)
Theorem constructor_rejects cfg n p r l cls :
  is_Some (__name_to_hexagon cls !! n) \/
  is_Some (__position_uv_to_hexagon cls !! p) \/
  String.length n <> 2 ->
  Hexagon__init__ cfg n p r l cls = Raise AssertionError.
Proof.
  intros Hbad.
  unfold Hexagon__init__, bind, get_state, assert, ret, raise.
  destruct (bool_decide (__name_to_hexagon cls !! n = None)) eqn:Hn;
    [ | reflexivity].
  destruct (bool_decide (__position_uv_to_hexagon cls !! p = None)) eqn:Hp;
    [ | reflexivity].
  destruct (String.length n =? 2)%nat eqn:Hlen; [ | reflexivity].
  apply bool_decide_eq_true in Hn, Hp. apply Nat.eqb_eq in Hlen.
  destruct Hbad as [[a Ha] | [[a Ha] | Hne]]; congruence.
Qed.

Lemma constructor_rejects_witness :
  Hexagon__init__ series_config "d4" (9, 9)%Z 9 (LabelInt 0)
    (initialized series_config) = Raise AssertionError /\
  Hexagon__init__ series_config "z9" (0, 0)%Z 9 (LabelInt 0)
    (initialized series_config) = Raise AssertionError /\
  Hexagon__init__ series_config "center" (9, 9)%Z 9 (LabelInt 0)
    (initialized series_config) = Raise AssertionError.
Proof.
  split; [ | split]; apply constructor_rejects.
  - left. vm_compute. eauto.
  - right. left. vm_compute. eauto.
  - right. right. vm_compute. discriminate.
Defined.

(** X2.  A constructor call that returns has registered a new instance
    with the given fields and no index under its name and under its
    position; [Hexagon.get] finds it; every other name and position
    leads where it led before; and the new instance is in no list, so
    [get_all()] does not show it. *)
Theorem constructor_registers cfg n p r l cls a cls' :
  Hexagon__init__ cfg n p r l cls = Ok (a, cls') ->
  get n cls' = Ok (a, cls') /\
  __position_uv_to_hexagon cls' !! p = Some a /\
  (exists c, compute_center cfg (fst p) (snd p) = Ok c /\
     instances cls' !! a
       = Some {| name := n; position_uv := p; ring := r; label_side := l;
                 index := None; center := c |}) /\
  (forall n', n' <> n ->
     __name_to_hexagon cls' !! n' = __name_to_hexagon cls !! n') /\
  (forall p', p' <> p ->
     __position_uv_to_hexagon cls' !! p' = __position_uv_to_hexagon cls !! p') /\
  (forall a' h, instances cls !! a' = Some h -> instances cls' !! a' = Some h) /\
  list_objects cls' = list_objects cls /\
  __all_sorted_hexagons cls' = __all_sorted_hexagons cls /\
  all cls' = all cls.
Proof.
  intros Hrun.
  apply Hexagon__init___run in Hrun as (Hn & Hp & -> & c & Hc & ->).
  cbn [instances list_objects __all_sorted_hexagons all
       __name_to_hexagon __position_uv_to_hexagon].
  split.
  { unfold get, bind, get_state. cbn [__name_to_hexagon].
    now rewrite lookup_insert_eq. }
  split; [apply lookup_insert_eq |].
  split.
  { exists c. split; [exact Hc |]. apply list_lookup_middle. reflexivity. }
  split; [intros n' Hne; now apply lookup_insert_ne |].
  split; [intros p' Hne; now apply lookup_insert_ne |].
  split; [ | auto].
  intros a' h Hh. rewrite lookup_app_l; [exact Hh |].
  eapply lookup_lt_Some; eauto.
Qed.

Lemma constructor_registers_witness :
  exists a cls',
    Hexagon__init__ series_config "z9" (9, 9)%Z 9 LabelNone class_body
      = Ok (a, cls') /\
    get "z9" cls' = Ok (a, cls').
Proof.
  eexists _, _. split; [vm_compute; reflexivity |].
  refine (proj1 (constructor_registers series_config "z9" (9, 9)%Z 9 LabelNone
                   class_body _ _ _)).
  vm_compute. reflexivity.
Defined.

(** ** [draw_board] and the class *)

Section DrawAndClass.
Context `{Libm} `{Random}.
Context (cfg : BoardConfig).

Lemma draw_board_reads_all fuel opts cls1 cls2 :
  all_cells cls1 = all_cells cls2 ->
  draw_board cfg fuel opts cls1 = draw_board cfg fuel opts cls2.
Proof. unfold draw_board. now intros ->. Qed.

(** X3.  [draw_board] reads the class through [Hexagon.all] only: after
    a [reset] it draws exactly what it drew before, and on a class that
    was never initialized ([all] is [None]) it raises [TypeError]. *)
Theorem draw_board_after_reset fuel opts cls (w : World) :
  (exists cls', reset cls = Ok (tt, cls') /\
     draw_board cfg fuel opts cls' w = draw_board cfg fuel opts cls w) /\
  draw_board cfg fuel opts class_body w = Raise TypeError.
Proof.
  split; [ | reflexivity].
  destruct (reset_clears cls) as (cls' & Hrun & _ & _ & _ & _ & _ & _ & Hcells).
  exists cls'. split; [exact Hrun |].
  now rewrite (draw_board_reads_all fuel opts cls' cls Hcells).
Qed.

(** One round of the loop returns only with [label_location] bound. *)
Lemma draw_hexagon_binds fuel opts h locals :
  triple (fun _ : World => True) (draw_hexagon cfg fuel opts h locals)
    (fun locals' _ =>
       label_location locals'
         = next_label_location cfg opts h (label_location locals) /\
       label_location locals' <> None).
Proof.
  unfold draw_hexagon.
  eapply triple_bind with (Q := fun _ _ => True); [now intros ? ? ? ? ? | intros scale].
  eapply triple_bind with (Q := fun _ _ => True); [now intros ? ? ? ? ? | intros [vs c]].
  eapply triple_bind with (Q := fun _ _ => True); [now intros ? ? ? ? ? | intros ?].
  eapply triple_bind with (Q := fun _ _ => True); [now intros ? ? ? ? ? | intros ?].
  eapply triple_bind with (Q := fun _ _ => True); [now intros ? ? ? ? ? | intros ?].
  cbv zeta.
  destruct (next_label_location cfg opts h (label_location locals))
    as [l | ] eqn:Hnext; cbn [read_local].
  - apply triple_bind_ret.
    eapply triple_bind with (Q := fun _ _ => True); [now intros ? ? ? ? ? | intros ?].
    apply triple_ret. intros ? _. cbn [label_location]. split; [reflexivity | discriminate].
  - intros ? ? ? _ Hrun. discriminate Hrun.
Qed.

Lemma default_mode_keeps_location opts h previous :
  without_labels opts = false -> with_all_labels opts = false ->
  label_side h = LabelNone ->
  next_label_location cfg opts h previous = previous.
Proof.
  intros Hno Hall Hside. unfold next_label_location.
  now rewrite Hno, Hall, Hside.
Qed.

Lemma raises_bind_returns {S A B} (P : S -> Prop) (m : SE S A)
    (k : A -> SE S B) Q e :
  returns P m Q -> (forall a, raises (Q a) (k a) e) -> raises P (bind m k) e.
Proof.
  intros Hm Hk s HP. destruct (Hm s HP) as (a & s1 & Hrun & HQ).
  unfold bind. rewrite Hrun. now apply Hk.
Qed.

Lemma raises_bind {S A B} (P : S -> Prop) (m : SE S A) (k : A -> SE S B) e :
  raises P m e -> raises P (bind m k) e.
Proof. intros Hm s HP. unfold bind. now rewrite (Hm s HP). Qed.

Lemma draw_hexagon_unbound fuel opts h locals :
  polygon_ready cfg = true -> with_decoration opts = false ->
  next_label_location cfg opts h (label_location locals) = None ->
  raises anything (draw_hexagon cfg fuel opts h locals) UnboundLocalError.
Proof.
  intros Hready Hplain Hnext. unfold draw_hexagon.
  destruct (polygon_ready_scale cfg Hready) as [s Hs].
  eapply raises_bind_returns; [eapply returns_lift, Hs | intros scale].
  eapply raises_bind_returns with (Q := fun _ => anything).
  { apply returns_for_each. intros i [vs c] Hi.
    destruct (polar_vertex_returns cfg (center h)
                (scale * hexagon_side cfg)%float _
                (polygon_ready_angle cfg i Hready Hi)) as [v Hv].
    eapply returns_bind; [eapply returns_lift, Hv | intros v'].
    apply returns_ret. auto. }
  intros [vertices c].
  eapply raises_bind_returns with (Q := fun _ => anything).
  { apply returns_modify. exact (fun _ _ => I). }
  intros ?. rewrite Hplain. cbn [andb].
  eapply raises_bind_returns with (Q := fun _ => anything);
    [apply returns_ret; auto | intros ?].
  eapply raises_bind_returns with (Q := fun _ => anything);
    [apply returns_ret; auto | intros ?].
  cbv zeta. rewrite Hnext. now intros w _.
Qed.

(** X4.  In the default label mode a cell whose [label_side] is [None]
    leaves the variable [label_location] unassigned: when it is the
    first cell of [Hexagon.all], no call of [draw_board] returns,
    whatever the decoration; without decoration, on a configuration
    whose polygons can be computed, the call raises
    [UnboundLocalError]. *)
Theorem draw_board_unbound_label fuel opts cls h rest (w : World) :
  without_labels opts = false -> with_all_labels opts = false ->
  all_cells cls = Some (h :: rest) -> label_side h = LabelNone ->
  is_ok (draw_board cfg fuel opts cls w) = false /\
  (polygon_ready cfg = true -> with_decoration opts = false ->
   draw_board cfg fuel opts cls w = Raise UnboundLocalError).
Proof.
  intros Hno Hall Hcells Hside. split.
  - destruct (draw_board cfg fuel opts cls w) as [[u w'] | e | ] eqn:Hrun;
      [exfalso | reflexivity | reflexivity].
    cut (triple (fun _ : World => True) (draw_board cfg fuel opts cls)
           (fun _ _ => False)).
    { intros Htriple. exact (Htriple w u w' I Hrun). }
    unfold draw_board. rewrite Hcells.
    eapply triple_bind with (Q := fun _ _ => True); [now intros ? ? ? ? ? | intros ?].
    eapply triple_bind with (Q := fun _ _ => True); [now intros ? ? ? ? ? | intros ?].
    eapply triple_bind with (Q := fun _ _ => False); [ | intros ? ? ? ? []].
    cbn [for_each]. eapply triple_bind; [apply draw_hexagon_binds |].
    intros locals' ? ? ? [Hloc Hbound]. exfalso. apply Hbound.
    rewrite Hloc. cbn [label_location].
    now apply default_mode_keeps_location.
  - intros Hready Hplain.
    cut (raises anything (draw_board cfg fuel opts cls) UnboundLocalError).
    { intros Hraises. now apply Hraises. }
    unfold draw_board. rewrite Hcells.
    eapply raises_bind_returns with (Q := fun _ => anything);
      [apply returns_modify; exact (fun _ _ => I) | intros ?].
    eapply raises_bind_returns with (Q := fun _ => anything);
      [apply returns_modify; exact (fun _ _ => I) | intros ?].
    apply raises_bind. cbn [for_each]. apply raises_bind.
    apply draw_hexagon_unbound; try assumption.
    cbn [label_location]. now apply default_mode_keeps_location.
Qed.

Lemma loop_labels_app opts xs : forall previous ys,
  loop_labels cfg opts previous (xs ++ ys)
  = loop_labels cfg opts previous xs
    ++ loop_labels cfg opts
         (foldl (fun location h => next_label_location cfg opts h location)
                previous xs) ys.
Proof.
  induction xs as [ | x xs IH]; intros previous ys; simpl; [reflexivity |].
  now rewrite IH, app_assoc.
Qed.

(** X5.  In the default label mode a cell whose [label_side] is [None]
    inherits the label location of the cell before it: after a cell
    tagged [Side.WEST], the drawing holds the text of the tagged cell
    and, right after it, a text with the name of the untagged cell at
    the very same place. *)
Theorem draw_board_stale_label fuel opts cls before h1 h2 after (w w' : World) :
  without_labels opts = false -> with_all_labels opts = false ->
  all_cells cls = Some (before ++ h1 :: h2 :: after) ->
  label_side h1 = LabelSide WEST -> label_side h2 = LabelNone ->
  draw_board cfg fuel opts cls w = Ok (tt, w') ->
  exists texts_before texts_after,
    texts (board w')
    = texts_before
      ++ [ label_text cfg h1
             (TinyVector.sub (center h1) (label_horizontal_shift cfg));
           label_text cfg h2
             (TinyVector.sub (center h1) (label_horizontal_shift cfg)) ]
      ++ texts_after.
Proof.
  intros Hno Hall Hcells Hwest Hnone Hrun.
  rewrite (draw_board_texts_of cfg fuel opts cls _ w w' Hcells Hrun).
  rewrite loop_labels_app. eexists _, _. f_equal.
  cbn [loop_labels].
  assert (Hloc1 : forall previous,
            next_label_location cfg opts h1 previous
            = Some (Some (TinyVector.sub (center h1)
                            (label_horizontal_shift cfg)))).
  { intros previous. unfold next_label_location. now rewrite Hno, Hall, Hwest. }
  rewrite Hloc1.
  rewrite (default_mode_keeps_location opts h2 _ Hno Hall Hnone).
  cbn [emitted_label app]. reflexivity.
Qed.

End DrawAndClass.

Lemma draw_board_unbound_label_witness :
  is_ok (@draw_board series_libm lcg_random series_config 10 default_options
           unlabelled_class series_start) = false /\
  @draw_board series_libm lcg_random series_config 10 default_options
    unlabelled_class series_start = Raise UnboundLocalError.
Proof.
  assert (Hcells : exists h rest,
            all_cells unlabelled_class = Some (h :: rest) /\
            label_side h = LabelNone).
  { eexists _, _. split; vm_compute; reflexivity. }
  destruct Hcells as (h & rest & Hcells & Hside).
  destruct (@draw_board_unbound_label series_libm lcg_random series_config 10
              default_options unlabelled_class h rest series_start
              eq_refl eq_refl Hcells Hside) as [Hnot Hraise].
  split; [exact Hnot |]. apply Hraise; [vm_compute; reflexivity | reflexivity].
Defined.

Lemma draw_board_stale_label_witness :
  exists h1 h2 texts_before texts_after,
    label_side h1 = LabelSide WEST /\ label_side h2 = LabelNone /\
    texts (board half_labelled_world)
    = texts_before
      ++ [ label_text series_config h1
             (TinyVector.sub (center h1) (label_horizontal_shift series_config));
           label_text series_config h2
             (TinyVector.sub (center h1) (label_horizontal_shift series_config)) ]
      ++ texts_after.
Proof.
  assert (Hcells : exists h1 h2,
            all_cells half_labelled_class = Some ([] ++ h1 :: h2 :: []) /\
            label_side h1 = LabelSide WEST /\ label_side h2 = LabelNone).
  { eexists _, _. split; [vm_compute; reflexivity |].
    split; vm_compute; reflexivity. }
  destruct Hcells as (h1 & h2 & Hcells & Hwest & Hnone).
  exists h1, h2.
  destruct (@draw_board_stale_label series_libm lcg_random series_config 10
              default_options half_labelled_class [] h1 h2 [] series_start
              half_labelled_world eq_refl eq_refl Hcells Hwest Hnone)
    as (texts_before & texts_after & Htexts).
  - apply (@world_after_returns lcg_random half_labelled_run series_start).
    vm_compute. reflexivity.
  - exists texts_before, texts_after. auto.
Defined.

(** ** [make_board_config] *)

Section Configuration.
Context `{Libm}.


End Configuration.



(** ** What the drawing code appends *)

Section Appends.
Context `{Libm} `{Random}.
Context (cfg : BoardConfig).

Lemma appends_weaken {A} (m : SE World A) (Q Q' : A -> list element -> Prop) :
  appends m Q -> (forall a extra, Q a extra -> Q' a extra) -> appends m Q'.
Proof.
  intros Hm HQ base w a w' Hw Hrun.
  destruct (Hm base w a w' Hw Hrun) as (extra & He & Hq). eauto.
Qed.

Lemma appends_ret {A} (a : A) (Q : A -> list element -> Prop) :
  Q a [] -> appends (ret a) Q.
Proof.
  intros HQ base w a' w' Hw [= <- <-]. exists []. now rewrite app_nil_r.
Qed.

Lemma appends_raise {A} e (Q : A -> list element -> Prop) :
  appends (@raise World A e) Q.
Proof. intros base w a w' _ [=]. Qed.

Lemma appends_lift {A} (r : result A) (Q : A -> list element -> Prop) :
  (forall a, r = Ok a -> Q a []) -> appends (lift r) Q.
Proof.
  intros HQ base w a w' Hw. unfold lift.
  destruct r as [a0 | e | ]; intros [=]; subst.
  exists []. rewrite app_nil_r. auto.
Qed.

Lemma appends_draw_random {A} (f : rng -> A * rng)
    (Q : A -> list element -> Prop) :
  (forall a, Q a []) -> appends (draw_random f) Q.
Proof.
  intros HQ base w a w' Hw. unfold draw_random.
  destruct (f (random_state w)) as [a0 g]. intros [= <- <-].
  exists []. rewrite app_nil_r. auto.
Qed.

Lemma appends_read_local {A} (v : option A) (Q : A -> list element -> Prop) :
  (forall a, v = Some a -> Q a []) -> appends (read_local v) Q.
Proof.
  intros HQ. destruct v as [a | ]; [apply appends_ret; auto | apply appends_raise].
Qed.

Lemma appends_board_append e (Q : unit -> list element -> Prop) :
  Q tt [e] -> appends (board_append e) Q.
Proof.
  intros HQ base w a w' Hw [= <- <-]. exists [e].
  cbn [board drawing_elements]. now rewrite Hw.
Qed.

Lemma appends_bind {A B} (m : SE World A) (k : A -> SE World B)
    (Q1 : A -> list element -> Prop)
    (Q2 : A -> list element -> B -> list element -> Prop)
    (R : B -> list element -> Prop) :
  appends m Q1 ->
  (forall a x, Q1 a x -> appends (k a) (Q2 a x)) ->
  (forall a x b y, Q1 a x -> Q2 a x b y -> R b (x ++ y)) ->
  appends (bind m k) R.
Proof.
  intros Hm Hk HR base w b w' Hw. unfold bind.
  destruct (m w) as [[a w1] | e | ] eqn:Hrun1; try discriminate.
  intros Hrun2.
  destruct (Hm base w a w1 Hw Hrun1) as (x & Hx & Hq1).
  destruct (Hk a x Hq1 (base ++ x) w1 b w' Hx Hrun2) as (y & Hy & Hq2).
  exists (x ++ y). rewrite app_assoc. eauto.
Qed.

(** A loop whose rounds keep an invariant of the loop-carried value and
    append a chunk each. *)
Lemma appends_for_each {A B} (Inv : B -> Prop)
    (P : A -> list element -> Prop) (body : A -> B -> SE World B) :
  forall (xs : list A) (acc : B),
  Inv acc ->
  (forall x acc', x ∈ xs -> Inv acc' ->
     appends (body x acc') (fun acc'' extra => Inv acc'' /\ P x extra)) ->
  appends (for_each xs body acc)
    (fun acc' extra =>
       Inv acc' /\
       exists chunks, extra = concat chunks /\ Forall2 P xs chunks).
Proof.
  induction xs as [ | x xs IH]; intros acc Hinv Hbody; simpl.
  - apply appends_ret. split; [exact Hinv |].
    exists []. split; [reflexivity | constructor].
  - eapply appends_bind.
    + apply (Hbody x acc); [left | exact Hinv].
    + intros acc1 chunk [Hinv1 Hchunk].
      apply (IH acc1 Hinv1). intros y acc' Hy. apply Hbody. now right.
    + intros acc1 chunk acc2 rest [Hinv1 Hchunk] [Hinv2 (chunks & -> & Hall)].
      cbv beta. split; [exact Hinv2 |].
      exists (chunk :: chunks). split; [reflexivity | now constructor].
Qed.

(** The same for [range], with an invariant that follows the index. *)
Lemma appends_for_seq {B} (Inv : nat -> B -> Prop)
    (P : nat -> list element -> Prop) (body : nat -> B -> SE World B) :
  forall n start acc,
  Inv start acc ->
  (forall i acc', start <= i < start + n -> Inv i acc' ->
     appends (body i acc') (fun acc'' extra => Inv (S i) acc'' /\ P i extra)) ->
  appends (for_each (seq start n) body acc)
    (fun acc' extra =>
       Inv (start + n) acc' /\
       exists chunks, extra = concat chunks /\ Forall2 P (seq start n) chunks).
Proof.
  induction n as [ | n IH]; intros start acc Hinv Hbody; simpl.
  - apply appends_ret. rewrite Nat.add_0_r. split; [exact Hinv |].
    exists []. split; [reflexivity | constructor].
  - eapply appends_bind.
    + apply (Hbody start acc); [lia | exact Hinv].
    + intros acc1 chunk [Hinv1 Hchunk].
      apply (IH (S start) acc1 Hinv1). intros i acc' Hi. apply Hbody. lia.
    + intros acc1 chunk acc2 rest [Hinv1 Hchunk] [Hinv2 (chunks & -> & Hall)].
      cbv beta. replace (start + S n) with (S start + n) by lia.
      split; [exact Hinv2 |].
      exists (chunk :: chunks). split; [reflexivity | now constructor].
Qed.

Lemma appends_for_range {B} (Inv : nat -> B -> Prop)
    (P : nat -> list element -> Prop) (body : nat -> B -> SE World B) n acc :
  Inv 0 acc ->
  (forall i acc', i < n -> Inv i acc' ->
     appends (body i acc') (fun acc'' extra => Inv (S i) acc'' /\ P i extra)) ->
  appends (for_range n body acc)
    (fun acc' extra =>
       Inv n acc' /\
       exists chunks, extra = concat chunks /\ Forall2 P (seq 0 n) chunks).
Proof.
  intros Hinv Hbody. unfold for_range.
  apply (appends_for_seq Inv P body n 0 acc Hinv).
  intros i acc' Hi. apply Hbody. lia.
Qed.

(** A rejection loop that appends nothing hands on what its body
    accepts. *)
Lemma appends_while_true {A} fuel (body : SE World (option A)) (Q : A -> Prop) :
  appends body (fun r extra => extra = [] /\ forall a, r = Some a -> Q a) ->
  appends (while_true fuel body) (fun a extra => extra = [] /\ Q a).
Proof.
  intros Hbody. induction fuel as [ | fuel IH]; simpl.
  - intros base w a w' _ [=].
  - eapply appends_bind with (Q2 := fun _ _ a extra => extra = [] /\ Q a).
    + exact Hbody.
    + intros r x [-> Hr]. destruct r as [a | ].
      * apply appends_ret. split; [reflexivity | now apply Hr].
      * exact IH.
    + intros r x a y [-> _] Hy. exact Hy.
Qed.

Lemma quiet_ret {A} (a : A) : quiet (ret a).
Proof. apply appends_ret. reflexivity. Qed.

Lemma quiet_raise {A} e : quiet (@raise World A e).
Proof. apply appends_raise. Qed.

Lemma quiet_lift {A} (r : result A) : quiet (lift r).
Proof. apply appends_lift. reflexivity. Qed.

Lemma quiet_draw_random {A} (f : rng -> A * rng) : quiet (draw_random f).
Proof. apply appends_draw_random. reflexivity. Qed.

Lemma quiet_bind {A B} (m : SE World A) (k : A -> SE World B) :
  quiet m -> (forall a, quiet (k a)) -> quiet (bind m k).
Proof.
  intros Hm Hk.
  eapply appends_bind with (Q2 := fun _ _ _ extra => extra = []).
  - exact Hm.
  - intros a x _. apply Hk.
  - intros a x b y -> ->. reflexivity.
Qed.

Lemma quiet_for_each {A B} (xs : list A) (body : A -> B -> SE World B) acc :
  (forall x acc', quiet (body x acc')) -> quiet (for_each xs body acc).
Proof.
  intros Hbody. revert acc. induction xs as [ | x xs IH]; intros acc; simpl.
  - apply quiet_ret.
  - apply quiet_bind; [apply Hbody | intros b; apply IH].
Qed.

(** Quiet code followed by code with a result. *)
Lemma appends_after_quiet {A B} (m : SE World A) (k : A -> SE World B)
    (Q : B -> list element -> Prop) :
  quiet m -> (forall a, appends (k a) Q) -> appends (bind m k) Q.
Proof.
  intros Hm Hk.
  eapply appends_bind with (Q2 := fun _ _ b extra => Q b extra).
  - exact Hm.
  - intros a x _. apply Hk.
  - intros a x b y -> Hq. exact Hq.
Qed.

Ltac quiet_step :=
  lazymatch goal with
  | |- quiet (ret _) => apply quiet_ret
  | |- quiet (raise _) => apply quiet_raise
  | |- quiet (lift _) => apply quiet_lift
  | |- quiet (draw_random _) => apply quiet_draw_random
  | |- quiet (for_range _ _ _) => apply quiet_for_each; intros
  | |- quiet (for_each _ _ _) => apply quiet_for_each; intros
  | |- quiet (bind _ _) => apply quiet_bind; [ | intros ]
  | |- quiet (let _ := _ in _) => cbv zeta
  | |- quiet (if ?b then _ else _) => destruct b
  | |- quiet (match ?x with _ => _ end) => destruct x
  | |- quiet (match ?x with _ => _ end _) => destruct x; cbv beta
  end.
Ltac quiet_code := repeat quiet_step.

Lemma quiet_sample_two vs : quiet (sample_two vs).
Proof. unfold sample_two. quiet_code. Qed.

(** What the rejection test lets through. *)
Lemma break_or_retry_clear c radius b0 b1 t u edges :
  break_or_retry c radius (chord_segment b0 b1 t u) = Some edges ->
  clear_segment cfg c radius (segment cfg (flatten_points edges)).
Proof.
  unfold break_or_retry, chord_segment.
  set (p := TinyVector.add _ _). set (q := TinyVector.add _ _).
  destruct radius as [radius | ].
  - destruct (validated c radius [p; q]) eqn:Hv; [ | discriminate].
    intros [= <-]. exists p, q. split; [reflexivity |].
    unfold validated in Hv. cbn [forallb] in Hv.
    apply andb_prop in Hv as [Hp Hq]. apply andb_prop in Hq as [Hq _].
    now apply negb_true_iff in Hp, Hq.
  - intros [= <-]. exists p, q. split; [reflexivity | exact I].
Qed.

Lemma singleton_chunks {A} (P : element -> Prop) (xs : list A)
    (chunks : list (list element)) :
  Forall2 (fun _ chunk => exists e, chunk = [e] /\ P e) xs chunks ->
  length (concat chunks) = length xs /\ Forall P (concat chunks).
Proof.
  induction 1 as [ | x chunk xs chunks (e & -> & He) _ [IHl IHf]]; simpl.
  - split; [reflexivity | constructor].
  - split; [now rewrite IHl | now constructor].
Qed.

(** The common end of the two rejection-sampling textures: a segment is
    appended for what the loop let through. *)
Lemma appends_sampled_segment fuel c radius
    (body : SE World (option (list TinyVector))) :
  appends body
    (fun r extra => extra = [] /\
       forall edges, r = Some edges ->
         clear_segment cfg c radius (segment cfg (flatten_points edges))) ->
  appends (bind (while_true fuel body)
             (fun segment_edges =>
                board_append (segment cfg (flatten_points segment_edges))))
    (fun _ chunk => exists e, chunk = [e] /\ clear_segment cfg c radius e).
Proof.
  intros Hbody.
  eapply appends_bind
    with (Q2 := fun edges _ _ chunk =>
                  chunk = [segment cfg (flatten_points edges)]).
  - apply appends_while_true
      with (Q := fun edges =>
                   clear_segment cfg c radius
                     (segment cfg (flatten_points edges))).
    exact Hbody.
  - intros edges x _. apply appends_board_append. reflexivity.
  - intros edges x [] y [-> Hclear] ->. eauto.
Qed.

Lemma uniform_texture_appends fuel c vs n radius :
  appends (draw_uniform_texture cfg fuel c vs n radius)
    (fun _ extra => length extra = n /\
                    Forall (clear_segment cfg c radius) extra).
Proof.
  unfold draw_uniform_texture.
  apply appends_after_quiet; [apply quiet_lift | intros v0]. cbv zeta.
  eapply appends_weaken.
  - apply appends_for_range
      with (Inv := fun _ _ => True)
           (P := fun _ chunk =>
                   exists e, chunk = [e] /\ clear_segment cfg c radius e);
      [exact I |].
    intros i acc _ _. eapply appends_weaken.
    + apply appends_sampled_segment.
      apply appends_after_quiet; [quiet_code; apply quiet_sample_two |].
      intros border_points.
      apply appends_after_quiet; [apply quiet_lift | intros b0].
      apply appends_after_quiet; [apply quiet_lift | intros b1].
      cbv zeta.
      apply appends_after_quiet; [apply quiet_draw_random | intros t].
      apply appends_after_quiet; [apply quiet_draw_random | intros r].
      apply appends_after_quiet; [apply quiet_lift | intros u].
      apply appends_ret. split; [reflexivity |].
      intros edges. apply break_or_retry_clear.
    + intros a extra Hchunk. split; [exact I | exact Hchunk].
  - intros a extra [_ (chunks & -> & Hall)].
    apply singleton_chunks in Hall. now rewrite length_seq in Hall.
Qed.

Lemma concentrated_texture_appends fuel c vs n radius :
  appends (draw_concentrated_texture cfg fuel c vs n radius)
    (fun _ extra => length extra = n /\
                    Forall (clear_segment cfg c radius) extra).
Proof.
  unfold draw_concentrated_texture.
  apply appends_after_quiet; [apply quiet_lift | intros v0]. cbv zeta.
  eapply appends_weaken.
  - apply appends_for_range
      with (Inv := fun _ _ => True)
           (P := fun _ chunk =>
                   exists e, chunk = [e] /\ clear_segment cfg c radius e);
      [exact I |].
    intros i acc _ _. eapply appends_weaken.
    + apply appends_sampled_segment.
      apply appends_after_quiet; [apply quiet_draw_random | intros vertex_index].
      apply appends_after_quiet; [apply quiet_lift | intros va].
      apply appends_after_quiet; [apply quiet_lift | intros vb].
      apply appends_after_quiet; [apply quiet_draw_random | intros p].
      cbv zeta.
      apply appends_after_quiet; [apply quiet_lift | intros va'].
      apply appends_after_quiet; [apply quiet_lift | intros vb'].
      apply appends_after_quiet; [apply quiet_draw_random | intros p'].
      cbv zeta.
      apply appends_after_quiet; [apply quiet_draw_random | intros t].
      apply appends_after_quiet; [apply quiet_draw_random | intros r].
      apply appends_after_quiet; [apply quiet_lift | intros u].
      apply appends_ret. split; [reflexivity |].
      intros edges. apply break_or_retry_clear.
    + intros a extra Hchunk. split; [exact I | exact Hchunk].
  - intros a extra [_ (chunks & -> & Hall)].
    apply singleton_chunks in Hall. now rewrite length_seq in Hall.
Qed.

(** X7.  A call of [draw_uniform_texture] or of
    [draw_concentrated_texture] that returns has appended exactly
    [segment_count] segments, each between two points, and with a
    masking radius both ends of every segment are at least that far from
    the center of the cell. *)
Theorem textures_respect_mask fuel c vs n radius :
  appends (draw_uniform_texture cfg fuel c vs n radius)
    (fun _ extra => length extra = n /\
                    Forall (clear_segment cfg c radius) extra) /\
  appends (draw_concentrated_texture cfg fuel c vs n radius)
    (fun _ extra => length extra = n /\
                    Forall (clear_segment cfg c radius) extra).
Proof.
  split; [apply uniform_texture_appends | apply concentrated_texture_appends].
Qed.

(** *** The gradient texture *)

Lemma getitem_in_range {A} (l : list A) (i : Z) :
  (0 <= i < Z.of_nat (length l))%Z -> exists a, getitem l i = Ok a.
Proof.
  intros Hi. unfold getitem.
  destruct (i <? 0)%Z eqn:Hneg; [lia |].
  replace ((0 <=? i) && (i <? Z.of_nat (length l)))%Z with true
    by (symmetry; apply andb_true_intro; split; lia).
  destruct (l !! Z.to_nat i) as [a | ] eqn:Hl; [eauto |].
  apply lookup_ge_None in Hl. lia.
Qed.

Lemma returns_draw_random {A} (f : rng -> A * rng) (P : World -> Prop) :
  returns P (draw_random f) (fun a _ => exists g, a = fst (f g)).
Proof.
  intros w _. unfold draw_random.
  destruct (f (random_state w)) as [a g] eqn:Hf.
  eexists a, _. split; [reflexivity |]. exists (random_state w). now rewrite Hf.
Qed.

Lemma returns_weaken {S A} (P : S -> Prop) (m : SE S A)
    (Q Q' : A -> S -> Prop) :
  returns P m Q -> (forall a s, Q a s -> Q' a s) -> returns P m Q'.
Proof.
  intros Hm HQ s HP. destruct (Hm s HP) as (a & s' & Hrun & Hq). eauto.
Qed.

Lemma gradient_texture_returns c vs n :
  length vs = 6 -> randrange_in_range 6 ->
  returns anything (draw_gradient_texture cfg c vs n) (fun _ => anything).
Proof.
  intros Hvs Hrange. unfold draw_gradient_texture.
  apply returns_for_each. intros i acc _.
  eapply returns_bind; [apply returns_draw_random | intros i1].
  intros w [g ->].
  match goal with
  | |- exists a s', ?m w = _ /\ _ =>
      cut (returns anything m (fun _ => anything));
        [intros Hk; exact (Hk w I) | ]
  end.
  cbv zeta. pose proof (Hrange g) as Hg.
  destruct (getitem_in_range vs (fst (random_randrange 6 g))) as [v1 Hv1];
    [rewrite Hvs; lia |].
  destruct (getitem_in_range vs ((fst (random_randrange 6 g) + 1) mod 6)%Z)
    as [v2 Hv2];
    [rewrite Hvs; pose proof (Z.mod_pos_bound (fst (random_randrange 6 g) + 1) 6);
     lia |].
  eapply returns_bind; [eapply returns_lift, Hv1 | intros ?].
  eapply returns_bind; [eapply returns_lift, Hv2 | intros ?].
  eapply returns_bind with (Q := fun _ => anything);
    [eapply returns_weaken; [apply returns_draw_random | now intros] | intros p].
  cbv zeta.
  eapply returns_bind with (Q := fun _ => anything);
    [eapply returns_weaken; [apply returns_draw_random | now intros] | intros t].
  eapply returns_bind with (Q := fun _ => anything);
    [eapply returns_weaken; [apply returns_draw_random | now intros] | intros wd].
  cbv zeta. apply returns_modify. exact (fun _ _ => I).
Qed.

Lemma gradient_texture_appends c vs n :
  appends (draw_gradient_texture cfg c vs n)
    (fun _ extra => length extra = n /\
                    Forall (clear_segment cfg c None) extra).
Proof.
  unfold draw_gradient_texture. eapply appends_weaken.
  - apply appends_for_range
      with (Inv := fun _ _ => True)
           (P := fun _ chunk =>
                   exists e, chunk = [e] /\ clear_segment cfg c None e);
      [exact I |].
    intros i acc _ _.
    apply appends_after_quiet; [apply quiet_draw_random | intros i1]. cbv zeta.
    apply appends_after_quiet; [apply quiet_lift | intros v1].
    apply appends_after_quiet; [apply quiet_lift | intros v2].
    apply appends_after_quiet; [apply quiet_draw_random | intros p]. cbv zeta.
    apply appends_after_quiet; [apply quiet_draw_random | intros t].
    apply appends_after_quiet; [apply quiet_draw_random | intros wd]. cbv zeta.
    apply appends_board_append. split; [exact I |].
    eexists. split; [reflexivity |]. eexists _, _. split; [reflexivity | exact I].
  - intros a extra [_ (chunks & -> & Hall)].
    apply singleton_chunks in Hall. now rewrite length_seq in Hall.
Qed.

(** X8.  On the six vertices of a cell and with a [randrange] that stays
    in range, [draw_gradient_texture] returns, having appended exactly
    [segment_count] segments. *)
Theorem gradient_texture_draws_segments c vs n (w : World) :
  length vs = 6 -> randrange_in_range 6 ->
  exists w' extra,
    draw_gradient_texture cfg c vs n w = Ok (tt, w') /\
    drawing_elements (board w') = drawing_elements (board w) ++ extra /\
    length extra = n /\ Forall (clear_segment cfg c None) extra.
Proof.
  intros Hvs Hrange.
  destruct (gradient_texture_returns c vs n Hvs Hrange w I)
    as ([] & w' & Hrun & _).
  destruct (gradient_texture_appends c vs n _ w tt w' eq_refl Hrun)
    as (extra & Hextra & Hlen & Hall).
  exists w', extra. auto.
Qed.

End Appends.

Lemma lcg_randrange_in_range : @randrange_in_range lcg_random 6.
Proof.
  intros g. cbn [random_randrange lcg_random fst].
  apply Z.mod_pos_bound. lia.
Qed.

Lemma gradient_texture_draws_segments_witness :
  exists w' extra,
    gradient_texture_run series_start = Ok (tt, w') /\
    drawing_elements (board w') = drawing_elements (board series_start) ++ extra /\
    length extra = 5 /\
    Forall (clear_segment series_config TinyVector.zero None) extra.
Proof.
  apply (@gradient_texture_draws_segments lcg_random series_config
           TinyVector.zero sample_vertices 5 series_start).
  - reflexivity.
  - apply lcg_randrange_in_range.
Defined.

Lemma textures_respect_mask_witness :
  exists extra,
    drawing_elements (board masked_texture_world) = [] ++ extra /\
    length extra = 3 /\
    Forall (clear_segment series_config TinyVector.zero (Some 20%float)) extra.
Proof.
  apply (proj1 (@textures_respect_mask lcg_random series_config 50
                  TinyVector.zero sample_vertices 3 (Some 20%float))
           [] series_start tt masked_texture_world eq_refl).
  apply (@world_after_returns lcg_random masked_texture_run series_start).
  vm_compute. reflexivity.
Defined.

(** ** The deterministic decorations *)

Section Draws.
Context `{Libm} `{Random}.
Context (cfg : BoardConfig).

Lemma draws_weaken {A} (m : SE World A) (Q Q' : A -> list element -> Prop) :
  draws m Q -> (forall a extra, Q a extra -> Q' a extra) -> draws m Q'.
Proof.
  intros Hm HQ w. destruct (Hm w) as (a & w' & extra & Hrun & He & Hq).
  exists a, w', extra. auto.
Qed.

Lemma draws_ret {A} (a : A) (Q : A -> list element -> Prop) :
  Q a [] -> draws (ret a) Q.
Proof.
  intros HQ w. exists a, w, []. rewrite app_nil_r. auto.
Qed.

Lemma draws_lift {A} (r : result A) (a : A) (Q : A -> list element -> Prop) :
  r = Ok a -> Q a [] -> draws (lift r) Q.
Proof.
  intros -> HQ w. exists a, w, []. rewrite app_nil_r. auto.
Qed.

Lemma draws_board_append e (Q : unit -> list element -> Prop) :
  Q tt [e] -> draws (board_append e) Q.
Proof.
  intros HQ w. eexists tt, _, [e]. split; [reflexivity |]. auto.
Qed.

Lemma draws_bind {A B} (m : SE World A) (k : A -> SE World B)
    (Q1 : A -> list element -> Prop)
    (Q2 : A -> list element -> B -> list element -> Prop)
    (R : B -> list element -> Prop) :
  draws m Q1 ->
  (forall a x, Q1 a x -> draws (k a) (Q2 a x)) ->
  (forall a x b y, Q1 a x -> Q2 a x b y -> R b (x ++ y)) ->
  draws (bind m k) R.
Proof.
  intros Hm Hk HR w.
  destruct (Hm w) as (a & w1 & x & Hrun1 & Hx & Hq1).
  destruct (Hk a x Hq1 w1) as (b & w2 & y & Hrun2 & Hy & Hq2).
  exists b, w2, (x ++ y). split; [unfold bind; now rewrite Hrun1 |].
  split; [now rewrite Hy, Hx, app_assoc | eauto].
Qed.

(** A step that appends nothing, followed by the rest. *)
Lemma draws_after {A B} (m : SE World A) (k : A -> SE World B)
    (Q1 : A -> Prop) (R : B -> list element -> Prop) :
  draws m (fun a extra => extra = [] /\ Q1 a) ->
  (forall a, Q1 a -> draws (k a) R) ->
  draws (bind m k) R.
Proof.
  intros Hm Hk.
  eapply draws_bind with (Q2 := fun _ _ b extra => R b extra).
  - exact Hm.
  - intros a x [_ Hq]. now apply Hk.
  - intros a x b y [-> _] Hr. exact Hr.
Qed.

Lemma draws_for_seq {B} (Inv : nat -> B -> Prop)
    (P : nat -> list element -> Prop) (body : nat -> B -> SE World B) :
  forall n start acc,
  Inv start acc ->
  (forall i acc', start <= i < start + n -> Inv i acc' ->
     draws (body i acc') (fun acc'' extra => Inv (S i) acc'' /\ P i extra)) ->
  draws (for_each (seq start n) body acc)
    (fun acc' extra =>
       Inv (start + n) acc' /\
       exists chunks, extra = concat chunks /\ Forall2 P (seq start n) chunks).
Proof.
  induction n as [ | n IH]; intros start acc Hinv Hbody; simpl.
  - apply draws_ret. rewrite Nat.add_0_r. split; [exact Hinv |].
    exists []. split; [reflexivity | constructor].
  - eapply draws_bind.
    + apply (Hbody start acc); [lia | exact Hinv].
    + intros acc1 chunk [Hinv1 Hchunk].
      apply (IH (S start) acc1 Hinv1). intros i acc' Hi. apply Hbody. lia.
    + intros acc1 chunk acc2 rest [Hinv1 Hchunk] [Hinv2 (chunks & -> & Hall)].
      cbv beta. replace (start + S n) with (S start + n) by lia.
      split; [exact Hinv2 |].
      exists (chunk :: chunks). split; [reflexivity | now constructor].
Qed.

Lemma draws_for_range {B} (Inv : nat -> B -> Prop)
    (P : nat -> list element -> Prop) (body : nat -> B -> SE World B) n acc :
  Inv 0 acc ->
  (forall i acc', i < n -> Inv i acc' ->
     draws (body i acc') (fun acc'' extra => Inv (S i) acc'' /\ P i extra)) ->
  draws (for_range n body acc)
    (fun acc' extra =>
       Inv n acc' /\
       exists chunks, extra = concat chunks /\ Forall2 P (seq 0 n) chunks).
Proof.
  intros Hinv Hbody. unfold for_range.
  apply (draws_for_seq Inv P body n 0 acc Hinv).
  intros i acc' Hi. apply Hbody. lia.
Qed.

Lemma draws_for_each {A B} (P : A -> list element -> Prop)
    (body : A -> B -> SE World B) :
  forall (xs : list A) (acc : B),
  (forall x acc', x ∈ xs ->
     draws (body x acc') (fun _ extra => P x extra)) ->
  draws (for_each xs body acc)
    (fun _ extra => exists chunks, extra = concat chunks /\ Forall2 P xs chunks).
Proof.
  induction xs as [ | x xs IH]; intros acc Hbody; simpl.
  - apply draws_ret. exists []. split; [reflexivity | constructor].
  - eapply draws_bind.
    + apply (Hbody x acc). left.
    + intros acc1 chunk Hchunk.
      apply (IH acc1). intros y acc' Hy. apply Hbody. now right.
    + intros acc1 chunk acc2 rest Hchunk (chunks & -> & Hall). cbv beta.
      exists (chunk :: chunks). split; [reflexivity | now constructor].
Qed.

(** A loop that collects one vertex per round. *)
Lemma draws_vertices n (vertex : nat -> result TinyVector) :
  (forall i, i < n -> exists v, vertex i = Ok v) ->
  draws (for_range n
           (fun i vertices =>
              bind (lift (vertex i)) (fun v => ret (vertices ++ [v])))
           [])
        (fun vertices extra => extra = [] /\ length vertices = n).
Proof.
  intros Hvertex. eapply draws_weaken.
  - apply draws_for_range
      with (Inv := fun i vertices => length vertices = i)
           (P := fun _ chunk => chunk = []); [reflexivity |].
    intros i acc Hi Hacc. destruct (Hvertex i Hi) as [v Hv].
    eapply draws_after with (Q1 := fun _ => True).
    + eapply draws_lift; [exact Hv | auto].
    + intros v' _. apply draws_ret. rewrite length_app, Hacc. cbn.
      split; [lia | reflexivity].
  - intros vertices extra [Hlen (chunks & -> & Hall)]. split; [ | exact Hlen].
    clear -Hall. induction Hall as [ | i chunk idx chunks -> _ IH];
      [reflexivity | exact IH].
Qed.

Lemma length_flatten_points ps : length (flatten_points ps) = 2 * length ps.
Proof.
  unfold flatten_points. induction ps as [ | p ps IH]; simpl; [reflexivity |].
  rewrite IH. lia.
Qed.

Lemma outline_is_outline vertices :
  outline_of (length vertices) (outline cfg (flatten_points vertices)).
Proof.
  split; [reflexivity |]. cbn [outline coordinates].
  apply length_flatten_points.
Qed.

Lemma hexa_angle_finite i :
  i < 6 ->
  is_infinity ((fz (Z.of_nat i) + 0.5) * 2 * math_pi / fz (Z.of_nat 6))%float
  = false.
Proof.
  intros Hi. do 6 (destruct i as [ | i]; [vm_compute; reflexivity |]). lia.
Qed.

Lemma hexa_vertices_drawn c radius :
  draws (for_range 6
           (fun vertex_index hexa_vertices =>
              bind (lift (polar_vertex cfg c radius
                            ((fz (Z.of_nat vertex_index) + 0.5) * 2 * math_pi
                             / fz (Z.of_nat 6))%float))
                   (fun hexa_vertex => ret (hexa_vertices ++ [hexa_vertex])))
           [])
        (fun vertices extra => extra = [] /\ length vertices = 6).
Proof.
  apply (draws_vertices 6
           (fun i => polar_vertex cfg c radius
                       ((fz (Z.of_nat i) + 0.5) * 2 * math_pi
                        / fz (Z.of_nat 6))%float)).
  intros i Hi. apply polar_vertex_returns. now apply hexa_angle_finite.
Qed.




(** *** The small hexagon on an edge of the decorative polygon *)

Lemma rotating_polygon_run v1 v2 (w : World) :
  exists vs,
    rotating_polygon v1 v2 w = Ok (vs, w) /\
    length vs = 8 /\ vs !! 0 = Some v1 /\ vs !! 7 = Some v1 /\
    vs !! 1 = Some (TinyVector.add v1 (TinyVector.sub v2 v1)).
Proof.
  eexists. split; [vm_compute; reflexivity |].
  split; [reflexivity |]. split; [reflexivity |]. split; reflexivity.
Qed.

(** X10.  [rotating_polygon] never raises: from every two vertices it
    returns eight points, the first and the last of which are the first
    vertex (the polygon is closed) and the second of which is the first
    vertex moved by the edge; the board is not touched. *)
Theorem rotating_polygon_closed v1 v2 (w : World) :
  exists vs,
    rotating_polygon v1 v2 w = Ok (vs, w) /\
    length vs = 8 /\ vs !! 0 = Some v1 /\ vs !! 7 = Some v1 /\
    vs !! 1 = Some (TinyVector.add v1 (TinyVector.sub v2 v1)).
Proof. apply rotating_polygon_run. Qed.

Lemma rotating_polygon_drawn v1 v2 :
  draws (rotating_polygon v1 v2)
    (fun vs extra => extra = [] /\ length vs = 8).
Proof.
  intros w. destruct (rotating_polygon_run v1 v2 w) as (vs & Hrun & Hlen & _).
  exists vs, w, []. rewrite app_nil_r. auto.
Qed.

(** *** The decoration of a cell on an even ring *)

Lemma polygon_angle_finite count i :
  count = 12 \/ count = 14 -> i < count ->
  is_infinity (fz (Z.of_nat i * 2) * math_pi / fz (Z.of_nat count))%float
  = false.
Proof.
  intros [-> | ->] Hi.
  - do 12 (destruct i as [ | i]; [vm_compute; reflexivity |]). lia.
  - do 14 (destruct i as [ | i]; [vm_compute; reflexivity |]). lia.
Qed.

Lemma polygon_vertices_drawn c radius count :
  count = 12 \/ count = 14 ->
  draws (for_range count
           (fun vertex_index vertices =>
              bind (lift (polar_vertex cfg c radius
                            (fz (Z.of_nat vertex_index * 2) * math_pi
                             / fz (Z.of_nat count))%float))
                   (fun vertex => ret (vertices ++ [vertex])))
           [])
        (fun vertices extra => extra = [] /\ length vertices = count).
Proof.
  intros Hcount.
  apply (draws_vertices count
           (fun i => polar_vertex cfg c radius
                       (fz (Z.of_nat i * 2) * math_pi
                        / fz (Z.of_nat count))%float)).
  intros i Hi. apply polar_vertex_returns. now apply polygon_angle_finite.
Qed.

Lemma rotating_polygons_drawn (edges : list (TinyVector * TinyVector)) :
  draws (for_each edges
           (fun '(vertex_1, vertex_2) (_ : unit) =>
              bind (rotating_polygon vertex_1 vertex_2)
                (fun rotating_polygon_vertices =>
                   board_append
                     (outline cfg (flatten_points rotating_polygon_vertices))))
           tt)
        (fun _ extra => length extra = length edges /\
                        Forall (outline_of 8) extra).
Proof.
  eapply draws_weaken.
  - apply draws_for_each
      with (P := fun _ chunk => exists e, chunk = [e] /\ outline_of 8 e).
    intros [v1 v2] acc _.
    eapply draws_after with (Q1 := fun vs => length vs = 8).
    + apply rotating_polygon_drawn.
    + intros vs Hlen. apply draws_board_append.
      eexists. split; [reflexivity |]. rewrite <- Hlen. apply outline_is_outline.
  - intros a extra (chunks & -> & Hall). now apply singleton_chunks in Hall.
Qed.

(** The number of sides of the decorative polygon of a cell. *)
Lemma decorater_side_count h :
  (if bool_decide (name h ∈ special_names) then 14 else 12) = 12 \/
  (if bool_decide (name h ∈ special_names) then 14 else 12) = 14.
Proof. destruct (bool_decide _); auto. Qed.



(** *** The whole drawing without random textures *)


Lemma hexagon_polygon_outline opts h scale vs :
  outline_of (length vs) (hexagon_polygon cfg opts h scale (flatten_points vs)).
Proof.
  split; [apply hexagon_polygon_is_shape |].
  unfold hexagon_polygon. destruct (with_gradient opts); cbn [coordinates];
    apply length_flatten_points.
Qed.

Lemma next_label_location_any opts h previous :
  label_side h <> LabelNone ->
  next_label_location cfg opts h previous = next_label_location cfg opts h None.
Proof.
  intros Hh. unfold next_label_location.
  destruct (without_labels opts); [reflexivity |].
  destruct (with_all_labels opts); [reflexivity |].
  destruct (label_side h); [now contradict Hh | reflexivity | reflexivity].
Qed.



(** *** Counting the shapes of a drawing *)

Lemma shapes_app xs ys : shapes (xs ++ ys) = shapes xs ++ shapes ys.
Proof. apply filter_app. Qed.

Lemma shapes_all xs :
  Forall (fun e => is_text e = false) xs -> shapes xs = xs.
Proof.
  induction 1 as [ | e l He _ IH]; [reflexivity |].
  unfold shapes in *. rewrite filter_cons_True by now rewrite He.
  now rewrite IH.
Qed.

Lemma shapes_cell_label opts h : shapes (cell_label cfg opts h) = [].
Proof.
  unfold cell_label, emitted_label.
  destruct (next_label_location cfg opts h None) as [[l | ] | ]; reflexivity.
Qed.

Lemma shapes_chunks (P : Hexagon -> list element -> Prop) (f : Hexagon -> nat)
    cells chunks :
  (forall h chunk, P h chunk -> length (shapes chunk) = f h) ->
  Forall2 P cells chunks ->
  length (shapes (concat chunks)) = sum_list (map f cells).
Proof.
  intros Hf. induction 1 as [ | h chunk cells chunks Hh _ IH];
    [reflexivity |].
  cbn [concat map sum_list sum_list_with].
  now rewrite shapes_app, length_app, (Hf _ _ Hh), IH.
Qed.

Lemma outline_is_shape n e : outline_of n e -> is_text e = false.
Proof. now intros [He _]. Qed.











End Draws.





(** ** The sorted list of the class *)

Section SortedList.

Lemma with_store_same cls : with_store (instances cls) (list_objects cls) cls = cls.
Proof. now destruct cls. Qed.

Lemma append_loop_run (m : gmap string addr) l ns : forall s,
  __name_to_hexagon s = m -> __all_sorted_hexagons s = l ->
  Forall (fun n => is_Some (m !! n)) ns ->
  for_each ns
    (fun name (_ : unit) =>
       bind get_state (fun cls' =>
         bind (get name) (fun h =>
           list_append (__all_sorted_hexagons cls') h)))
    tt s
  = Ok (tt, with_store (instances s)
              (alter (fun items => items ++ omap (fun n => m !! n) ns) l
                 (list_objects s)) s).
Proof.
  induction ns as [ | n ns IH]; intros s Hm Hl Hall.
  - cbn [for_each omap list_omap]. unfold ret. do 2 f_equal.
    rewrite list_alter_id by (intros; apply app_nil_r).
    symmetry. apply with_store_same.
  - apply Forall_cons in Hall as [[a Ha] Hall].
    cbn [for_each]. unfold bind at 1.
    assert (Hstep :
      bind get_state (fun cls' =>
        bind (get n) (fun h => list_append (__all_sorted_hexagons cls') h)) s
      = Ok (tt, with_store (instances s)
                  (alter (fun items => items ++ [a]) l (list_objects s)) s)).
    { cbv [bind get_state get]. rewrite Hm, Ha. cbn [ret].
      rewrite Hl. reflexivity. }
    rewrite Hstep, IH; [ | exact Hm | exact Hl | exact Hall].
    do 2 f_equal. unfold with_store.
    cbn [instances list_objects __all_sorted_hexagons __init_done __layout
         __name_to_hexagon __position_uv_to_hexagon all __delta_u __delta_v].
    f_equal. rewrite list_alter_alter_eq. apply list_alter_ext; [ | reflexivity].
    intros items _. cbn [omap list_omap]. rewrite Ha.
    unfold compose. now rewrite <- app_assoc.
Qed.

Lemma index_loop_run items : forall (f : nat -> nat) s,
  NoDup items ->
  exists insts,
    for_each (imap (fun index hexagon => (f index, hexagon)) items)
      (fun '(index, hexagon) (_ : unit) => store_index hexagon index) tt s
    = Ok (tt, with_store insts (list_objects s) s) /\
    (forall i a, items !! i = Some a ->
       insts !! a = set_index (f i) <$> instances s !! a) /\
    (forall a, a ∉ items -> insts !! a = instances s !! a).
Proof.
  induction items as [ | a items IH]; intros f s Hnd.
  - exists (instances s). split; [ | split].
    + cbn. unfold ret. now rewrite with_store_same.
    + intros i a Hi. now rewrite lookup_nil in Hi.
    + reflexivity.
  - apply NoDup_cons in Hnd as [Ha Hnd].
    destruct (IH (fun i => f (S i))
                (with_store (alter (set_index (f 0)) a (instances s))
                   (list_objects s) s) Hnd)
      as (insts & Hrun & Hin & Hout).
    exists insts. split; [ | split].
    + cbn [imap for_each]. unfold bind at 1. cbn [store_index modify].
      exact Hrun.
    + intros [ | i] a' Hi; cbn in Hi.
      * injection Hi as <-. rewrite (Hout a Ha). cbn [instances with_store].
        apply list_lookup_alter_eq.
      * rewrite (Hin i a' Hi). cbn [instances with_store].
        rewrite list_lookup_alter_ne; [reflexivity |].
        intros ->. apply Ha. eapply list_elem_of_lookup_2; eauto.
    + intros a' Ha'. apply not_elem_of_cons in Ha' as [Hne Ha'].
      rewrite (Hout a' Ha'). cbn [instances with_store].
      now rewrite list_lookup_alter_ne.
Qed.

Lemma keys_elem_of (m : gmap string addr) n :
  n ∈ sorted_keys m <-> is_Some (m !! n).
Proof.
  unfold sorted_keys. rewrite merge_sort_Permutation, list_elem_of_In, in_map_iff.
  split.
  - intros ([n' a] & <- & Hin). apply list_elem_of_In, elem_of_map_to_list in Hin.
    eauto.
  - intros [a Ha]. exists (n, a). split; [reflexivity |].
    now apply list_elem_of_In, elem_of_map_to_list.
Qed.

Lemma keys_NoDup (m : gmap string addr) : NoDup (sorted_keys m).
Proof.
  unfold sorted_keys. rewrite merge_sort_Permutation.
  apply (NoDup_fst_map_to_list m).
Qed.

Lemma keys_sorted (m : gmap string addr) :
  StronglySorted String.le (sorted_keys m).
Proof. apply StronglySorted_merge_sort; apply _. Qed.

Lemma omap_registered (m : gmap string addr) ns :
  Forall (fun n => is_Some (m !! n)) ns ->
  Forall2 (fun n a => m !! n = Some a) ns (omap (fun n => m !! n) ns).
Proof.
  induction 1 as [ | n ns [a Ha] _ IH]; [constructor |].
  cbn [omap list_omap]. rewrite Ha. now constructor.
Qed.

Lemma addresses_NoDup (m : gmap string addr) ns addrs :
  (forall n1 n2 a, m !! n1 = Some a -> m !! n2 = Some a -> n1 = n2) ->
  Forall2 (fun n a => m !! n = Some a) ns addrs ->
  NoDup ns -> NoDup addrs.
Proof.
  intros Hinj. induction 1 as [ | n a ns addrs Hn Hall IH]; intros Hnd;
    [constructor |].
  apply NoDup_cons in Hnd as [Hfresh Hnd]. apply NoDup_cons.
  split; [ | now apply IH].
  intros Ha. apply list_elem_of_lookup in Ha as [i Hi].
  destruct (Forall2_lookup_r _ _ _ _ _ Hall Hi) as (n' & Hn' & Hm).
  apply Hfresh. rewrite (Hinj n n' a Hn Hm).
  eapply list_elem_of_lookup_2; eauto.
Qed.

Lemma tables_agree_injective cls n1 n2 a :
  tables_agree cls ->
  __name_to_hexagon cls !! n1 = Some a -> __name_to_hexagon cls !! n2 = Some a ->
  n1 = n2.
Proof.
  intros [Hnames _] H1 H2.
  destruct (Hnames n1 a H1) as (h1 & Hh1 & <- & _).
  destruct (Hnames n2 a H2) as (h2 & Hh2 & <- & _). congruence.
Qed.

(** What [__create_all_sorted_hexagons] does to the store. *)
Lemma sorted_list_run cls :
  tables_agree cls ->
  list_objects cls !! __all_sorted_hexagons cls = Some [] ->
  exists cls' addrs,
    __create_all_sorted_hexagons cls = Ok (tt, cls') /\
    Forall2 (fun n a => __name_to_hexagon cls !! n = Some a)
      (sorted_keys (__name_to_hexagon cls)) addrs /\
    list_objects cls' !! __all_sorted_hexagons cls' = Some addrs /\
    all cls' = Some (__all_sorted_hexagons cls') /\
    __name_to_hexagon cls' = __name_to_hexagon cls /\
    __position_uv_to_hexagon cls' = __position_uv_to_hexagon cls /\
    (forall i a, addrs !! i = Some a ->
       instances cls' !! a = set_index i <$> instances cls !! a) /\
    (forall a, a ∉ addrs -> instances cls' !! a = instances cls !! a).
Proof.
  intros Hagree Hfresh.
  set (m := __name_to_hexagon cls). set (l := __all_sorted_hexagons cls).
  pose proof (omap_registered m (sorted_keys m)
                (proj2 (Forall_forall _ _)
                   (fun n Hn => proj1 (keys_elem_of m n) Hn))) as Haddrs.
  set (addrs := omap (fun n => m !! n) (sorted_keys m)) in *.
  assert (Hnd : NoDup addrs).
  { eapply addresses_NoDup; [ | exact Haddrs | apply keys_NoDup].
    intros n1 n2 a. apply tables_agree_injective. exact Hagree. }
  destruct (index_loop_run addrs (fun i => i)
              (with_store (instances cls)
                 (alter (fun items => items ++ addrs) l (list_objects cls)) cls)
              Hnd) as (insts & Hrun & Hin & Hout).
  subst m l. eexists _, addrs. split.
  { unfold __create_all_sorted_hexagons. unfold bind at 1.
    cbn [get_state]. unfold bind at 1.
    rewrite (append_loop_run _ _ (sorted_keys (__name_to_hexagon cls)) cls
               eq_refl eq_refl
               (proj2 (Forall_forall _ _)
                  (fun n Hn => proj1 (keys_elem_of _ n) Hn))).
    fold addrs. unfold bind at 1. cbn [get_state]. unfold bind at 1.
    unfold list_items.
    cbn [with_store list_objects __all_sorted_hexagons].
    rewrite list_lookup_alter_eq, Hfresh.
    cbn [fmap option_fmap option_map default from_option app].
    change (Datatypes.id addrs) with addrs.
    rewrite Hrun. cbn [modify]. reflexivity. }
  cbn [with_store instances list_objects __all_sorted_hexagons __init_done
       __layout __name_to_hexagon __position_uv_to_hexagon all __delta_u
       __delta_v].
  split; [exact Haddrs |]. split.
  { rewrite list_lookup_alter_eq, Hfresh. reflexivity. }
  split; [reflexivity |]. split; [reflexivity |]. split; [reflexivity |].
  split; [exact Hin | exact Hout].
Qed.

Lemma omap_lookup_total {A B} (f : A -> option B) xs :
  (forall x, x ∈ xs -> is_Some (f x)) ->
  exists ys, omap f xs = ys /\ Forall2 (fun x y => f x = Some y) xs ys.
Proof.
  induction xs as [ | x xs IH]; intros Hf.
  - exists []. split; [reflexivity | constructor].
  - destruct (Hf x) as [y Hy]; [left |].
    destruct IH as (ys & Hys & Hall); [intros z Hz; apply Hf; now right |].
    exists (y :: ys). cbn [omap list_omap]. rewrite Hy.
    split; [f_equal; exact Hys | now constructor].
Qed.

(** The cells of the list that [__create_all_sorted_hexagons] has
    filled, one by one. *)
Lemma sorted_list_cells cls :
  tables_agree cls ->
  list_objects cls !! __all_sorted_hexagons cls = Some [] ->
  exists cls',
    __create_all_sorted_hexagons cls = Ok (tt, cls') /\
    __name_to_hexagon cls' = __name_to_hexagon cls /\
    __position_uv_to_hexagon cls' = __position_uv_to_hexagon cls /\
    all_cells cls' = Some (get_all_cells cls') /\
    length (get_all_cells cls') = length (sorted_keys (__name_to_hexagon cls)) /\
    (forall i h, get_all_cells cls' !! i = Some h ->
       exists n a h0,
         sorted_keys (__name_to_hexagon cls) !! i = Some n /\
         __name_to_hexagon cls !! n = Some a /\
         instances cls !! a = Some h0 /\ name h0 = n /\
         __position_uv_to_hexagon cls !! position_uv h0 = Some a /\
         instances cls' !! a = Some h /\ h = set_index i h0) /\
    (forall a h0, instances cls !! a = Some h0 ->
       instances cls' !! a = Some h0 \/
       exists i, instances cls' !! a = Some (set_index i h0)).
Proof.
  intros Hagree Hfresh.
  destruct (sorted_list_run cls Hagree Hfresh)
    as (cls' & addrs & Hrun & Haddrs & Hlist & Hall & Hn & Hp & Hin & Hout).
  assert (Hcell : forall i a, addrs !! i = Some a ->
            exists n h0,
              sorted_keys (__name_to_hexagon cls) !! i = Some n /\
              __name_to_hexagon cls !! n = Some a /\
              instances cls !! a = Some h0 /\ name h0 = n /\
              __position_uv_to_hexagon cls !! position_uv h0 = Some a /\
              instances cls' !! a = Some (set_index i h0)).
  { intros i a Hi.
    destruct (Forall2_lookup_r _ _ _ _ _ Haddrs Hi) as (n & Hkey & Hm).
    destruct (proj1 Hagree n a Hm) as (h0 & Hh0 & Hname & Hpos).
    exists n, h0. rewrite (Hin i a Hi), Hh0. auto 10. }
  destruct (omap_lookup_total (fun a => instances cls' !! a) addrs)
    as (cells & Hcells & Hforall).
  { intros a Ha. apply list_elem_of_lookup in Ha as [i Hi].
    destruct (Hcell i a Hi) as (n & h0 & _ & _ & _ & _ & _ & ->). eauto. }
  assert (Hget : get_all_cells cls' = cells).
  { unfold get_all_cells, cells_of, list_items. rewrite Hlist. exact Hcells. }
  exists cls'. split; [exact Hrun |]. split; [exact Hn |]. split; [exact Hp |].
  split.
  { unfold all_cells. rewrite Hall. reflexivity. }
  rewrite Hget. split.
  { rewrite <- (Forall2_length _ _ _ Hforall). symmetry.
    exact (Forall2_length _ _ _ Haddrs). }
  split.
  - intros i h Hi.
    destruct (Forall2_lookup_r _ _ _ _ _ Hforall Hi) as (a & Ha & Hh).
    destruct (Hcell i a Ha) as (n & h0 & Hkey & Hm & Hh0 & Hname & Hpos & Hh').
    exists n, a, h0. rewrite Hh' in Hh. injection Hh as <-. auto 10.
  - intros a h0 Hh0. destruct (decide (a ∈ addrs)) as [Ha | Ha].
    + apply list_elem_of_lookup in Ha as [i Hi]. right. exists i.
      rewrite (Hin i a Hi), Hh0. reflexivity.
    + left. now rewrite (Hout a Ha).
Qed.

(** X14.  On every class whose two tables agree and whose sorted list is
    still empty, [__create_all_sorted_hexagons] returns; afterwards
    [get_all()] lists exactly the registered names, once each, in
    increasing order, the cell at rank [i] has [index] [i] and is the
    very cell [Hexagon.get] finds under its name, with no field but
    [index] changed; [Hexagon.get] raises [KeyError] for every name the
    list does not show; [Hexagon.all] shows the same list and the
    tables are untouched. *)
Theorem sorted_list_is_ranked cls :
  tables_agree cls ->
  list_objects cls !! __all_sorted_hexagons cls = Some [] ->
  exists cls',
    __create_all_sorted_hexagons cls = Ok (tt, cls') /\
    map name (get_all_cells cls') = sorted_keys (__name_to_hexagon cls) /\
    StronglySorted String.le (map name (get_all_cells cls')) /\
    NoDup (map name (get_all_cells cls')) /\
    (forall n, n ∈ map name (get_all_cells cls')
               <-> is_Some (__name_to_hexagon cls !! n)) /\
    (forall i h, get_all_cells cls' !! i = Some h ->
       index h = Some i /\ cell_by_name cls' (name h) = Some h /\
       exists h0, cell_by_name cls (name h) = Some h0 /\ h = set_index i h0) /\
    (forall n, n ∉ map name (get_all_cells cls') ->
       get n cls' = Raise KeyError) /\
    all_cells cls' = Some (get_all_cells cls') /\
    __name_to_hexagon cls' = __name_to_hexagon cls /\
    __position_uv_to_hexagon cls' = __position_uv_to_hexagon cls.
Proof.
  intros Hagree Hfresh.
  destruct (sorted_list_cells cls Hagree Hfresh)
    as (cls' & Hrun & Hn & Hp & Hall & Hlen & Hcells & _).
  assert (Hnames : map name (get_all_cells cls')
                   = sorted_keys (__name_to_hexagon cls)).
  { change (map name (get_all_cells cls')) with (name <$> get_all_cells cls').
    apply list_eq. intros i. rewrite list_lookup_fmap.
    destruct (get_all_cells cls' !! i) as [h | ] eqn:Hi.
    - destruct (Hcells i h Hi) as (n & a & h0 & -> & _ & _ & <- & _ & _ & ->).
      reflexivity.
    - symmetry. apply lookup_ge_None. rewrite <- Hlen.
      now apply lookup_ge_None. }
  exists cls'. split; [exact Hrun |]. split; [exact Hnames |].
  rewrite Hnames. split; [apply keys_sorted |]. split; [apply keys_NoDup |].
  split; [intros n; apply keys_elem_of |]. split; [ | split; [ | auto]].
  - intros i h Hi.
    destruct (Hcells i h Hi)
      as (n & a & h0 & Hkey & Hm & Hh0 & Hname & _ & Hh & ->).
    split; [reflexivity |]. cbn [name set_index]. unfold cell_by_name.
    rewrite Hn, Hname, Hm. cbn. split; [exact Hh | eauto].
  - intros n Hout. rewrite keys_elem_of in Hout.
    apply eq_None_not_Some in Hout.
    unfold get, bind, get_state. now rewrite Hn, Hout.
Qed.

End SortedList.

Lemma two_cells_class_agree : tables_agree two_cells_class.
Proof.
  assert (Hruns : exists a s1 b,
            Hexagon__init__ series_config "z9" (9, 9)%Z 9 LabelNone class_body
            = Ok (a, s1) /\
            Hexagon__init__ series_config "y1" (8, 8)%Z 8 (LabelSide WEST) s1
            = Ok (b, two_cells_class)).
  { eexists _, _, _. split; vm_compute; reflexivity. }
  destruct Hruns as (a & s1 & b & H1 & H2).
  apply (reachable_agree series_config).
  eapply reach_new; [ | exact H2].
  eapply reach_new; [apply reach_class_body | exact H1].
Qed.

Lemma sorted_list_is_ranked_witness :
  exists cls',
    __create_all_sorted_hexagons two_cells_class = Ok (tt, cls') /\
    map name (get_all_cells cls') = ["y1"; "z9"] /\
    (forall i h, get_all_cells cls' !! i = Some h ->
       index h = Some i /\ cell_by_name cls' (name h) = Some h) /\
    all_cells cls' = Some (get_all_cells cls').
Proof.
  destruct (sorted_list_is_ranked two_cells_class two_cells_class_agree eq_refl)
    as (cls' & Hrun & Hnames & _ & _ & _ & Hcells & _ & Hall & _).
  exists cls'. split; [exact Hrun |]. split; [exact Hnames |].
  split; [ | exact Hall].
  intros i h Hi. destruct (Hcells i h Hi) as (Hindex & Hget & _). auto.
Defined.

(** ** Initialization from any state *)

Section Reinitialization.
Context (cfg : BoardConfig).

Lemma named_cells_lookup s n :
  named_cells s !! n = __name_to_hexagon s !! n ≫= (fun a => instances s !! a).
Proof. unfold named_cells. apply lookup_omap. Qed.

Lemma positioned_cells_lookup s p :
  positioned_cells s !! p
  = __position_uv_to_hexagon s !! p ≫= (fun a => instances s !! a).
Proof. unfold positioned_cells. apply lookup_omap. Qed.

Lemma named_None s n :
  tables_agree s ->
  named_cells s !! n = None <-> __name_to_hexagon s !! n = None.
Proof.
  intros [Hnames _]. rewrite named_cells_lookup.
  destruct (__name_to_hexagon s !! n) as [a | ] eqn:Hn; [ | tauto].
  destruct (Hnames n a Hn) as (h & Hh & _). cbn. rewrite Hh.
  split; discriminate.
Qed.

Lemma positioned_None s p :
  tables_agree s ->
  positioned_cells s !! p = None <-> __position_uv_to_hexagon s !! p = None.
Proof.
  intros [_ Hpositions]. rewrite positioned_cells_lookup.
  destruct (__position_uv_to_hexagon s !! p) as [a | ] eqn:Hp; [ | tauto].
  destruct (Hpositions p a Hp) as (h & Hh & _). cbn. rewrite Hh.
  split; discriminate.
Qed.

Lemma Hexagon__init___length n p r l s a s' :
  Hexagon__init__ cfg n p r l s = Ok (a, s') -> String.length n = 2.
Proof.
  unfold Hexagon__init__, bind, get_state, assert, ret, raise.
  destruct (bool_decide (__name_to_hexagon s !! n = None)); [ | discriminate].
  destruct (bool_decide (__position_uv_to_hexagon s !! p = None));
    [ | discriminate].
  destruct (String.length n =? 2) eqn:Hlen; [ | discriminate].
  intros _. now apply Nat.eqb_eq.
Qed.

Lemma Hexagon__init___returns n p r l s c :
  __name_to_hexagon s !! n = None ->
  __position_uv_to_hexagon s !! p = None ->
  String.length n = 2 ->
  compute_center cfg (fst p) (snd p) = Ok c ->
  Hexagon__init__ cfg n p r l s
  = Ok (length (instances s),
        {| instances := instances s ++ [new_cell n p r l c];
           list_objects := list_objects s;
           __all_sorted_hexagons := __all_sorted_hexagons s;
           __init_done := __init_done s;
           __layout := __layout s;
           __name_to_hexagon := <[n := length (instances s)]> (__name_to_hexagon s);
           __position_uv_to_hexagon :=
             <[p := length (instances s)]> (__position_uv_to_hexagon s);
           all := all s;
           __delta_u := __delta_u s;
           __delta_v := __delta_v s |}).
Proof.
  intros Hn Hp Hlen Hc.
  unfold Hexagon__init__, bind, get_state, assert, ret, raise, put_state, lift.
  rewrite (bool_decide_eq_true_2 _ Hn), (bool_decide_eq_true_2 _ Hp).
  rewrite (proj2 (Nat.eqb_eq _ _) Hlen).
  destruct p as [u v]. cbn [fst snd] in Hc. rewrite Hc. reflexivity.
Qed.

(** The cells a constructor call adds to the two tables. *)
Lemma constructor_cells n p r l s a s' :
  tables_agree s ->
  Hexagon__init__ cfg n p r l s = Ok (a, s') ->
  exists c,
    compute_center cfg (fst p) (snd p) = Ok c /\
    named_cells s' = <[n := new_cell n p r l c]> (named_cells s) /\
    positioned_cells s' = <[p := new_cell n p r l c]> (positioned_cells s) /\
    list_objects s' = list_objects s /\
    __all_sorted_hexagons s' = __all_sorted_hexagons s.
Proof.
  intros [Hnames Hpositions] Hrun.
  apply Hexagon__init___run in Hrun as (Hn & Hp & -> & c & Hc & ->).
  exists c. split; [exact Hc |]. fold (new_cell n p r l c).
  split; [ | split; [ | split; reflexivity]].
  - apply map_eq. intros k. rewrite named_cells_lookup.
    cbn [instances __name_to_hexagon]. rewrite !lookup_insert.
    case_decide as Hk.
    + cbn. apply list_lookup_middle. reflexivity.
    + rewrite named_cells_lookup.
      destruct (__name_to_hexagon s !! k) as [a | ] eqn:Ha; [ | reflexivity].
      cbn. destruct (Hnames k a Ha) as (h & Hh & _).
      apply lookup_app_l. eapply lookup_lt_Some; eauto.
  - apply map_eq. intros k. rewrite positioned_cells_lookup.
    cbn [instances __position_uv_to_hexagon]. rewrite !lookup_insert.
    case_decide as Hk.
    + cbn. apply list_lookup_middle. reflexivity.
    + rewrite positioned_cells_lookup.
      destruct (__position_uv_to_hexagon s !! k) as [a | ] eqn:Ha;
        [ | reflexivity].
      cbn. destruct (Hpositions k a Ha) as (h & Hh & _).
      apply lookup_app_l. eapply lookup_lt_Some; eauto.
Qed.

(** A constructor call that returns on a class returns on every class
    with the same cells, and leaves them with the same cells. *)
Lemma constructor_similar n p r l s a s' t :
  tables_agree s -> tables_agree t -> same_cells s t ->
  Hexagon__init__ cfg n p r l s = Ok (a, s') ->
  exists b t',
    Hexagon__init__ cfg n p r l t = Ok (b, t') /\
    tables_agree s' /\ tables_agree t' /\ same_cells s' t' /\
    list_objects s' = list_objects s /\
    __all_sorted_hexagons s' = __all_sorted_hexagons s /\
    list_objects t' = list_objects t /\
    __all_sorted_hexagons t' = __all_sorted_hexagons t.
Proof.
  intros Hs Ht [Hnamed Hpositioned] Hrun.
  destruct (constructor_cells n p r l s a s' Hs Hrun)
    as (c & Hc & Hn' & Hp' & Hlo & Hl).
  pose proof (Hexagon__init___length _ _ _ _ _ _ _ Hrun) as Hlen.
  pose proof (Hexagon__init___run _ _ _ _ _ _ _ _ Hrun) as (Hn & Hp & _).
  assert (Hnt : __name_to_hexagon t !! n = None).
  { apply (named_None t n Ht). rewrite <- Hnamed. now apply (named_None s n Hs). }
  assert (Hpt : __position_uv_to_hexagon t !! p = None).
  { apply (positioned_None t p Ht). rewrite <- Hpositioned.
    now apply (positioned_None s p Hs). }
  pose proof (Hexagon__init___returns n p r l t c Hnt Hpt Hlen Hc) as Hrun'.
  destruct (constructor_cells n p r l t _ _ Ht Hrun')
    as (c' & Hc' & Hn'' & Hp'' & Hlo' & Hl').
  assert (c' = c) by congruence. subst c'.
  eexists _, _. split; [exact Hrun' |].
  split; [exact (Hexagon__init___agree cfg n p r l s a s' Hs Hrun) |].
  split; [exact (Hexagon__init___agree cfg n p r l t _ _ Ht Hrun') |].
  split.
  { split; [rewrite Hn', Hn'', Hnamed | rewrite Hp', Hp'', Hpositioned];
      reflexivity. }
  auto.
Qed.

Lemma create_hexagons_similar
    (calls : list (string * (Z * Z) * Z * label_value)) : forall s s' t,
  tables_agree s -> tables_agree t -> same_cells s t ->
  for_each calls
    (fun '(name, position_uv, ring, label_side) (_ : unit) =>
       bind (Hexagon__init__ cfg name position_uv ring label_side)
         (fun _ => ret tt)) tt s = Ok (tt, s') ->
  exists t',
    for_each calls
      (fun '(name, position_uv, ring, label_side) (_ : unit) =>
         bind (Hexagon__init__ cfg name position_uv ring label_side)
           (fun _ => ret tt)) tt t = Ok (tt, t') /\
    tables_agree s' /\ tables_agree t' /\ same_cells s' t' /\
    list_objects s' = list_objects s /\
    __all_sorted_hexagons s' = __all_sorted_hexagons s /\
    list_objects t' = list_objects t /\
    __all_sorted_hexagons t' = __all_sorted_hexagons t.
Proof.
  induction calls as [ | [[[n p] r] l] calls IH]; intros s s' t Hs Ht Hst Hrun.
  - cbn in Hrun. injection Hrun as <-. exists t. cbn. auto 10.
  - cbn [for_each] in Hrun |- *. unfold bind at 1 in Hrun.
    unfold bind at 1 in Hrun.
    destruct (Hexagon__init__ cfg n p r l s) as [[a s1] | | ] eqn:H1;
      try discriminate.
    cbn [ret] in Hrun.
    destruct (constructor_similar n p r l s a s1 t Hs Ht Hst H1)
      as (b & t1 & Hrun1 & Hs1 & Ht1 & Hst1 & Hlo & Hl & Hlo' & Hl').
    destruct (IH s1 s' t1 Hs1 Ht1 Hst1 Hrun)
      as (t' & Hrun' & Hs' & Ht' & Hst' & Hlo2 & Hl2 & Hlo2' & Hl2').
    exists t'. split.
    { unfold bind at 1. unfold bind at 1. rewrite Hrun1. cbn [ret].
      exact Hrun'. }
    split; [exact Hs' |]. split; [exact Ht' |]. split; [exact Hst' |].
    split; [congruence |]. split; [congruence |]. split; congruence.
Qed.

Lemma keys_same s t :
  tables_agree s -> tables_agree t -> same_cells s t ->
  sorted_keys (__name_to_hexagon s) = sorted_keys (__name_to_hexagon t).
Proof.
  intros Hs Ht [Hnamed _].
  apply (StronglySorted_unique String.le); [apply keys_sorted.. |].
  apply NoDup_Permutation; [apply keys_NoDup.. |].
  intros n. rewrite !keys_elem_of, <- !not_eq_None_Some.
  rewrite <- (named_None s n Hs), <- (named_None t n Ht), Hnamed. reflexivity.
Qed.

(** The catalog that [__create_all_sorted_hexagons] leaves, in terms of
    the cells the tables showed before. *)
Lemma sorted_list_tables cls :
  tables_agree cls ->
  list_objects cls !! __all_sorted_hexagons cls = Some [] ->
  exists cls',
    __create_all_sorted_hexagons cls = Ok (tt, cls') /\
    all_cells cls' = Some (get_all_cells cls') /\
    length (get_all_cells cls') = length (sorted_keys (__name_to_hexagon cls)) /\
    (forall i h, get_all_cells cls' !! i = Some h ->
       exists n h0,
         sorted_keys (__name_to_hexagon cls) !! i = Some n /\
         named_cells cls !! n = Some h0 /\ h = set_index i h0) /\
    (forall i n, sorted_keys (__name_to_hexagon cls) !! i = Some n ->
       named_cells cls' !! n = get_all_cells cls' !! i) /\
    (forall n, __name_to_hexagon cls !! n = None -> named_cells cls' !! n = None) /\
    (forall p,
       positioned_cells cls' !! p
       = positioned_cells cls !! p ≫= (fun h0 => named_cells cls' !! name h0)).
Proof.
  intros Hagree Hfresh.
  destruct (sorted_list_cells cls Hagree Hfresh)
    as (cls' & Hrun & Hn & Hp & Hall & Hlen & Hcells & _).
  exists cls'. split; [exact Hrun |]. split; [exact Hall |].
  split; [exact Hlen |]. split; [ | split; [ | split]].
  - intros i h Hi.
    destruct (Hcells i h Hi) as (n & a & h0 & Hkey & Hm & Hh0 & _ & _ & _ & ->).
    exists n, h0. split; [exact Hkey |]. split; [ | reflexivity].
    rewrite named_cells_lookup, Hm. exact Hh0.
  - intros i n Hkey.
    destruct (lookup_lt_is_Some_2 (get_all_cells cls') i) as [h Hi].
    { rewrite Hlen. eapply lookup_lt_Some; eauto. }
    destruct (Hcells i h Hi) as (n' & a & h0 & Hkey' & Hm & _ & _ & _ & Hh & _).
    assert (n' = n) by congruence. subst n'.
    rewrite named_cells_lookup, Hn, Hm, Hi. exact Hh.
  - intros n Hm. rewrite named_cells_lookup, Hn, Hm. reflexivity.
  - intros p. rewrite !positioned_cells_lookup, Hp.
    destruct (__position_uv_to_hexagon cls !! p) as [a | ] eqn:Ha;
      [ | reflexivity].
    destruct (proj2 Hagree p a Ha) as (h0 & Hh0 & _ & Hname).
    cbn. rewrite Hh0. cbn. rewrite named_cells_lookup, Hn, Hname. reflexivity.
Qed.

Lemma sorted_similar s t :
  tables_agree s -> tables_agree t -> same_cells s t ->
  list_objects s !! __all_sorted_hexagons s = Some [] ->
  list_objects t !! __all_sorted_hexagons t = Some [] ->
  exists s' t',
    __create_all_sorted_hexagons s = Ok (tt, s') /\
    __create_all_sorted_hexagons t = Ok (tt, t') /\
    catalog t' = catalog s' /\
    all_cells t' = Some (get_all_cells t').
Proof.
  intros Hs Ht Hst Hfs Hft.
  pose proof (keys_same s t Hs Ht Hst) as Hkeys.
  destruct Hst as [Hnamed Hpositioned].
  destruct (sorted_list_tables s Hs Hfs)
    as (s' & Hrun & _ & Hlen & Hcells & Hranked & Hnone & Hpos).
  destruct (sorted_list_tables t Ht Hft)
    as (t' & Hrun' & Hall' & Hlen' & Hcells' & Hranked' & Hnone' & Hpos').
  rewrite <- Hkeys in Hlen', Hcells', Hranked'.
  assert (Hlist : get_all_cells t' = get_all_cells s').
  { apply list_eq. intros i.
    destruct (get_all_cells t' !! i) as [h' | ] eqn:Hi';
      destruct (get_all_cells s' !! i) as [h | ] eqn:Hi.
    - destruct (Hcells i h Hi) as (n & h0 & Hkey & Hh0 & ->).
      destruct (Hcells' i h' Hi') as (n' & h0' & Hkey' & Hh0' & ->).
      assert (n' = n) by congruence. subst n'.
      rewrite <- Hnamed in Hh0'. congruence.
    - apply lookup_lt_Some in Hi'. apply lookup_ge_None in Hi. lia.
    - apply lookup_lt_Some in Hi. apply lookup_ge_None in Hi'. lia.
    - reflexivity. }
  assert (Hnames : named_cells t' = named_cells s').
  { apply map_eq. intros n.
    destruct (decide (n ∈ sorted_keys (__name_to_hexagon s))) as [Hin | Hout].
    - apply list_elem_of_lookup in Hin as [i Hi].
      now rewrite (Hranked i n Hi), (Hranked' i n Hi), Hlist.
    - assert (Hm : __name_to_hexagon s !! n = None).
      { rewrite keys_elem_of in Hout. now apply eq_None_not_Some. }
      rewrite (Hnone n Hm). apply Hnone'.
      apply (named_None t n Ht). rewrite <- Hnamed.
      now apply (named_None s n Hs). }
  exists s', t'. split; [exact Hrun |]. split; [exact Hrun' |].
  split; [ | exact Hall'].
  unfold catalog. rewrite Hlist, Hnames. f_equal.
  apply map_eq. intros p. now rewrite Hpos, Hpos', Hpositioned, Hnames.
Qed.

Lemma same_registry_catalog s t :
  same_registry s t -> catalog t = catalog s /\ all_cells t = all_cells s.
Proof.
  intros (Hi & Hlo & Hl & Hn & Hp & Ha).
  unfold catalog, all_cells, get_all_cells, cells_of, list_items, named_cells,
    positioned_cells.
  rewrite Hi, Hlo, Hl, Hn, Hp, Ha. split; reflexivity.
Qed.

Lemma init_steps s s3 :
  __init_done s = false -> init cfg s = Ok (tt, s3) ->
  exists s1 s2,
    __create_hexagons cfg s = Ok (tt, s1) /\
    __create_all_sorted_hexagons s1 = Ok (tt, s2) /\
    same_registry s2 s3.
Proof.
  intros Hdone. unfold init. unfold bind at 1. cbn [get_state].
  rewrite Hdone. cbn [negb]. unfold bind at 1.
  destruct (__create_hexagons cfg s) as [[[] s1] | | ]; try discriminate.
  unfold bind at 1.
  destruct (__create_all_sorted_hexagons s1) as [[[] s2] | | ] eqn:H2;
    try discriminate.
  intros Hrest. exists s1, s2. split; [reflexivity |]. split; [exact H2 |].
  cbn in Hrest. injection Hrest as <-. unfold same_registry. cbn. auto 10.
Qed.

Lemma init_finishes s s1 s2 :
  __init_done s = false ->
  __create_hexagons cfg s = Ok (tt, s1) ->
  __create_all_sorted_hexagons s1 = Ok (tt, s2) ->
  exists s3,
    init cfg s = Ok (tt, s3) /\ same_registry s2 s3 /\ __init_done s3 = true.
Proof.
  intros Hdone H1 H2. unfold init. unfold bind at 1. cbn [get_state].
  rewrite Hdone. cbn [negb]. unfold bind at 1. rewrite H1.
  unfold bind at 1. rewrite H2.
  eexists. split; [reflexivity |].
  split; [unfold same_registry; cbn; auto 10 | reflexivity].
Qed.

Lemma reset_fresh cls :
  exists t0,
    reset cls = Ok (tt, t0) /\
    __name_to_hexagon t0 = ∅ /\ __position_uv_to_hexagon t0 = ∅ /\
    list_objects t0 !! __all_sorted_hexagons t0 = Some [] /\
    __init_done t0 = false.
Proof.
  eexists. split; [reflexivity |].
  cbn [__name_to_hexagon __position_uv_to_hexagon list_objects
       __all_sorted_hexagons __init_done].
  do 2 (split; [reflexivity |]).
  split; [apply list_lookup_middle; reflexivity | reflexivity].
Qed.

(** X15.  From every state of the class, whatever was constructed,
    listed or left half-done before, [Hexagon.reset()] followed by
    [Hexagon.init()] returns and shows the catalog of the first
    initialization: the same cells in [get_all()] and in [Hexagon.all],
    the same cell under every name and every position. *)
Theorem reset_then_init_anywhere cls :
  exists cls1 cls2,
    reset cls = Ok (tt, cls1) /\ init cfg cls1 = Ok (tt, cls2) /\
    catalog cls2 = catalog (initialized cfg) /\
    all_cells cls2 = Some (get_all_cells cls2) /\
    __init_done cls2 = true.
Proof.
  destruct (init_steps class_body (initialized cfg) eq_refl (init_returns cfg))
    as (s1 & s2 & Hcreate & Hsorted & Hreg).
  destruct (reset_fresh cls) as (t0 & Hrun0 & Hn0 & Hp0 & Hfresh0 & Hdone0).
  assert (Ht0 : tables_agree t0).
  { split; intros k a Hk; [rewrite Hn0 in Hk | rewrite Hp0 in Hk];
      now rewrite lookup_empty in Hk. }
  assert (Hsame : same_cells class_body t0).
  { unfold same_cells, named_cells, positioned_cells.
    rewrite Hn0, Hp0. cbn [__name_to_hexagon __position_uv_to_hexagon class_body].
    rewrite !omap_empty. split; reflexivity. }
  destruct (create_hexagons_similar catalog_calls class_body s1 t0
              tables_agree_class_body Ht0 Hsame Hcreate)
    as (t1 & Hcreate' & Hs1 & Ht1 & Hst1 & Hlo & Hl & Hlo' & Hl').
  destruct (sorted_similar s1 t1 Hs1 Ht1 Hst1)
    as (s2' & t2 & H2 & H2' & Hcat & Hall).
  { rewrite Hlo, Hl. reflexivity. }
  { rewrite Hlo', Hl'. exact Hfresh0. }
  assert (s2' = s2) by congruence. subst s2'.
  destruct (init_finishes t0 t1 t2 Hdone0 Hcreate' H2')
    as (t3 & Hinit & Hreg' & Hdone).
  exists t0, t3. split; [exact Hrun0 |]. split; [exact Hinit |].
  destruct (same_registry_catalog _ _ Hreg) as [Hc _].
  destruct (same_registry_catalog _ _ Hreg') as [Hc' Ha'].
  split; [now rewrite Hc', Hcat, Hc |]. split; [ | exact Hdone].
  rewrite Ha', Hall. f_equal.
  apply (f_equal catalog_cells) in Hc'. symmetry. exact Hc'.
Qed.

End Reinitialization.

(** ** The layout *)

Lemma layout_rows cfg :
  Forall2 (fun (start : Z * Z) row =>
             fst row = (snd start mod 2)%Z /\
             row_positions (initialized cfg) row
             = run_east (fst start) (snd start) (length (snd row)))
    [(-4, 3); (-4, 2); (-4, 1); (-3, 0); (-3, -1); (-2, -2); (-1, -3)]%Z
    (__layout (initialized cfg)).
Proof. apply (bool_decide_unpack _). vm_compute. exact I. Qed.

Lemma layout_names_sorted cfg :
  merge_sort String.le (concat (map snd (__layout (initialized cfg))))
  = map name (get_all_cells (initialized cfg)).
Proof. vm_compute. reflexivity. Qed.

(** X16.  After [Hexagon.init()] the layout and the catalog describe the
    same board: the rows of [get_layout()] name every cell of
    [get_all()] exactly once; the rows go from [v = 3] down to
    [v = -3]; the cells of a row all have the [v] of the row and go
    east one step of [u] at a time; and the number that comes with a
    row is the parity of its [v]. *)
Theorem layout_matches_catalog (cfg : BoardConfig) :
  get_layout (initialized cfg)
    = Ok (__layout (initialized cfg), initialized cfg) /\
  concat (map snd (__layout (initialized cfg)))
    ≡ₚ map name (get_all_cells (initialized cfg)) /\
  Forall2 (fun v row =>
             fst row = (v mod 2)%Z /\
             exists u,
               row_positions (initialized cfg) row
               = run_east u v (length (snd row)))
    [3; 2; 1; 0; -1; -2; -3]%Z (__layout (initialized cfg)).
Proof.
  split; [reflexivity |]. split.
  - rewrite <- layout_names_sorted. symmetry. apply merge_sort_Permutation.
  - change [3; 2; 1; 0; -1; -2; -3]%Z
      with (snd <$> [(-4, 3); (-4, 2); (-4, 1); (-3, 0); (-3, -1); (-2, -2);
                     (-1, -3)]%Z).
    apply Forall2_fmap_l. eapply Forall2_impl; [apply layout_rows |].
    intros [u v] row [Hshift Hrow]. split; [exact Hshift | eauto].
Qed.

(** ** Rotations and the inner product *)

Lemma inner_is_inner_over (v w : TinyVector) :
  TinyVector.inner v w
  = inner_over PrimFloat.mul PrimFloat.add
      (TinyVector.x v, TinyVector.y v) (TinyVector.x w, TinyVector.y w).
Proof. reflexivity. Qed.


(** ** The size of the decoration, whatever the switches *)

Section Sizes.
Context `{Libm} `{Random}.
Context (cfg : BoardConfig).

Lemma draws_appends {A} (m : SE World A) (Q : A -> list element -> Prop) :
  draws m Q -> appends m Q.
Proof.
  intros Hm base w a w' Hw Hrun.
  destruct (Hm w) as (a' & w1 & extra & Hrun' & He & HQ).
  rewrite Hrun in Hrun'. injection Hrun' as <- <-.
  exists extra. rewrite He, Hw. auto.
Qed.

Lemma appends_after {A B} (m : SE World A) (k : A -> SE World B)
    (Q1 : A -> Prop) (R : B -> list element -> Prop) :
  appends m (fun a extra => extra = [] /\ Q1 a) ->
  (forall a, Q1 a -> appends (k a) R) ->
  appends (bind m k) R.
Proof.
  intros Hm Hk.
  eapply appends_bind with (Q2 := fun _ _ b extra => R b extra).
  - exact Hm.
  - intros a x [_ Hq]. now apply Hk.
  - intros a x b y [-> _] Hr. exact Hr.
Qed.

Lemma clear_segment_is_shape c radius e :
  clear_segment cfg c radius e -> is_text e = false.
Proof. intros (p & q & -> & _). reflexivity. Qed.

Lemma hexagon_vertices_appended h scale hc :
  appends (for_range (hexagon_vertex_count cfg)
             (fun vertex_index '(hexagon_vertices, _) =>
                let vertex_angle :=
                  ((1 / 2 + fz (Z.of_nat vertex_index))
                   * hexagon_side_angle cfg)%float in
                let hexagon_center := center h in
                bind (lift (polar_vertex cfg hexagon_center
                              (scale * hexagon_side cfg) vertex_angle))
                  (fun hexagon_vertex =>
                     ret (hexagon_vertices ++ [hexagon_vertex],
                          Some hexagon_center)))
             ([], hc))
    (fun acc extra =>
       extra = [] /\ length (fst acc) = hexagon_vertex_count cfg /\
       (0 < hexagon_vertex_count cfg -> snd acc = Some (center h))).
Proof.
  eapply appends_weaken.
  - apply appends_for_range
      with (Inv := fun i (acc : list TinyVector * option TinyVector) =>
                     length (fst acc) = i /\
                     (0 < i -> snd acc = Some (center h)))
           (P := fun _ chunk => chunk = []).
    + split; [reflexivity | cbn; lia].
    + intros i [vs c] Hi [Hlen _]. cbv zeta.
      apply appends_after_quiet; [apply quiet_lift | intros v].
      apply appends_ret. cbn [fst snd] in *.
      rewrite length_app, Hlen. cbn. split; [split; [lia | reflexivity] |].
      reflexivity.
  - intros acc extra [[Hlen Hc] (chunks & -> & Hall)].
    split; [ | split; assumption].
    clear -Hall. induction Hall as [ | i chunk idx chunks -> _ IH];
      [reflexivity | exact IH].
Qed.

Lemma concentric_hexas_appended c vs count smin smax :
  appends (draw_concentric_hexas cfg c vs count smin smax)
    (fun _ extra => length extra = Z.to_nat (count + 1) /\
                    Forall (outline_of 6) extra).
Proof.
  unfold draw_concentric_hexas.
  apply appends_after_quiet; [apply quiet_lift | intros scale]. cbv zeta.
  eapply appends_weaken.
  - apply appends_for_range
      with (Inv := fun _ _ => True)
           (P := fun _ chunk => exists e, chunk = [e] /\ outline_of 6 e);
      [exact I |].
    intros i acc _ _.
    apply appends_after_quiet; [apply quiet_lift | intros s]. cbv zeta.
    eapply appends_after with (Q1 := fun vertices => length vertices = 6).
    { apply draws_appends, hexa_vertices_drawn. }
    intros vertices Hlen. apply appends_board_append. split; [exact I |].
    eexists. split; [reflexivity |]. rewrite <- Hlen. apply outline_is_outline.
  - intros a extra [_ (chunks & -> & Hall)].
    apply singleton_chunks in Hall. now rewrite length_seq in Hall.
Qed.

Lemma segments_are_shapes c radius n extra :
  length extra = n /\ Forall (clear_segment cfg c radius) extra ->
  Forall (fun e => is_text e = false) extra /\ length extra = n.
Proof.
  intros [Hl Hall]. split; [ | exact Hl].
  eapply Forall_impl; [exact Hall | apply clear_segment_is_shape].
Qed.

Lemma outlines_are_shapes k n extra :
  length extra = n /\ Forall (outline_of k) extra ->
  Forall (fun e => is_text e = false) extra /\ length extra = n.
Proof.
  intros [Hl Hall]. split; [ | exact Hl].
  eapply Forall_impl; [exact Hall | apply outline_is_shape].
Qed.

Lemma decorate_odd_appended fuel opts hc vs :
  appends (decorate_odd cfg fuel opts hc vs)
    (fun _ extra => Forall (fun e => is_text e = false) extra /\
                    length extra = odd_decoration_count opts).
Proof.
  unfold decorate_odd, odd_decoration_count.
  apply appends_after_quiet; [apply appends_read_local; reflexivity | intros c].
  destruct (with_concentric_hexas opts).
  { eapply appends_weaken; [apply concentric_hexas_appended |].
    intros ? extra. apply outlines_are_shapes. }
  destruct (with_concentrated_texture opts).
  { eapply appends_weaken; [apply concentrated_texture_appends |].
    intros ? extra. apply segments_are_shapes. }
  destruct (with_texture opts).
  { eapply appends_weaken; [apply gradient_texture_appends |].
    intros ? extra. apply segments_are_shapes. }
  eapply appends_weaken; [apply uniform_texture_appends |].
  intros ? extra. apply segments_are_shapes.
Qed.

Lemma decorate_even_appended fuel opts h hc vs :
  appends (decorate_even cfg fuel opts h hc vs)
    (fun _ extra => Forall (fun e => is_text e = false) extra /\
                    length extra = even_decoration_count opts h).
Proof.
  unfold decorate_even, even_decoration_count.
  set (count := if bool_decide (name h ∈ special_names) then 14 else 12).
  assert (Hcount : count = 12 \/ count = 14) by apply decorater_side_count.
  set (c1 := if with_concentric_hexas opts then 2 else 0).
  set (c2 := if with_concentrated_texture opts then 500 else 0).
  set (c3 := if with_texture opts then 1500 + 500 else 0).
  cbv zeta.
  eapply appends_after with (Q1 := fun vertices => length vertices = count).
  { apply draws_appends, polygon_vertices_drawn. exact Hcount. }
  intros vertices Hlen.
  eapply appends_bind
    with (Q1 := fun _ x => x = [outline cfg (flatten_points vertices)])
         (Q2 := fun _ _ _ y =>
                  Forall (fun e => is_text e = false) y /\
                  length y = count + c1 + c2 + c3).
  { apply appends_board_append. reflexivity. }
  2: { intros ? x0 ? y0 -> [Hy Hl]. split.
       - constructor; [reflexivity | exact Hy].
       - cbn [app length]. rewrite Hl. lia. }
  intros ? ? _.
  apply appends_after_quiet; [apply quiet_lift | intros first].
  eapply appends_bind
    with (Q1 := fun _ x => length x = count /\ Forall (outline_of 8) x)
         (Q2 := fun _ _ _ y =>
                  Forall (fun e => is_text e = false) y /\
                  length y = c1 + c2 + c3).
  { eapply appends_weaken; [apply draws_appends, rotating_polygons_drawn |].
    intros ? extra [Hl Hall]. split; [ | exact Hall].
    rewrite Hl, length_zip, length_app, length_drop, Hlen. cbn [length].
    destruct Hcount; lia. }
  2: { intros ? x1 ? y1 [Hx Hx8] [Hy Hl]. split.
       - apply Forall_app. split; [ | exact Hy].
         eapply Forall_impl; [exact Hx8 | apply outline_is_shape].
       - rewrite length_app, Hx, Hl. lia. }
  intros ? ? _.
  eapply appends_bind
    with (Q1 := fun _ x => Forall (fun e => is_text e = false) x /\
                           length x = c1)
         (Q2 := fun _ _ _ y =>
                  Forall (fun e => is_text e = false) y /\
                  length y = c2 + c3).
  { subst c1. destruct (with_concentric_hexas opts).
    - apply appends_after_quiet;
        [apply appends_read_local; reflexivity | intros c].
      eapply appends_weaken; [apply concentric_hexas_appended |].
      intros ? extra. apply outlines_are_shapes.
    - apply appends_ret. split; [constructor | reflexivity]. }
  2: { intros ? x2 ? y2 [Hx Hxl] [Hy Hl]. split.
       - apply Forall_app. split; assumption.
       - rewrite length_app, Hxl, Hl. lia. }
  intros ? ? _.
  eapply appends_bind
    with (Q1 := fun _ x => Forall (fun e => is_text e = false) x /\
                           length x = c2)
         (Q2 := fun _ _ _ y =>
                  Forall (fun e => is_text e = false) y /\ length y = c3).
  { subst c2. destruct (with_concentrated_texture opts).
    - apply appends_after_quiet;
        [apply appends_read_local; reflexivity | intros c].
      eapply appends_weaken; [apply concentrated_texture_appends |].
      intros ? extra. apply segments_are_shapes.
    - apply appends_ret. split; [constructor | reflexivity]. }
  2: { intros ? x3 ? y3 [Hx Hxl] [Hy Hl]. split.
       - apply Forall_app. split; assumption.
       - rewrite length_app, Hxl, Hl. lia. }
  intros ? ? _. subst c3. destruct (with_texture opts).
  - apply appends_after_quiet;
      [apply appends_read_local; reflexivity | intros c].
    eapply appends_bind
      with (Q1 := fun _ x => Forall (fun e => is_text e = false) x /\
                             length x = 1500)
           (Q2 := fun _ _ _ y =>
                    Forall (fun e => is_text e = false) y /\ length y = 500).
    + eapply appends_weaken; [apply uniform_texture_appends |].
      intros ? extra. apply segments_are_shapes.
    + intros ? ? _. eapply appends_weaken; [apply gradient_texture_appends |].
      intros ? extra. apply segments_are_shapes.
    + intros ? x4 ? y4 [Hx Hxl] [Hy Hl]. split.
      * apply Forall_app. split; assumption.
      * rewrite length_app, Hxl, Hl. reflexivity.
  - apply appends_ret. split; [constructor | reflexivity].
Qed.

(** One round of the loop, when it returns. *)
Lemma draw_hexagon_appended fuel opts h locals :
  label_side h <> LabelNone ->
  appends (draw_hexagon cfg fuel opts h locals)
    (fun _ => drawn_cell cfg opts h).
Proof.
  intros Hside. unfold draw_hexagon.
  apply appends_after_quiet; [apply quiet_lift | intros scale].
  eapply appends_after
    with (Q1 := fun acc : list TinyVector * option TinyVector =>
                  length (fst acc) = hexagon_vertex_count cfg /\
                  (0 < hexagon_vertex_count cfg -> snd acc = Some (center h))).
  { apply hexagon_vertices_appended. }
  intros [vs hc] [Hlen _]. cbn [fst snd] in Hlen.
  eapply appends_bind
    with (Q1 := fun _ x =>
                  x = [hexagon_polygon cfg opts h scale (flatten_points vs)])
         (Q2 := fun _ _ _ y =>
                  exists decoration,
                    y = decoration ++ cell_label cfg opts h /\
                    Forall (fun e => is_text e = false) decoration /\
                    length decoration = decoration_count opts h).
  { apply appends_board_append. reflexivity. }
  2: { intros ? x0 ? y0 -> (decoration & -> & Hd & Hl).
       eexists _, decoration. split; [reflexivity |].
       split; [rewrite <- Hlen; apply hexagon_polygon_outline | auto]. }
  intros ? ? _.
  eapply appends_bind
    with (Q1 := fun _ x =>
                  Forall (fun e => is_text e = false) x /\
                  length x
                    = if with_decoration opts && (ring h mod 2 =? 1)%Z
                      then odd_decoration_count opts else 0)
         (Q2 := fun _ _ _ y =>
                  exists even,
                    y = even ++ cell_label cfg opts h /\
                    Forall (fun e => is_text e = false) even /\
                    length even
                      = if with_decoration opts && (ring h mod 2 =? 0)%Z
                        then even_decoration_count opts h else 0).
  { destruct (with_decoration opts && (ring h mod 2 =? 1)%Z).
    - apply decorate_odd_appended.
    - apply appends_ret. split; [constructor | reflexivity]. }
  2: { intros ? x1 ? y1 [Hx Hxl] (even & -> & He & Hel).
       exists (x1 ++ even). rewrite <- app_assoc. split; [reflexivity |].
       split; [apply Forall_app; auto |].
       rewrite length_app, Hxl, Hel. unfold decoration_count.
       destruct (with_decoration opts); cbn [andb negb]; [ | reflexivity].
       destruct (Z.eqb_spec (ring h mod 2) 1) as [-> | Hodd];
         [cbn; lia |].
       destruct (Z.eqb_spec (ring h mod 2) 0) as [_ | Heven]; [lia |].
       pose proof (Z.mod_pos_bound (ring h) 2). lia. }
  intros ? ? _.
  eapply appends_bind
    with (Q1 := fun _ x =>
                  Forall (fun e => is_text e = false) x /\
                  length x
                    = if with_decoration opts && (ring h mod 2 =? 0)%Z
                      then even_decoration_count opts h else 0)
         (Q2 := fun _ _ _ y => y = cell_label cfg opts h).
  { destruct (with_decoration opts && (ring h mod 2 =? 0)%Z).
    - apply decorate_even_appended.
    - apply appends_ret. split; [constructor | reflexivity]. }
  2: { intros ? x2 ? y2 [Hx Hxl] ->. exists x2. auto. }
  intros ? ? _. cbv zeta. unfold cell_label.
  rewrite (next_label_location_any cfg opts h (label_location locals) Hside).
  destruct (next_label_location_bound cfg opts h None Hside) as [l ->].
  cbn [read_local emitted_label].
  eapply appends_after with (Q1 := fun a => a = l);
    [apply appends_ret; auto | intros ? ->].
  destruct l as [l | ].
  - eapply appends_bind with (Q1 := fun _ x => x = [label_text cfg h l])
                             (Q2 := fun _ _ _ y => y = []).
    + apply appends_board_append. reflexivity.
    + intros ? ? _. apply appends_ret. reflexivity.
    + intros ? ? ? ? -> ->. reflexivity.
  - eapply appends_after with (Q1 := fun _ => True);
      [apply appends_ret; auto | intros ? _].
    apply appends_ret. reflexivity.
Qed.

Lemma draw_board_appended fuel opts cls cells (w w' : World) :
  all_cells cls = Some cells ->
  Forall (fun h => label_side h <> LabelNone) cells ->
  draw_board cfg fuel opts cls w = Ok (tt, w') ->
  exists chunks,
    drawing_elements (board w') = outer_rectangle cfg opts :: concat chunks /\
    Forall2 (drawn_cell cfg opts) cells chunks.
Proof.
  intros Hcells Hsides. unfold draw_board. rewrite Hcells.
  unfold bind at 1. cbn [modify].
  match goal with
  | |- ?m ?w1 = _ -> _ =>
      assert (Hm : appends m
                (fun _ extra => exists chunks,
                   extra = outer_rectangle cfg opts :: concat chunks /\
                   Forall2 (drawn_cell cfg opts) cells chunks));
        [ | intros Hrun;
            destruct (Hm [] w1 tt w' eq_refl Hrun)
              as (extra & He & chunks & -> & Hall);
            exists chunks; split; [exact He | exact Hall] ]
  end.
  eapply appends_bind
    with (Q1 := fun _ x => x = [outer_rectangle cfg opts])
         (Q2 := fun _ _ _ y => exists chunks,
                  y = concat chunks /\
                  Forall2 (drawn_cell cfg opts) cells chunks).
  - apply appends_board_append. reflexivity.
  - intros ? ? _.
    eapply appends_bind
      with (Q1 := fun _ x => exists chunks,
                    x = concat chunks /\
                    Forall2 (drawn_cell cfg opts) cells chunks)
           (Q2 := fun _ _ _ y => y = []).
    + eapply appends_weaken.
      * apply appends_for_each
          with (Inv := fun _ => True) (P := drawn_cell cfg opts);
          [exact I |].
        intros h locals Hh _. eapply appends_weaken.
        -- apply draw_hexagon_appended.
           rewrite Forall_forall in Hsides. now apply Hsides.
        -- intros ? extra Hcell. split; [exact I | exact Hcell].
      * intros ? extra [_ Hchunks]. exact Hchunks.
    + intros ? ? _. apply appends_ret. reflexivity.
    + intros ? x0 ? y0 Hx ->. now rewrite app_nil_r.
  - intros ? x1 ? y1 -> (chunks & -> & Hall). exists chunks. auto.
Qed.

Lemma drawn_cell_shapes opts h chunk :
  drawn_cell cfg opts h chunk ->
  length (shapes chunk) = 1 + decoration_count opts h.
Proof.
  intros (polygon & decoration & -> & Hp & Hd & <-).
  change (polygon :: decoration ++ cell_label cfg opts h)
    with ((polygon :: decoration) ++ cell_label cfg opts h).
  rewrite shapes_app, shapes_cell_label, app_nil_r, shapes_all; [reflexivity |].
  constructor; [exact (outline_is_shape _ _ Hp) | exact Hd].
Qed.

Lemma default_decoration_total opts :
  with_decoration opts = true -> with_concentric_hexas opts = false ->
  with_concentrated_texture opts = false -> with_texture opts = false ->
  Z.of_nat (sum_list (map (fun h => 1 + decoration_count opts h)
                        (get_all_cells (initialized cfg)))) = 12400%Z.
Proof.
  intros Hd Hh Hc Ht.
  rewrite (map_ext _ (fun h => 1 + decoration_count main_options h)).
  - vm_compute. reflexivity.
  - intros h. unfold decoration_count, odd_decoration_count,
      even_decoration_count. rewrite Hd, Hh, Hc, Ht. reflexivity.
Qed.

(** X18.  Whatever the switches, the random source, the C library and
    the cells that [Hexagon.all] holds (provided none has [label_side]
    [None]), a call of [draw_board] that returns has drawn the outer
    rectangle and then, cell by cell, the polygon of the cell, its
    decoration and its label if it has one; the decoration is made of
    shapes only and its size depends on the switches and on the cell
    alone: on an odd ring 13 outlines, or 600, 800 or 500 segments, for
    the first texture that is switched on; on an even ring the
    decorative polygon and one small hexagon per side of it, plus 2
    outlines, 500 segments and 2000 segments for each texture that is
    switched on.  On the initialized catalog with [with_decoration]
    alone, as [main] calls it, the drawing holds 12401 shapes. *)
Theorem draw_board_decoration_size fuel opts cls cells (w w' : World) :
  all_cells cls = Some cells ->
  Forall (fun h => label_side h <> LabelNone) cells ->
  draw_board cfg fuel opts cls w = Ok (tt, w') ->
  exists chunks,
    drawing_elements (board w') = outer_rectangle cfg opts :: concat chunks /\
    Forall2 (drawn_cell cfg opts) cells chunks /\
    length (shapes (drawing_elements (board w')))
      = 1 + sum_list (map (fun h => 1 + decoration_count opts h) cells) /\
    (cells = get_all_cells (initialized cfg) ->
     with_decoration opts = true -> with_concentric_hexas opts = false ->
     with_concentrated_texture opts = false -> with_texture opts = false ->
     Z.of_nat (length (shapes (drawing_elements (board w')))) = 12401%Z).
Proof.
  intros Hcells Hsides Hrun.
  destruct (draw_board_appended fuel opts cls cells w w' Hcells Hsides Hrun)
    as (chunks & He & Hall).
  assert (Hsize : length (shapes (drawing_elements (board w')))
                  = 1 + sum_list (map (fun h => 1 + decoration_count opts h)
                                    cells)).
  { rewrite He.
    change (outer_rectangle cfg opts :: concat chunks)
      with ([outer_rectangle cfg opts] ++ concat chunks).
    rewrite shapes_app, length_app,
      (shapes_chunks _ (fun h => 1 + decoration_count opts h) _ _
         (drawn_cell_shapes opts) Hall).
    rewrite shapes_all; [reflexivity |].
    constructor; [apply outer_rectangle_is_shape | constructor]. }
  exists chunks. split; [exact He |]. split; [exact Hall |].
  split; [exact Hsize |].
  intros -> Hd Hh Hc Ht. rewrite Hsize, Nat2Z.inj_add.
  rewrite default_decoration_total by assumption. reflexivity.
Qed.

End Sizes.

Lemma draw_board_decoration_size_witness :
  exists cells chunks,
    all_cells pair_class = Some cells /\
    map name cells = ["c4"; "d4"] /\
    drawing_elements (board pair_world)
      = outer_rectangle series_config main_options :: concat chunks /\
    Forall2 (drawn_cell series_config main_options) cells chunks /\
    length (shapes (drawing_elements (board pair_world)))
      = 1 + sum_list (map (fun h => 1 + decoration_count main_options h) cells).
Proof.
  assert (Hcells : exists cells,
            all_cells pair_class = Some cells /\
            map name cells = ["c4"; "d4"] /\
            Forall (fun h => label_side h <> LabelNone) cells).
  { eexists. split; [vm_compute; reflexivity |].
    split; [reflexivity |]. repeat constructor; discriminate. }
  destruct Hcells as (cells & Hcells & Hnames & Hsides).
  assert (Hok : is_ok (pair_run series_start) = true)
    by (vm_compute; reflexivity).
  destruct (@draw_board_decoration_size series_libm lcg_random series_config 10
              main_options pair_class cells series_start pair_world
              Hcells Hsides
              (@world_after_returns lcg_random pair_run series_start Hok))
    as (chunks & He & Hall & Hsize & _).
  exists cells, chunks. auto.
Defined.
